(** * learning.py: data sets, learners and the functions that test them

    A shallow embedding of [src/learning.py] (Python 2) and of the
    properties its specification states.

    Conventions of the embedding.
    - A Python value stored in an example is a [Value]: [None], an
      integer or a string.  A row is a [list Value]; [example[a]] is the
      fallible lookup [getitem], for an index that is not negative.
    - Exceptions are values of [Exn]; a computation that can raise
      returns [Res A = Exn + A].
    - The one mutable [DataSet] object that the functions pass around
      and the state of the [random] module form the [World]; code that
      reads or updates them lives in the state-and-error monad [M].
      A learner is a computation in [M] that returns a predictor, and a
      predictor maps a row to a computation in [M]: both may read and
      change the data set, draw random numbers, and raise.
    - A dict is a [gmap]: the branches of a decision fork, and the
      nested count table of the naive Bayes learner with [None] as the
      key [VNone].
    - Python floats that hold counts and ratios of counts (the result of
      [test] and [mean], the smoothed estimates of [NaiveBayesLearner])
      are rationals [Q], compared up to [==].
    - The entropy scores of the decision-tree learner are computed in an
      arithmetic [Floats]: a type of floats with the operations that
      [information_gain] uses, [utils.log2] among them.  What is proved
      about the learned tree holds for every such arithmetic and every
      sequence of random draws.  The scores themselves are studied in
      two arithmetics: [binary64], the floats of the interpreter, and
      [reals], the numbers they approximate.
    - The helpers of [utils.py], which is not part of the sources, are
      modelled next to their first use. *)

From stdpp Require Import gmap strings list fin_maps.
From Stdlib Require Import QArith Reals Psatz PrimFloat.
From Stdlib Require Uint63.

Close Scope Q_scope.
Close Scope R_scope.

(* ================================================================== *)
(** ** Values, rows, exceptions *)

Inductive Value :=
| VNone
| VInt (z : Z)
| VStr (s : string).

Global Instance Value_eq_dec : EqDecision Value.
Proof. solve_decision. Defined.

Global Instance Value_countable : Countable Value.
Proof.
  refine (inj_countable'
    (fun v => match v with
              | VNone => inl ()
              | VInt z => inr (inl z)
              | VStr s => inr (inr s)
              end)
    (fun x => match x with
              | inl _ => VNone
              | inr (inl z) => VInt z
              | inr (inr s) => VStr s
              end) _).
  by intros [].
Defined.

Abbreviation Row := (list Value).

(** The text of a [ValueError]. [BadValue v name example] stands for
    ['Bad value %s for attribute %s in %s' % (v, name, example)]. *)
Inductive ErrMsg :=
| BadValue (v : Value) (attrname : Value) (example : Row)
| NotInList (x : Value).

(** The exceptions the modelled code raises; [UserError] stands for
    any other exception a learner or a predictor may raise. *)
Inductive Exn :=
| IndexError
| KeyError
| ZeroDivisionError
| AssertionError
| RecursionError
| TypeError
| ValueError (msg : ErrMsg)
| UserError (code : nat).

Definition Res (A : Type) : Type := Exn + A.

Definition bindR {A B} (c : Res A) (k : A -> Res B) : Res B :=
  match c with
  | inl e => inl e
  | inr a => k a
  end.

Notation "'letR' x := c 'in' k" := (bindR c (fun x => k))
  (at level 10, x name, c at level 100, k at level 200, only parsing).

(** [seq[i]] for a non-negative index. *)
Definition getitem {A} (l : list A) (i : nat) : Res A :=
  match l !! i with
  | Some x => inr x
  | None => inl IndexError
  end.

(** A [for] loop (or a comprehension) whose body can raise. *)
Fixpoint mapR {A B} (f : A -> Res B) (l : list A) : Res (list B) :=
  match l with
  | [] => inr []
  | x :: l' => letR y := f x in letR ys := mapR f l' in inr (y :: ys)
  end.

Fixpoint filterR {A} (p : A -> Res bool) (l : list A) : Res (list A) :=
  match l with
  | [] => inr []
  | x :: l' =>
      letR b := p x in letR ys := filterR p l' in inr (if b : bool then x :: ys else ys)
  end.

Fixpoint foldR {A S} (f : S -> A -> Res S) (s : S) (l : list A) : Res S :=
  match l with
  | [] => inr s
  | x :: l' => letR s' := f s x in foldR f s' l'
  end.

(* ================================================================== *)
(** ** The data set *)

(** The fields of [class DataSet] that the learners and the testers
    read.  [distance], [name] and [source] play no part in the modelled
    functions.  After [setproblem] the field [values] always holds a
    list; the unset state ([None]) and the empty list are both falsy. *)
Record DataSet := mkDataSet {
  examples : list Row;
  attrs : list nat;
  attrnames : list Value;
  target : nat;
  inputs : list nat;
  values : list (list Value);
}.

Definition with_examples (exs : list Row) (d : DataSet) : DataSet :=
  {| examples := exs; attrs := attrs d; attrnames := attrnames d;
     target := target d; inputs := inputs d; values := values d |}.

Definition with_values (vs : list (list Value)) (d : DataSet) : DataSet :=
  {| examples := examples d; attrs := attrs d; attrnames := attrnames d;
     target := target d; inputs := inputs d; values := vs |}.

(** [if self.values:] *)
Definition populated (d : DataSet) : bool :=
  match values d with
  | [] => false
  | _ :: _ => true
  end.

(** [DataSet.check_example]: the first attribute of [attrs] whose value
    is outside its value set raises. *)
Definition check_attr (d : DataSet) (example : Row) (a : nat) : Res unit :=
  letR v := getitem example a in
  letR vs := getitem (values d) a in
  if bool_decide (v ∈ vs) then inr tt
  else letR name := getitem (attrnames d) a in
       inl (ValueError (BadValue v name example)).

Definition check_example (d : DataSet) (example : Row) : Res unit :=
  if populated d
  then foldR (fun _ a => check_attr d example a) tt (attrs d)
  else inr tt.

(** [DataSet.sanitize] *)
Definition sanitize (d : DataSet) (example : Row) : Row :=
  imap (fun i attr_i => if bool_decide (i ∈ inputs d) then attr_i else VNone)
       example.

(* ================================================================== *)
(** ** The world and its monad *)

(** [draws] is the sequence of raw numbers the [random] module will
    produce and [cursor] the number of draws made so far. *)
Record World := mkWorld {
  dataset : DataSet;
  draws : nat -> nat;
  cursor : nat;
}.

Definition M (A : Type) : Type := World -> World * Res A.

Definition ret {A} (a : A) : M A := fun w => (w, inr a).
Definition raise {A} (e : Exn) : M A := fun w => (w, inl e).

Definition bind {A B} (c : M A) (k : A -> M B) : M B :=
  fun w =>
    match c w with
    | (w', inl e) => (w', inl e)
    | (w', inr a) => k a w'
    end.

Notation "'letM' x := c 'in' k" := (bind c (fun x => k))
  (at level 10, x name, c at level 100, k at level 200, only parsing).

Definition liftR {A} (r : Res A) : M A := fun w => (w, r).

Definition get_dataset : M DataSet := fun w => (w, inr (dataset w)).

(** [dataset.examples = exs] *)
Definition set_examples (exs : list Row) (w : World) : World :=
  {| dataset := with_examples exs (dataset w);
     draws := draws w; cursor := cursor w |}.

Definition put_examples (exs : list Row) : M unit :=
  fun w => (set_examples exs w, inr tt).

(** [try: body finally: fin] where [fin] cannot raise. *)
Definition try_finally {A} (body : M A) (fin : World -> World) : M A :=
  fun w => let '(w', r) := body w in (fin w', r).

(** [random.randrange(n)], and [int(random.random() * n)], for [n > 0]. *)
Definition randrange (n : nat) : M nat :=
  fun w =>
    ({| dataset := dataset w; draws := draws w; cursor := S (cursor w) |},
     inr (draws w (cursor w) `mod` n)).

Fixpoint foldM {A S} (f : S -> A -> M S) (s : S) (l : list A) : M S :=
  match l with
  | [] => ret s
  | x :: l' => letM s' := f s x in foldM f s' l'
  end.

Fixpoint mapM {A B} (f : A -> M B) (l : list A) : M (list B) :=
  match l with
  | [] => ret []
  | x :: l' => letM y := f x in letM ys := mapM f l' in ret (y :: ys)
  end.

(** [DataSet.add_example] *)
Definition add_example (example : Row) : M unit :=
  letM d := get_dataset in
  letM _ := liftR (check_example d example) in
  put_examples (examples d ++ [example]).

(* ================================================================== *)
(** ** Helpers of [utils.py] *)

(** Modelled from the spec: [utils.removeall] is not under [src/];
    it drops every occurrence of [item] from [seq]. *)
Definition removeall `{EqDecision A} (item : A) (seq : list A) : list A :=
  filter (fun x => x ≠ item) seq.

(** Modelled from the spec: [utils.count_if] is not under [src/];
    the number of items of [seq] for which [pred] holds. *)
Definition count_if {A} (pred : A -> Res bool) (seq : list A) : Res nat :=
  letR kept := filterR pred seq in inr (length kept).

(** Modelled from the spec: [utils.unique] is not under [src/]; the
    distinct elements of a sequence (their order is immaterial). *)
Definition unique (seq : list Value) : list Value := remove_dups seq.

(** Modelled from the spec: [utils.mean] is not under [src/]; the sum
    divided by the number of items, which divides by zero on []. *)
Definition mean (numbers : list Q) : Res Q :=
  match numbers with
  | [] => inl ZeroDivisionError
  | _ :: _ =>
      inr (foldl Qplus 0%Q numbers / inject_Z (Z.of_nat (length numbers)))%Q
  end.

(** Modelled from the spec: [utils.product] is not under [src/]. *)
Definition product (numbers : list Q) : Q := foldl Qmult 1%Q numbers.

Definition Qlt_bool (x y : Q) : bool := negb (Qle_bool y x).

(** Modelled from the spec: [utils.argmin] is not under [src/]; the
    first item of [seq] with the lowest score. *)
Definition argmin {A} (seq : list A) (fn : A -> Res Q) : Res A :=
  letR x0 := getitem seq 0 in
  letR s0 := fn x0 in
  letR st := foldR (fun '(best, best_score) x =>
                      letR x_score := fn x in
                      inr (if Qlt_bool x_score best_score
                           then (x, x_score) else (best, best_score)))
                   (x0, s0) seq in
  inr (fst st).

(** Modelled from the spec: [utils.argmax] is not under [src/]; an item
    with the highest score, found as [argmin] of the negated score. *)
Definition argmax {A} (seq : list A) (fn : A -> Res Q) : Res A :=
  argmin seq (fun x => letR s := fn x in inr (- s)%Q).

(** The order of a type of scores: [<], [==], and the unary minus that
    turns a lowest score into a highest one. *)
Record Ord (T : Type) := mkOrd {
  neg : T -> T;
  less : T -> T -> bool;
  same : T -> T -> bool;
}.
Arguments neg {T}.
Arguments less {T}.
Arguments same {T}.

(** Python integers. *)
Definition int_ord : Ord Z :=
  {| neg := Z.opp; less := Z.ltb; same := Z.eqb |}.

(** Modelled from the spec: [utils.argmin_random_tie] is not under
    [src/]; the items tied for the lowest score are told apart by
    [random.randrange].  [best] is unbound until the first item, which
    always ties with itself and wins [randrange(1) == 0]. *)
Definition argmin_random_tie {A T} (ord : Ord T) (seq : list A)
    (fn : A -> Res T) : M A :=
  letM x0 := liftR (getitem seq 0) in
  letM s0 := liftR (fn x0) in
  letM st := foldM (fun '(best, best_score, n) x =>
                      letM x_score := liftR (fn x) in
                      if less ord x_score best_score
                      then ret (x, x_score, 1)
                      else if same ord x_score best_score
                      then letM r := randrange (S n) in
                           ret (if r =? 0 then x else best, best_score, S n)
                      else ret (best, best_score, n))
                   (x0, s0, 0) seq in
  ret (fst (fst st)).

(** Modelled from the spec: [utils.argmax_random_tie] is not under
    [src/]; the highest score, ties broken at random. *)
Definition argmax_random_tie {A T} (ord : Ord T) (seq : list A)
    (fn : A -> Res T) : M A :=
  argmin_random_tie ord seq (fun x => letR s := fn x in inr (neg ord s)).

(** [random.shuffle(x)] of the Python 2 library: for [i] from
    [len(x) - 1] down to [1], swap [x[i]] with [x[int(random() * (i+1))]]. *)
Definition swap {A} (l : list A) (i j : nat) : list A :=
  match l !! i, l !! j with
  | Some x, Some y => <[j := x]> (<[i := y]> l)
  | _, _ => l
  end.

Definition shuffle {A} (x : list A) : M (list A) :=
  foldM (fun x i => letM j := randrange (S i) in ret (swap x i j))
        x (reverse (seq 1 (length x - 1))).

(* ================================================================== *)
(** ** Slices *)

(** The bound of a slice: a negative index counts from the end, and
    the result is clipped to [0 .. len]. *)
Definition clip (len : nat) (i : Z) : nat :=
  if (i <? 0)%Z then Z.to_nat (Z.of_nat len + i) else Nat.min (Z.to_nat i) len.

(** [l[:hi]], [l[lo:]] and [l[lo:hi]] *)
Definition slice_to {A} (l : list A) (hi : Z) : list A :=
  take (clip (length l) hi) l.

Definition slice_from {A} (l : list A) (lo : Z) : list A :=
  drop (clip (length l) lo) l.

Definition slice {A} (l : list A) (lo hi : Z) : list A :=
  take (clip (length l) hi - clip (length l) lo) (drop (clip (length l) lo) l).

(* ================================================================== *)
(** ** Decision trees *)

(** [DecisionFork] and [DecisionLeaf]; [branches] is the dict of the
    fork. *)
#[warnings="-register-all"]
Inductive Tree :=
| DecisionLeaf (result : Value)
| DecisionFork (attr : nat) (attrname : Value) (branches : gmap Value Tree).

(** [__call__] of both classes: a missing branch is a [KeyError]. *)
Fixpoint call (t : Tree) (example : Row) {struct t} : Res Value :=
  match t with
  | DecisionLeaf result => inr result
  | DecisionFork attr _ branches =>
      letR attrvalue := getitem example attr in
      match ((fun subtree => call subtree example) <$> branches) !! attrvalue with
      | Some r => r
      | None => inl KeyError
      end
  end.

(** [DecisionFork.add] *)
Definition add (tree : Tree) (val : Value) (subtree : Tree) : Tree :=
  match tree with
  | DecisionFork attr attrname branches =>
      DecisionFork attr attrname (<[val := subtree]> branches)
  | DecisionLeaf result => DecisionLeaf result
  end.

Fixpoint allR {A} (p : A -> Res bool) (l : list A) : Res bool :=
  match l with
  | [] => inr true
  | x :: l' => letR b := p x in if b : bool then allR p l' else inr false
  end.

(** The floats of the interpreter with the operations that
    [information_gain] applies to them: [float(n)] (also for an integer
    operand of a float operation), the arithmetic, the comparisons, and
    [utils.log2], which is not under [src/]. *)
Record Floats := mkFloats {
  float : Type;
  of_int : nat -> float;
  fadd : float -> float -> float;
  fsub : float -> float -> float;
  fmul : float -> float -> float;
  fdiv : float -> float -> float;
  fopp : float -> float;
  flt : float -> float -> bool;
  feq : float -> float -> bool;
  flog2 : float -> float;
}.

Definition float_ord (fl : Floats) : Ord (float fl) :=
  {| neg := fopp fl; less := flt fl; same := feq fl |}.


Definition Rltb (x y : R) : bool := if Rlt_dec x y then true else false.
Definition Reqb (x y : R) : bool := if Req_dec_T x y then true else false.

(** Modelled from the spec: [utils.log2] is not under [src/]; the
    logarithm to base 2.  Together with the arithmetic of the real
    numbers it gives the value that the floats approximate. *)
Definition reals : Floats :=
  {| float := R; of_int := INR;
     fadd := Rplus; fsub := Rminus; fmul := Rmult; fdiv := Rdiv;
     fopp := Ropp; flt := Rltb; feq := Reqb;
     flog2 := fun x => (ln x / ln 2)%R |}.

(** [sum(numbers)] of floats: the additions start from the integer 0. *)
Definition fsum (fl : Floats) (numbers : list (float fl)) : float fl :=
  foldl (fadd fl) (of_int fl 0) numbers.

(** [information_content(values)] on a list of counts.  Counts other
    than 0 are positive, so [s] is not zero when it divides. *)
Definition information_content (fl : Floats) (values : list nat) : float fl :=
  let values := removeall 0 values in
  let s := of_int fl (foldl Nat.add 0 values) in
  let values := if negb (feq fl s (of_int fl 1))
                then map (fun v => fdiv fl (of_int fl v) s) values
                else map (of_int fl) values in
  fsum fl (map (fun v => fmul fl (fopp fl v) (flog2 fl v)) values).

(** The body of [for (v_k, exs) in split_by(A, examples)]: learn the
    subtree [rec exs] and add it as the branch for [v_k]. *)
Definition grow (rec : list Row -> M Tree) (tree : Tree)
    (part : Value * list Row) : M Tree :=
  letM subtree := rec (snd part) in
  ret (add tree (fst part) subtree).

Section DecisionTreeLearner.
(** The float arithmetic the learner runs on. *)
Variable fl : Floats.
(** The data set the learner was called on; the closure reads
    [target], [values] and [attrnames] from it. *)
Variable ds : DataSet.

Definition count (attr : nat) (val : Value) (examples : list Row) : Res nat :=
  count_if (fun e => letR x := getitem e attr in inr (bool_decide (x = val)))
           examples.

Definition all_same_class (examples : list Row) : Res bool :=
  letR e0 := getitem examples 0 in
  letR class0 := getitem e0 (target ds) in
  allR (fun e => letR c := getitem e (target ds) in
                 inr (bool_decide (c = class0))) examples.

Definition split_by (attr : nat) (examples : list Row)
  : Res (list (Value * list Row)) :=
  letR vals := getitem (values ds) attr in
  mapR (fun v =>
          letR exs := filterR (fun e => letR x := getitem e attr in
                                        inr (bool_decide (x = v))) examples in
          inr (v, exs)) vals.

Definition I (examples : list Row) : Res (float fl) :=
  letR vals := getitem (values ds) (target ds) in
  letR counts := mapR (fun v => count (target ds) v examples) vals in
  inr (information_content fl counts).

Definition information_gain (attr : nat) (examples : list Row)
  : Res (float fl) :=
  let N := length examples in
  letR parts := split_by attr examples in
  letR remainder :=
    foldR (fun remainder '(v, examples_i) =>
             if decide (N = 0) then inl ZeroDivisionError
             else letR i := I examples_i in
                  inr (fadd fl remainder
                         (fmul fl (fdiv fl (of_int fl (length examples_i))
                                           (of_int fl N)) i)))
          (of_int fl 0) parts in
  letR i := I examples in
  inr (fsub fl i remainder).

Definition choose_attribute (attrs : list nat) (examples : list Row) : M nat :=
  argmax_random_tie (float_ord fl) attrs
                    (fun a => information_gain a examples).

Definition plurality_value (examples : list Row) : M Tree :=
  letM vals := liftR (getitem (values ds) (target ds)) in
  letM popular :=
    argmax_random_tie int_ord vals
      (fun v => letR c := count (target ds) v examples in
                inr (Z.of_nat c)) in
  ret (DecisionLeaf popular).

(** [decision_tree_learning]; [depth] bounds the nesting of calls, and
    running out of it is the interpreter's [RecursionError]. *)
Fixpoint decision_tree_learning (depth : nat) (examples : list Row)
    (attrs : list nat) (parent_examples : list Row) {struct depth} : M Tree :=
  match depth with
  | 0 => raise RecursionError
  | S depth' =>
      if decide (length examples = 0) then plurality_value parent_examples
      else
        letM same := liftR (all_same_class examples) in
        if same : bool then
          letM e0 := liftR (getitem examples 0) in
          letM c := liftR (getitem e0 (target ds)) in
          ret (DecisionLeaf c)
        else if decide (length attrs = 0) then plurality_value examples
        else
          letM A := choose_attribute attrs examples in
          letM name := liftR (getitem (attrnames ds) A) in
          letM parts := liftR (split_by A examples) in
          foldM (grow (fun exs => decision_tree_learning depth' exs
                                    (removeall A attrs) examples))
                (DecisionFork A name ∅) parts
  end.
End DecisionTreeLearner.

(** [DecisionTreeLearner(dataset)]: every nested call removes the chosen
    attribute, so the nesting is at most [len(dataset.inputs) + 1]. *)
Definition DecisionTreeLearner (fl : Floats) : M Tree :=
  letM d := get_dataset in
  decision_tree_learning fl d (S (length (inputs d))) (examples d) (inputs d) [].

(* ================================================================== *)
(** ** The naive Bayes learner *)

(** [d[k]] on a dict *)
Definition dict_get `{Countable K} {V} (d : gmap K V) (k : K) : Res V :=
  match d !! k with
  | Some v => inr v
  | None => inl KeyError
  end.

(** The inner dict [_N[gv][attr]] after the initialisation loop; the
    key [None] is [VNone]. *)
Definition init_attr (d : DataSet) (attr : nat) : Res (gmap Value nat) :=
  letR vals := getitem (values d) attr in
  if bool_decide (VNone ∈ vals) then inl AssertionError
  else inr (foldl (fun m val => <[VNone := 0]> (<[val := 0]> m)) ∅ vals).

Definition init_gv (d : DataSet) : Res (gmap nat (gmap Value nat)) :=
  foldR (fun m attr => letR t := init_attr d attr in inr (<[attr := t]> m))
        ∅ (inputs d).

Definition init_N (d : DataSet) : Res (gmap Value (gmap nat (gmap Value nat))) :=
  letR gvs := getitem (values d) (target d) in
  foldR (fun N gv => letR t := init_gv d in inr (<[gv := t]> N)) ∅ gvs.

(** The body of [for attr in dataset.inputs], on the dict [Ngv]. *)
Definition count_attr (example : Row) (Ngv : gmap nat (gmap Value nat))
    (attr : nat) : Res (gmap nat (gmap Value nat)) :=
  letR Na := dict_get Ngv attr in
  letR val := getitem example attr in
  letR c := dict_get Na val in
  let Na := <[val := c + 1]> Na in
  letR c_all := dict_get Na VNone in
  inr (<[attr := <[VNone := c_all + 1]> Na]> Ngv).

(** The body of [for example in dataset.examples]. *)
Definition count_example (d : DataSet)
    (N : gmap Value (gmap nat (gmap Value nat))) (example : Row)
  : Res (gmap Value (gmap nat (gmap Value nat))) :=
  letR gv := getitem example (target d) in
  letR Ngv := dict_get N gv in
  letR Ngv' := foldR (count_attr example) Ngv (inputs d) in
  inr (<[gv := Ngv']> N).

Definition count_table (d : DataSet)
  : Res (gmap Value (gmap nat (gmap Value nat))) :=
  letR N0 := init_N d in
  foldR (count_example d) N0 (examples d).

(** [N(targetval, attr, attrval)]: a [KeyError] anywhere gives 0. *)
Definition N (tbl : gmap Value (gmap nat (gmap Value nat)))
    (targetval : Value) (attr : nat) (attrval : Value) : nat :=
  match tbl !! targetval with
  | Some by_attr =>
      match by_attr !! attr with
      | Some by_val => default 0 (by_val !! attrval)
      | None => 0
      end
  | None => 0
  end.

Definition nat_to_Q (n : nat) : Q := inject_Z (Z.of_nat n).

(** [P(targetval, attr, attrval)] *)
Definition P (d : DataSet) (tbl : gmap Value (gmap nat (gmap Value nat)))
    (targetval : Value) (attr : nat) (attrval : Value) : Res Q :=
  let numerator := (nat_to_Q (N tbl targetval attr attrval) + 1)%Q in
  letR vals := getitem (values d) attr in
  let denominator := N tbl targetval attr VNone + length vals in
  if decide (denominator = 0) then inl ZeroDivisionError
  else inr (numerator / nat_to_Q denominator)%Q.

Definition class_probability (d : DataSet)
    (tbl : gmap Value (gmap nat (gmap Value nat)))
    (example : Row) (targetval : Value) : Res Q :=
  letR ps := mapR (fun a => letR v := getitem example a in
                            P d tbl targetval a v) (inputs d) in
  inr (product ps).

Definition Predictor := Row -> M Value.
Definition Learner := M Predictor.

(** [NaiveBayesLearner(dataset)]: the table is built once; [predict]
    reads [values], [target] and [inputs] of the data set when called. *)
Definition NaiveBayes_predict (tbl : gmap Value (gmap nat (gmap Value nat)))
  : Predictor :=
  fun example =>
    letM d := get_dataset in
    letM possible_values := liftR (getitem (values d) (target d)) in
    liftR (argmax possible_values (class_probability d tbl example)).

Definition NaiveBayesLearner : Learner :=
  letM d := get_dataset in
  letM tbl := liftR (count_table d) in
  ret (NaiveBayes_predict tbl).

(** A tree is a predictor. *)
Definition tree_predictor (t : Tree) : Predictor :=
  fun example => liftR (call t example).

Definition DecisionTreePredictorLearner (fl : Floats) : Learner :=
  letM t := DecisionTreeLearner fl in ret (tree_predictor t).

(* ================================================================== *)
(** ** Testing learners on examples *)

(** [test(predict, dataset, examples)]; [verbose] only prints. *)
Definition test (predict : Predictor) (examples_arg : option (list Row)) : M Q :=
  letM d := get_dataset in
  let exs := default (examples d) examples_arg in
  if decide (length exs = 0) then ret 0%Q
  else
    letM right :=
      foldM (fun right example =>
               letM d := get_dataset in
               letM desired := liftR (getitem example (target d)) in
               letM output := predict (sanitize d example) in
               ret (if bool_decide (output = desired)
                    then (right + 1)%Q else right))
            0%Q exs in
    ret (right / nat_to_Q (length exs))%Q.

(** [train_and_test(learner, dataset, start, end)] *)
Definition train_and_test (learner : Learner) (start end_ : Z) : M Q :=
  letM d := get_dataset in
  let exs := examples d in
  try_finally
    (letM _ := put_examples (slice_to exs start ++ slice_from exs end_) in
     letM predict := learner in
     test predict (Some (slice exs start end_)))
    (set_examples exs).

(** [range(k)] *)
Definition range (k : Z) : list Z := Z.of_nat <$> seq 0 (Z.to_nat k).

(** The [else] branch of [cross_validation] ([trials <= 1]).  [n/k] is
    only evaluated inside the loop over [range(k)], so never for
    [k = 0]. *)
Definition cross_validation_once (learner : Learner) (k : Z) : M Q :=
  letM d := get_dataset in
  let n := Z.of_nat (length (examples d)) in
  letM shuffled := shuffle (examples d) in
  letM _ := put_examples shuffled in
  letM scores :=
    mapM (fun i => train_and_test learner (i * (n / k)) ((i + 1) * (n / k)))
         (range k) in
  liftR (mean scores).

(** [cross_validation(learner, dataset, k, trials)] *)
Definition cross_validation (learner : Learner) (k : option Z) (trials : Z)
  : M Q :=
  letM d := get_dataset in
  let k := default (Z.of_nat (length (examples d))) k in
  if (1 <? trials)%Z then
    letM scores := mapM (fun _ => cross_validation_once learner k)
                        (range trials) in
    liftR (mean scores)
  else cross_validation_once learner k.

(** [leave1out(learner, dataset)] *)
Definition leave1out (learner : Learner) : M Q :=
  letM d := get_dataset in
  cross_validation learner (Some (Z.of_nat (length (examples d)))) 1.

(* ================================================================== *)
(** ** Building a data set *)

Inductive AttrRef :=
| AttrNum (z : Z)
| AttrName (s : string).

(** [DataSet.attrnum] *)
Definition attrnum (d : DataSet) (attr : AttrRef) : Res Z :=
  match attr with
  | AttrNum z =>
      inr (if (z <? 0)%Z then Z.of_nat (length (attrs d)) + z else z)%Z
  | AttrName s =>
      match list_find (fun x => x = VStr s) (attrnames d) with
      | Some (i, _) => inr (Z.of_nat i)
      | None => inl (ValueError (NotInList (VStr s)))
      end
  end.

(** [zip] applied to the unpacked rows: the columns, as many as the
    shortest row has. *)
Definition zip_star (rows : list Row) : list (list Value) :=
  match rows with
  | [] => []
  | r0 :: _ =>
      let width := foldr (fun r => Nat.min (length r)) (length r0) rows in
      (fun j => omap (fun r : Row => r !! j) rows) <$> seq 0 width
  end.

(** [DataSet.check_me] *)
Definition check_me (d : DataSet) : Res unit :=
  if negb (bool_decide (length (attrnames d) = length (attrs d)))
  then inl AssertionError
  else if negb (bool_decide (target d ∈ attrs d)) then inl AssertionError
  else if bool_decide (target d ∈ inputs d) then inl AssertionError
  else if negb (bool_decide (inputs d ⊆ attrs d)) then inl AssertionError
  else letR _ := mapR (check_example d) (examples d) in inr tt.

(** [DataSet.setproblem].  A resolved target below zero is in no
    [attrs], so [check_me] fails with an [AssertionError] on it. *)
Definition setproblem (tgt : AttrRef) (inputs_arg : option (list nat))
    (exclude : list AttrRef) (d : DataSet) : Res DataSet :=
  letR t := attrnum d tgt in
  letR excl := mapR (attrnum d) exclude in
  let ins :=
    match inputs_arg with
    | Some ((_ :: _) as l) => filter (fun a => Z.of_nat a ≠ t) l
    | _ => filter (fun a => Z.of_nat a ≠ t ∧ Z.of_nat a ∉ excl) (attrs d)
    end in
  let vals := if populated d then values d
              else unique <$> zip_star (examples d) in
  if (t <? 0)%Z then inl AssertionError
  else
    let d' := {| examples := examples d; attrs := attrs d;
                 attrnames := attrnames d; target := Z.to_nat t;
                 inputs := ins; values := vals |} in
    letR _ := check_me d' in inr d'.

(** [DataSet.__init__] on a list of examples.  With neither [attrs] nor
    examples [self.attrs] stays [None] and [setproblem] fails on it. *)
Definition DataSet_init (exs : list Row) (attrs_arg : option (list nat))
    (attrnames_arg : option (list Value)) (tgt : AttrRef)
    (inputs_arg : option (list nat)) (values_arg : option (list (list Value)))
    (exclude : list AttrRef) : Res DataSet :=
  letR ats :=
    match attrs_arg, exs with
    | Some ((_ :: _) as a), _ => inr a
    | _, e0 :: _ => inr (seq 0 (length e0))
    | Some [], [] => inr []
    | None, [] => inl TypeError
    end in
  let names :=
    match attrnames_arg with
    | Some ((_ :: _) as l) => l
    | _ => (fun a : nat => VInt (Z.of_nat a)) <$> ats
    end in
  setproblem tgt inputs_arg exclude
    {| examples := exs; attrs := ats; attrnames := names; target := 0;
       inputs := []; values := default [] values_arg |}.

(* ================================================================== *)
(** ** The restaurant data *)

(** Modelled from the spec: the data file [restaurant.csv] read by
    [RestaurantDataSet()] is not under [src/]; these are the 12 rows of
    the waiting examples [Fig. 18.3], with the columns in the order of
    the attribute names given in [RestaurantDataSet]. *)
Definition restaurant_rows : list Row :=
  map (map VStr)
  [ ["Yes"; "No";  "No";  "Yes"; "Some"; "$$$"; "No";  "Yes"; "French";  "0-10";  "Yes"];
    ["Yes"; "No";  "No";  "Yes"; "Full"; "$";   "No";  "No";  "Thai";    "30-60"; "No"];
    ["No";  "Yes"; "No";  "No";  "Some"; "$";   "No";  "No";  "Burger";  "0-10";  "Yes"];
    ["Yes"; "No";  "Yes"; "Yes"; "Full"; "$";   "Yes"; "No";  "Thai";    "10-30"; "Yes"];
    ["Yes"; "No";  "Yes"; "No";  "Full"; "$$$"; "No";  "Yes"; "French";  ">60";   "No"];
    ["No";  "Yes"; "No";  "Yes"; "Some"; "$$";  "Yes"; "Yes"; "Italian"; "0-10";  "Yes"];
    ["No";  "Yes"; "No";  "No";  "None"; "$";   "Yes"; "No";  "Burger";  "0-10";  "No"];
    ["No";  "No";  "No";  "Yes"; "Some"; "$$";  "Yes"; "Yes"; "Thai";    "0-10";  "Yes"];
    ["No";  "Yes"; "Yes"; "No";  "Full"; "$";   "Yes"; "No";  "Burger";  ">60";   "No"];
    ["Yes"; "Yes"; "Yes"; "Yes"; "Full"; "$$$"; "No";  "Yes"; "Italian"; "10-30"; "No"];
    ["No";  "No";  "No";  "No";  "None"; "$";   "No";  "No";  "Thai";    "0-10";  "No"];
    ["Yes"; "Yes"; "Yes"; "Yes"; "Full"; "$";   "No";  "No";  "Burger";  "30-60"; "Yes"]
  ]%string.

(** [RestaurantDataSet(examples)] *)
Definition RestaurantDataSet (exs : list Row) : Res DataSet :=
  DataSet_init exs None
    (Some (map VStr ["Alternate"; "Bar"; "Fri/Sat"; "Hungry"; "Patrons";
                     "Price"; "Raining"; "Reservation"; "Type";
                     "WaitEstimate"; "Wait"]%string))
    (AttrName "Wait") None None [].

(** [restaurant = RestaurantDataSet()], as it is once the module is
    loaded. *)
Definition restaurant : DataSet :=
  match RestaurantDataSet restaurant_rows with
  | inr d => d
  | inl _ => mkDataSet [] [] [] 0 [] []
  end.

(* ================================================================== *)
(** ** Small data sets used as instances *)

(** A world around a data set, with a given sequence of random draws. *)
Definition world_of (d : DataSet) (draws : nat -> nat) : World :=
  {| dataset := d; draws := draws; cursor := 0 |}.

(** One input attribute with the two values A and B, ten rows: seven
    of A with target yes, three of B with target no. *)
Definition ab_rows : list Row :=
  replicate 7 [VStr "A"; VStr "yes"] ++ replicate 3 [VStr "B"; VStr "no"].

Definition ab_dataset : DataSet :=
  {| examples := ab_rows; attrs := [0; 1]; attrnames := [VInt 0; VInt 1];
     target := 1; inputs := [0];
     values := [[VStr "A"; VStr "B"]; [VStr "yes"; VStr "no"]] |}.

(** The same rows before [setproblem] has computed [values]. *)
Definition ab_unset : DataSet := with_values [] ab_dataset.







(* ================================================================== *)
(** ** Predicates used in the statements *)



(** A score is a proportion. *)
Definition proportion (s : Q) : Prop := (0 <= s)%Q ∧ (s <= 1)%Q.

(** [count(t, attr, any)] and [count(t, attr, v)] of the training
    rows: how many rows have target [t], and how many of them have
    value [v] at [attr]. *)
Definition rows_with (d : DataSet) (t : Value) (l : list Row) : nat :=
  length (filter (fun e : Row => e !! (target d) = Some t) l).

Definition rows_with_value (d : DataSet) (t : Value) (attr : nat) (v : Value)
    (l : list Row) : nat :=
  length (filter (fun e : Row => e !! (target d) = Some t ∧ e !! attr = Some v)
                 l).

(** The row has a target in the target's value set and, at every
    input, a value in the value set of that input. *)
Definition valid_row (d : DataSet) (e : Row) : Prop :=
  (∃ t gvs, e !! (target d) = Some t ∧ values d !! (target d) = Some gvs
             ∧ t ∈ gvs)
  ∧ ∀ attr, attr ∈ inputs d →
      ∃ v vs, e !! attr = Some v ∧ values d !! attr = Some vs ∧ v ∈ vs.

(** What [NaiveBayesLearner] relies on: the target has a non-empty
    value set, no input is listed twice, every input has a non-empty
    value set without [None], and the examples are valid rows. *)
Definition bayes_ready (d : DataSet) : Prop :=
  (∃ gvs, values d !! (target d) = Some gvs ∧ gvs ≠ [])
  ∧ NoDup (inputs d)
  ∧ (∀ attr, attr ∈ inputs d →
       ∃ vs, values d !! attr = Some vs ∧ (VNone ∉ vs) ∧ vs ≠ [])
  ∧ ∀ e, e ∈ examples d → valid_row d e.

(** An inner dict of counts read with 0 for a missing key, and the
    inner dict as the initialisation loop leaves it. *)
Definition read (by_val : gmap Value nat) (v : Value) : nat :=
  default 0 (by_val !! v).

Definition zeroed (vals : list Value) : gmap Value nat :=
  foldl (fun m val => <[VNone := 0]> (<[val := 0]> m)) ∅ vals.

(** The inner dict after one row with value [val] has been counted. *)
Definition bump (by_val : gmap Value nat) (val : Value) : gmap Value nat :=
  <[VNone := read (<[val := read by_val val + 1]> by_val) VNone + 1]>
    (<[val := read by_val val + 1]> by_val).

(** Every key that the counting loop looks up is in the table. *)
Definition has_keys (d : DataSet)
    (tbl : gmap Value (gmap nat (gmap Value nat))) : Prop :=
  ∀ t gvs, values d !! (target d) = Some gvs → t ∈ gvs →
    ∃ by_attr, tbl !! t = Some by_attr
      ∧ ∀ attr, attr ∈ inputs d →
          ∃ by_val, by_attr !! attr = Some by_val
            ∧ ∀ v vs, values d !! attr = Some vs → v ∈ vs →
                is_Some (by_val !! v) ∧ is_Some (by_val !! VNone).

(** The rows with target [t] that count for the key [v] of [attr]: all
    of them for the key [None], those with value [v] otherwise. *)
Definition tally (d : DataSet) (t : Value) (attr : nat) (v : Value)
    (l : list Row) : nat :=
  length (filter (fun e : Row => e !! (target d) = Some t
                                 ∧ (v = VNone ∨ e !! attr = Some v)) l).

(** The rows of [l] that have value [v] at [attr]. *)
Definition rows_at (attr : nat) (v : Value) (l : list Row) : list Row :=
  filter (fun e : Row => e !! attr = Some v) l.

(** What [DecisionTreeLearner] relies on: the target has a non-empty
    value set, every input has a value set and a name, and the examples
    are valid rows. *)
Definition tree_ready (d : DataSet) : Prop :=
  (∃ gvs, values d !! (target d) = Some gvs ∧ gvs ≠ [])
  ∧ (∀ attr, attr ∈ inputs d →
       is_Some (values d !! attr) ∧ is_Some (attrnames d !! attr))
  ∧ ∀ e, e ∈ examples d → valid_row d e.

(** No two rows of [l] agree on every attribute of [attrs] and differ
    on the target. *)
Definition separated (d : DataSet) (attrs : list nat) (l : list Row) : Prop :=
  ∀ e1 e2, e1 ∈ l → e2 ∈ l →
    (∀ a, a ∈ attrs → e1 !! a = e2 !! a) →
    e1 !! (target d) = e2 !! (target d).

(** No two examples share the values of all inputs and differ on the
    target. *)
Definition consistent (d : DataSet) : Prop :=
  separated d (inputs d) (examples d).

(** Every row of [l] has a value at [a]. *)
Definition has_column (a : nat) (l : list Row) : Prop :=
  ∀ e, e ∈ l → is_Some (e !! a).

(** The tree gives every row of [l] its own target, also when the row
    is only known at the attributes of [attrs], provided [attrs]
    separates the targets of [l]. *)
Definition classifies (d : DataSet) (attrs : list nat) (l : list Row)
    (tree : Tree) : Prop :=
  separated d attrs l →
  ∀ e e', e ∈ l → (∀ a, a ∈ attrs → e' !! a = e !! a) →
    ∃ c, e !! (target d) = Some c ∧ call tree e' = inr c.

(** The tree answers on every row that has, at every input, a value of
    that input's value set. *)
Definition answers (d : DataSet) (tree : Tree) : Prop :=
  ∀ e : Row,
    (∀ a, a ∈ inputs d →
       ∃ v vs, e !! a = Some v ∧ values d !! a = Some vs ∧ v ∈ vs) →
    ∃ c, call tree e = inr c.

(** On the data set [d] with any list of valid rows as its examples,
    the learner returns a predictor and leaves the data set alone, and
    the predictor answers on every sanitized valid row, leaving the
    world alone. *)
Definition reliable (learner : Learner) (d : DataSet) : Prop :=
  ∀ l w,
    dataset w = with_examples l d → (∀ e, e ∈ l → valid_row d e) →
    ∃ w' predict,
      learner w = (w', inr predict)
      ∧ dataset w' = dataset w
      ∧ ∀ e w1, valid_row d e → dataset w1 = dataset w →
          ∃ v, predict (sanitize d e) w1 = (w1, inr v).


(** The sum of a list of reals, the term [- p * log2(p)] of a count [c]
    out of [s] (nothing for a count of 0), and the entropy of the counts
    [c t] for [t] in [T] out of [n]. *)
Definition Rsum (l : list R) : R := foldr Rplus 0%R l.

Definition bits (c s : R) : R :=
  if Req_dec_T c 0 then 0%R else (- (c / s) * (ln (c / s) / ln 2))%R.

Definition entropy {B} (c : B → R) (n : R) (T : list B) : R :=
  Rsum (map (fun t => bits (c t) n) T).

(* ================================================================== *)
(** ** The default distance *)

(** [mean_boolean_error(predictions, targets)], the default [distance]
    of a data set: [zip] stops at the end of the shorter list, and a
    comparison counts as 1 or 0 in the sum that [mean] takes. *)
Definition mean_boolean_error (predictions targets : list Value) : Res Q :=
  mean (map (fun '(p, t) => if bool_decide (p ≠ t) then 1%Q else 0%Q)
            (zip predictions targets)).

(** The pairs of entries at a common position of [a] and [b] that
    differ. *)
Definition mismatches (a b : list Value) : list (Value * Value) :=
  filter (fun pt => pt.1 ≠ pt.2) (zip a b).

(* ================================================================== *)
(** ** Learning curves *)

(** [range(2, n - 10, 2)] for a list of [n] examples. *)
Definition default_sizes (n : nat) : list Z :=
  (fun i : nat => 2 + 2 * Z.of_nat i)%Z
    <$> seq 0 (Z.to_nat ((Z.of_nat n - 11) / 2)).

(** [score(learner, size)] inside [learningcurve] *)
Definition score (learner : Learner) (size : Z) : M Q :=
  letM d := get_dataset in
  letM shuffled := shuffle (examples d) in
  letM _ := put_examples shuffled in
  train_and_test learner 0 size.

(** [learningcurve(learner, dataset, trials, sizes)] *)
Definition learningcurve (learner : Learner) (trials : Z)
    (sizes : option (list Z)) : M (list (Z * Q)) :=
  letM d := get_dataset in
  let sizes := default (default_sizes (length (examples d))) sizes in
  mapM (fun size =>
          letM scores := mapM (fun _ => score learner size) (range trials) in
          letM m := liftR (mean scores) in
          ret (size, m))
       sizes.

(* ================================================================== *)
(** ** Generated data sets *)

(** [random.choice(seq)] of the Python 2 library:
    [seq[int(random() * len(seq))]]. *)
Definition choice {A} (seq : list A) : M A :=
  letM i := randrange (length seq) in liftR (getitem seq i).

(** [sum(bits)] *)
Definition sum_bits (bits : list Z) : Z := foldl Z.add 0%Z bits.

(** [[random.choice([0, 1]) for i in range(k)]] *)
Definition random_bits (k : Z) : M (list Z) :=
  mapM (fun _ => choice [0; 1]%Z) (range k).

(** The loop of [Majority] and of [Parity]: [n] rows of [k] random bits
    followed by [label(bits)]. *)
Definition labelled_rows (label : list Z → Z) (k n : Z) : M (list Row) :=
  mapM (fun _ => letM bits := random_bits k in
                 ret (VInt <$> (bits ++ [label bits])))
       (range n).

(** [DataSet(name=..., examples=examples)] with every other argument at
    its default. *)
Definition DataSet_of (exs : list Row) : Res DataSet :=
  DataSet_init exs None None (AttrNum (-1)) None None [].

(** [Majority(k, n)]: the label is [int(sum(bits) > k/2)], with the
    integer division of Python 2. *)
Definition Majority (k n : Z) : M DataSet :=
  letM exs := labelled_rows
                (fun bits => if (k / 2 <? sum_bits bits)%Z then 1 else 0)%Z
                k n in
  liftR (DataSet_of exs).

(** [Parity(k, n)]: the label is [sum(bits) % 2]. *)
Definition Parity (k n : Z) : M DataSet :=
  letM exs := labelled_rows (fun bits => sum_bits bits `mod` 2)%Z k n in
  liftR (DataSet_of exs).

(** [Xor(n)] *)
Definition Xor (n : Z) : M DataSet := Parity 2 n.

(** A row of [k] bits followed by the label of these bits. *)
Definition labelled (label : list Z → Z) (k : Z) (e : Row) : Prop :=
  ∃ bits, length bits = Z.to_nat k
          ∧ Forall (fun b => b = 0 ∨ b = 1)%Z bits
          ∧ e = VInt <$> (bits ++ [label bits]).

(** The fields that [DataSet(examples=exs)] computes for rows of
    [m + 1] columns. *)
Definition table (exs : list Row) (m : nat) : DataSet :=
  {| examples := exs; attrs := seq 0 (S m);
     attrnames := (fun a : nat => VInt (Z.of_nat a)) <$> seq 0 (S m);
     target := m; inputs := seq 0 m;
     values := unique <$> zip_star exs |}.

(** The rows of [l] whose target is what [f] says. *)
Definition right_answers (d : DataSet) (f : Row → Value) (l : list Row)
  : list Row :=
  filter (fun e : Row => e !! target d = Some (f e)) l.

(** The data set [ab_dataset] with [None] listed among the values of its
    input. *)
Definition none_dataset : DataSet :=
  with_values [[VNone; VStr "A"; VStr "B"]; [VStr "yes"; VStr "no"]]
              ab_dataset.

(* ================================================================== *)
(** * Properties *)

(** ** Generic facts about the two monads *)

Lemma getitem_Some {A} (l : list A) i x : l !! i = Some x → getitem l i = inr x.
Proof. unfold getitem. by intros ->. Qed.

Lemma getitem_inr {A} (l : list A) i x : getitem l i = inr x → l !! i = Some x.
Proof. unfold getitem. destruct (l !! i); naive_solver. Qed.

Lemma bind_inr {A B} (c : M A) (k : A → M B) w w' a :
  c w = (w', inr a) → bind c k w = k a w'.
Proof. unfold bind. by intros ->. Qed.

Lemma bind_liftR_inr {A B} (r : Res A) (k : A → M B) w a :
  r = inr a → bind (liftR r) k w = k a w.
Proof. intros ->. reflexivity. Qed.

(* ================================================================== *)
(** ** [sanitize] *)

Lemma sanitize_lookup (d : DataSet) (row : Row) (i : nat) :
  sanitize d row !! i
  = (fun v => if bool_decide (i ∈ inputs d) then v else VNone) <$> row !! i.
Proof. unfold sanitize. by rewrite list_lookup_imap. Qed.

(** C8: [sanitize] applied twice gives what it gives once; the result
    has the length of the row, keeps the value at every position listed
    in [inputs] and holds [None] at every other position.  The result is
    a new list: the row passed in is a value the function only reads. *)
Theorem sanitize_idempotent (d : DataSet) (row : Row) :
  sanitize d (sanitize d row) = sanitize d row
  ∧ length (sanitize d row) = length row
  ∧ ∀ i, sanitize d row !! i
         = (fun v => if bool_decide (i ∈ inputs d) then v else VNone)
             <$> row !! i.
Proof.
  split; [|split].
  - apply list_eq. intros i. rewrite !sanitize_lookup.
    destruct (row !! i) as [v|]; simpl; [|done].
    by case_bool_decide.
  - unfold sanitize. apply length_imap.
  - apply sanitize_lookup.
Qed.

(* ================================================================== *)
(** ** [check_example] and [add_example] *)

Lemma check_attr_ok (d : DataSet) (example : Row) (a : nat) v vs :
  example !! a = Some v → values d !! a = Some vs → v ∈ vs →
  check_attr d example a = inr tt.
Proof.
  intros He Hv Hin. unfold check_attr.
  rewrite (getitem_Some _ _ _ He), (getitem_Some _ _ _ Hv). simpl.
  by rewrite bool_decide_eq_true_2.
Qed.


Lemma check_loop_ok (d : DataSet) (example : Row) (l : list nat) :
  (∀ a, a ∈ l → ∃ v vs, example !! a = Some v ∧ values d !! a = Some vs
                        ∧ v ∈ vs) →
  foldR (fun _ a => check_attr d example a) tt l = inr tt.
Proof.
  induction l as [|a l IH]; intros H; [done|]. simpl.
  destruct (H a) as (v & vs & He & Hv & Hin); [left|].
  rewrite (check_attr_ok _ _ _ _ _ He Hv Hin). simpl.
  apply IH. intros b Hb. apply H. by right.
Qed.

Lemma check_example_ok (d : DataSet) (example : Row) :
  (∀ a, a ∈ attrs d → ∃ v vs, example !! a = Some v ∧ values d !! a = Some vs
                              ∧ v ∈ vs) →
  check_example d example = inr tt.
Proof.
  intros H. unfold check_example. destruct (populated d); [|done].
  by apply check_loop_ok.
Qed.





(* ================================================================== *)
(** ** Values derived from the examples *)

Lemma min_width_gt (rows : list Row) (n a : nat) :
  a < n → (∀ r, r ∈ rows → a < length r) →
  a < foldr (fun r => Nat.min (length r)) n rows.
Proof.
  intros Hn. induction rows as [|r rows IH]; intros H; simpl; [done|].
  apply Nat.min_glb_lt.
  - apply H. left.
  - apply IH. intros r' Hr'. apply H. by right.
Qed.

Lemma zip_star_lookup (rows : list Row) (e : Row) (a : nat) (v : Value) :
  e ∈ rows → (∀ r, r ∈ rows → a < length r) → e !! a = Some v →
  ∃ col, zip_star rows !! a = Some col ∧ v ∈ col.
Proof.
  intros He Hw Hv. destruct rows as [|r0 rows]; [by apply elem_of_nil in He|].
  unfold zip_star.
  exists (omap (fun r : Row => r !! a) (r0 :: rows)). split.
  - rewrite list_lookup_fmap, lookup_seq_lt; [done|].
    apply min_width_gt; [apply Hw; left|done].
  - apply list_elem_of_omap. by exists e.
Qed.

Lemma derived_values_permit (d : DataSet) (e : Row) :
  (∀ r a, r ∈ examples d → a ∈ attrs d → a < length r) →
  e ∈ examples d →
  check_example (with_values (unique <$> zip_star (examples d)) d) e = inr tt.
Proof.
  intros Hw He. apply check_example_ok. simpl. intros a Ha.
  destruct (lookup_lt_is_Some_2 e a) as [v Hv]; [by apply Hw|].
  destruct (zip_star_lookup (examples d) e a v) as (col & Hcol & Hin);
    [done| |done|].
  { intros r Hr. by apply Hw. }
  exists v, (unique col). split_and!; [done| |].
  - by rewrite list_lookup_fmap, Hcol.
  - unfold unique. by apply elem_of_remove_dups.
Qed.

Lemma setproblem_values (tgt : AttrRef) (ins : option (list nat))
    (excl : list AttrRef) (d d' : DataSet) :
  setproblem tgt ins excl d = inr d' →
  examples d' = examples d
  ∧ values d' = if populated d then values d
                else unique <$> zip_star (examples d).
Proof.
  unfold setproblem. destruct (attrnum d tgt) as [|t]; [done|]. simpl.
  destruct (mapR (attrnum d) excl) as [|ex]; [done|]. simpl.
  destruct (t <? 0)%Z; [done|].
  match goal with |- context [check_me ?x] => destruct (check_me x) end;
    [done|].
  simpl. by intros [= <-].
Qed.

Lemma mapR_each {A B} (f : A → Res B) (l : list A) (ys : list B) :
  mapR f l = inr ys → ∀ x, x ∈ l → ∃ y, f x = inr y.
Proof.
  revert ys. induction l as [|x l IH]; intros ys Hrun x' Hx'.
  { by apply elem_of_nil in Hx'. }
  cbn [mapR] in Hrun. destruct (f x) as [|y] eqn:Hy; [done|].
  cbn [bindR] in Hrun. destruct (mapR f l) as [|ys'] eqn:Hl; [done|].
  apply elem_of_cons in Hx' as [->|Hx']; [by exists y|by eapply IH].
Qed.

(** C9: when [values] is not given, the data set that [setproblem]
    returns has as [values] the distinct values seen in each column of
    its own examples, and [check_example] raises nothing on any of those
    examples.  The derived values permit every example that has a value
    at every attribute of [attrs]. *)
Theorem derived_values_validate (d : DataSet) :
  populated d = false →
  (∀ tgt ins excl d', setproblem tgt ins excl d = inr d' →
     examples d' = examples d
     ∧ values d' = unique <$> zip_star (examples d)
     ∧ ∀ e, e ∈ examples d' → check_example d' e = inr tt)
  ∧ ((∀ r a, r ∈ examples d → a ∈ attrs d → a < length r) →
     ∀ e, e ∈ examples d →
       check_example (with_values (unique <$> zip_star (examples d)) d) e
       = inr tt).
Proof.
  intros Hp. split.
  - intros tgt ins excl d' Hset.
    destruct (setproblem_values _ _ _ _ _ Hset) as [Hex Hval].
    rewrite Hp in Hval. split_and!; [done..|].
    intros e He. revert Hset. unfold setproblem.
    destruct (attrnum d tgt) as [|t]; [done|]. cbn [bindR].
    destruct (mapR (attrnum d) excl) as [|ex]; [done|]. cbn [bindR].
    destruct (t <? 0)%Z; [done|].
    match goal with |- context [check_me ?x] => set (dx := x) end.
    destruct (check_me dx) as [|[]] eqn:Hcm; [done|]. cbn [bindR].
    intros [= <-]. unfold check_me in Hcm.
    repeat (case_bool_decide; try done). cbn [negb] in Hcm.
    destruct (mapR (check_example dx) (examples dx)) as [|us] eqn:Hmap;
      [done|].
    destruct (mapR_each _ _ _ Hmap e He) as [[] Hu]. exact Hu.
  - intros Hw e He. by apply derived_values_permit.
Qed.

Lemma derived_values_validate_witness :
  populated ab_unset = false
  ∧ setproblem (AttrNum (-1)) None [] ab_unset = inr ab_dataset
  ∧ (∀ e, e ∈ examples ab_dataset → check_example ab_dataset e = inr tt)
  ∧ (∀ e, e ∈ examples ab_unset →
       check_example
         (with_values (unique <$> zip_star (examples ab_unset)) ab_unset) e
       = inr tt).
Proof.
  assert (Hp : populated ab_unset = false) by reflexivity.
  assert (Hset : setproblem (AttrNum (-1)) None [] ab_unset = inr ab_dataset)
    by (by vm_compute).
  assert (Hw : ∀ r a, r ∈ examples ab_unset → a ∈ attrs ab_unset →
                      a < length r).
  { intros r a Hr Ha.
    assert (HF : Forall (fun r : Row =>
                   Forall (fun a => a < length r) (attrs ab_unset))
                   (examples ab_unset))
      by (apply (bool_decide_unpack _); by vm_compute).
    rewrite Forall_forall in HF. specialize (HF r Hr).
    rewrite Forall_forall in HF. by apply HF. }
  split; [exact Hp|]. split; [exact Hset|]. split.
  - exact (proj2 (proj2 (proj1 (derived_values_validate ab_unset Hp)
                           (AttrNum (-1)) None [] ab_dataset Hset))).
  - exact (proj2 (derived_values_validate ab_unset Hp) Hw).
Defined.

(* ================================================================== *)
(** ** [test] and [train_and_test] *)

(** C10: on an empty list of examples (passed in, or taken from the
    data set) [test] returns 0.0 before it divides, whatever the
    predictor, and leaves the world as it was. *)
Theorem test_empty_examples (predict : Predictor)
    (examples_arg : option (list Row)) (w : World) :
  default (examples (dataset w)) examples_arg = [] →
  test predict examples_arg w = (w, inr 0%Q).
Proof.
  intros Hnil. unfold test, bind, get_dataset. by rewrite Hnil.
Qed.

Lemma test_empty_examples_witness :
  default (examples (dataset (world_of ab_dataset (fun _ => 0)))) (Some []) = []
  ∧ test (tree_predictor (DecisionLeaf (VStr "yes"))) (Some [])
         (world_of ab_dataset (fun _ => 0))
    = (world_of ab_dataset (fun _ => 0), inr 0%Q).
Proof.
  split; [reflexivity|].
  apply (test_empty_examples _ (Some []) (world_of ab_dataset (fun _ => 0))).
  reflexivity.
Defined.

(** C7: whatever the learner and its predictor do, and whether
    [train_and_test] returns a score or raises, [dataset.examples] is
    afterwards the sequence it was before the call, for every [start]
    and [end]. *)
Theorem train_and_test_restores_examples (learner : Learner)
    (start end_ : Z) (w : World) :
  examples (dataset (fst (train_and_test learner start end_ w)))
  = examples (dataset w).
Proof.
  unfold train_and_test, bind, get_dataset, try_finally.
  match goal with
  | |- context [let '(w', r) := ?c in _] => destruct c as [w' r]
  end.
  reflexivity.
Qed.

(* ================================================================== *)
(** ** Loops in [M] *)

Lemma mapM_invariant {A B} (Inv : World → Prop) (f : A → M B) (l : list A) :
  (∀ x w, Inv w → Inv (fst (f x w))) →
  ∀ w, Inv w → Inv (fst (mapM f l w)).
Proof.
  intros Hf. induction l as [|x l IH]; intros w Hw; [done|].
  simpl. unfold bind. specialize (Hf x w Hw).
  destruct (f x w) as [w1 [e|y]]; [done|]. simpl in Hf.
  specialize (IH w1 Hf).
  destruct (mapM f l w1) as [w2 [e|ys]]; done.
Qed.

Lemma mapM_results {A B} (Post : B → Prop) (f : A → M B) (l : list A) :
  (∀ x w w' y, f x w = (w', inr y) → Post y) →
  ∀ w w' ys, mapM f l w = (w', inr ys) →
             Forall Post ys ∧ length ys = length l.
Proof.
  intros Hf. induction l as [|x l IH]; intros w w' ys.
  - intros [= <- <-]. by split.
  - simpl. unfold bind.
    destruct (f x w) as [w1 [e|y]] eqn:Hx; [done|].
    destruct (mapM f l w1) as [w2 [e|ys']] eqn:Hl; [done|].
    intros [= <- <-]. destruct (IH _ _ _ Hl) as [HF Hlen].
    split; [|by simpl; f_equal].
    constructor; [by eapply Hf|done].
Qed.

Lemma mapM_total {A B} (Inv : World → Prop) (f : A → M B) (l : list A) :
  (∀ x w, x ∈ l → Inv w → ∃ w' y, f x w = (w', inr y) ∧ Inv w') →
  ∀ w, Inv w → ∃ w' ys, mapM f l w = (w', inr ys) ∧ Inv w'.
Proof.
  induction l as [|x l IH]; intros Hf w Hw.
  - by exists w, [].
  - destruct (Hf x w) as (w1 & y & Hx & Hw1); [left|done|].
    destruct (IH (fun x' w' Hx' => Hf x' w' (list_elem_of_further _ _ _ Hx')) w1 Hw1)
      as (w2 & ys & Hl & Hw2).
    exists w2, (y :: ys). simpl. unfold bind. by rewrite Hx, Hl.
Qed.

(* ================================================================== *)
(** ** [random.shuffle] permutes *)

Lemma insert_cons_Permutation {A} (l : list A) (j : nat) (a y : A) :
  l !! j = Some y → y :: <[j := a]> l ≡ₚ a :: l.
Proof.
  revert j. induction l as [|b l IH]; intros [|j] Hj; simplify_eq/=.
  - apply Permutation_swap.
  - rewrite Permutation_swap, (IH j Hj). apply Permutation_swap.
Qed.

Lemma swap_Permutation {A} (l : list A) (i j : nat) : swap l i j ≡ₚ l.
Proof.
  unfold swap. revert i j. induction l as [|a l IH]; intros i j.
  { by destruct i, j. }
  destruct i as [|i], j as [|j]; simpl.
  - done.
  - destruct (l !! j) as [y|] eqn:Hj; [|done]. simpl.
    by apply insert_cons_Permutation.
  - destruct (l !! i) as [x|] eqn:Hi; [|done]. simpl.
    by apply insert_cons_Permutation.
  - specialize (IH i j).
    destruct (l !! i) as [x|]; [|done].
    destruct (l !! j) as [y|]; [|done]. simpl.
    by rewrite IH.
Qed.

Lemma shuffle_loop_Permutation {A} (idx : list nat) (x : list A) (w : World) :
  ∃ w' y,
    foldM (fun x i => letM j := randrange (S i) in ret (swap x i j)) x idx w
    = (w', inr y)
    ∧ y ≡ₚ x ∧ dataset w' = dataset w.
Proof.
  revert x w. induction idx as [|i idx IH]; intros x w.
  - by exists w, x.
  - simpl. unfold bind at 1. unfold bind at 1. unfold randrange at 1.
    unfold ret at 1.
    match goal with |- context [foldM _ ?x1 idx ?w1] =>
      destruct (IH x1 w1) as (w' & y & Hrun & Hperm & Hd) end.
    exists w', y. split_and!; [done| |done].
    by rewrite Hperm, swap_Permutation.
Qed.

Lemma shuffle_Permutation {A} (x : list A) (w : World) :
  ∃ w' y, shuffle x w = (w', inr y) ∧ y ≡ₚ x ∧ dataset w' = dataset w.
Proof. apply shuffle_loop_Permutation. Qed.

(* ================================================================== *)
(** ** Scores are proportions *)

Lemma nat_to_Q_S (n : nat) : (nat_to_Q (S n) == nat_to_Q n + 1)%Q.
Proof.
  unfold nat_to_Q. rewrite Nat2Z.inj_succ, <- Z.add_1_r, inject_Z_plus.
  reflexivity.
Qed.

Lemma nat_to_Q_pos (n : nat) : n ≠ 0 → (0 < nat_to_Q n)%Q.
Proof.
  intros Hn. unfold nat_to_Q. change 0%Q with (inject_Z 0).
  rewrite <- Zlt_Qlt. lia.
Qed.

Lemma ratio_proportion (r : Q) (n : nat) :
  n ≠ 0 → (0 <= r)%Q → (r <= nat_to_Q n)%Q → proportion (r / nat_to_Q n).
Proof.
  intros Hn H0 Hr. pose proof (nat_to_Q_pos n Hn) as Hpos. split.
  - apply Qle_shift_div_l; [done|]. by rewrite Qmult_0_l.
  - apply Qle_shift_div_r; [done|]. by rewrite Qmult_1_l.
Qed.

Lemma sum_bounds (ys : list Q) :
  Forall proportion ys →
  ∀ acc, (acc <= foldl Qplus acc ys)%Q
         ∧ (foldl Qplus acc ys <= acc + nat_to_Q (length ys))%Q.
Proof.
  induction 1 as [|y ys [Hy0 Hy1] _ IH]; intros acc; simpl.
  - split; [apply Qle_refl|]. change (nat_to_Q 0) with 0%Q. lra.
  - destruct (IH (acc + y)%Q) as [Hlo Hhi].
    pose proof (nat_to_Q_S (length ys)) as HS. split; lra.
Qed.

Lemma mean_proportion (ys : list Q) (m : Q) :
  Forall proportion ys → mean ys = inr m → proportion m.
Proof.
  intros HF. unfold mean. destruct ys as [|y ys]; [done|].
  intros [= <-]. destruct (sum_bounds _ HF 0%Q) as [Hlo Hhi].
  simpl in Hlo, Hhi. apply ratio_proportion; [done|lra|lra].
Qed.

Lemma test_loop_bounds (predict : Predictor) (l : list Row) :
  ∀ r0 w w' r,
    foldM (fun right example =>
             letM d := get_dataset in
             letM desired := liftR (getitem example (target d)) in
             letM output := predict (sanitize d example) in
             ret (if bool_decide (output = desired)
                  then (right + 1)%Q else right)) r0 l w = (w', inr r) →
    (r0 <= r)%Q ∧ (r <= r0 + nat_to_Q (length l))%Q.
Proof.
  induction l as [|e l IH]; intros r0 w w' r; simpl.
  - intros [= <- <-]. change (nat_to_Q 0) with 0%Q. split; lra.
  - unfold bind at 1. unfold bind at 1. unfold get_dataset at 1.
    unfold bind at 1. unfold liftR at 1.
    destruct (getitem e (target (dataset w))) as [err|desired]; [done|].
    unfold bind at 1.
    destruct (predict (sanitize (dataset w) e) w) as [w1 [err|output]];
      [done|].
    unfold ret at 1. intros Hrest. apply IH in Hrest as [Hlo Hhi].
    pose proof (nat_to_Q_S (length l)) as HS.
    case_bool_decide; split; lra.
Qed.

Lemma test_proportion (predict : Predictor) (arg : option (list Row))
    (w w' : World) (s : Q) :
  test predict arg w = (w', inr s) → proportion s.
Proof.
  unfold test. unfold bind at 1. unfold get_dataset at 1.
  destruct (decide (length (default (examples (dataset w)) arg) = 0))
    as [Hz|Hnz].
  - intros [= <- <-]. split; lra.
  - unfold bind at 1.
    match goal with |- context [foldM ?f ?r0 ?l ?w0] =>
      destruct (foldM f r0 l w0) as [w1 [err|r]] eqn:Hloop end; [done|].
    intros [= <- <-]. apply test_loop_bounds in Hloop as [Hlo Hhi].
    apply ratio_proportion; [done|lra|lra].
Qed.

Lemma train_and_test_proportion (learner : Learner) (start end_ : Z)
    (w w' : World) (s : Q) :
  train_and_test learner start end_ w = (w', inr s) → proportion s.
Proof.
  unfold train_and_test. unfold bind at 1. unfold get_dataset at 1.
  unfold try_finally. unfold bind at 1. unfold put_examples at 1.
  unfold bind at 1.
  match goal with |- context [learner ?w0] =>
    destruct (learner w0) as [w1 [err|predict]] end.
  { by intros [= _ ?]. }
  match goal with |- context [test ?p ?a ?w0] =>
    destruct (test p a w0) as [w2 r] eqn:Ht end.
  intros [= <- ->]. by eapply test_proportion.
Qed.

(* ================================================================== *)
(** ** Cross-validation *)

Lemma slice_subseteq {A} (l : list A) (lo hi : Z) : slice l lo hi ⊆ l.
Proof.
  unfold slice. etrans; [apply subseteq_take|apply subseteq_drop].
Qed.

Lemma leave1out_unfold (learner : Learner) (w : World) :
  leave1out learner w
  = cross_validation_once learner
      (Z.of_nat (length (examples (dataset w)))) w.
Proof. reflexivity. Qed.

Lemma try_finally_set_examples {A} (body : M A) (exs : list Row) (w : World) :
  examples (dataset (fst (try_finally body (set_examples exs) w))) = exs.
Proof. unfold try_finally. by destruct (body w). Qed.

Lemma fold_examples_kept (learner : Learner) (y : list Row)
    (start end_ : Z) (w : World) :
  examples (dataset w) = y →
  examples (dataset (fst (train_and_test learner start end_ w))) = y.
Proof.
  intros <-. unfold train_and_test, bind, get_dataset.
  apply try_finally_set_examples.
Qed.

Lemma cross_validation_once_examples (learner : Learner) (k : Z) (w : World) :
  ∃ w1 shuffled,
    shuffle (examples (dataset w)) w = (w1, inr shuffled)
    ∧ shuffled ≡ₚ examples (dataset w)
    ∧ examples (dataset (fst (cross_validation_once learner k w))) = shuffled.
Proof.
  destruct (shuffle_Permutation (examples (dataset w)) w)
    as (w1 & y & Hsh & Hperm & Hd).
  exists w1, y. split_and!; [done..|].
  unfold cross_validation_once. unfold bind at 1. unfold get_dataset at 1.
  unfold bind at 1. rewrite Hsh. unfold bind at 1. unfold put_examples at 1.
  unfold bind at 1.
  match goal with |- context [mapM ?f ?l ?w0] =>
    pose proof (mapM_invariant (fun w => examples (dataset w) = y) f l) as Hinv;
    specialize (Hinv (fun i w' Hw' =>
      fold_examples_kept learner y _ _ w' Hw') w0 eq_refl);
    destruct (mapM f l w0) as [w2 [err|scores]] end; [done|].
  unfold liftR. done.
Qed.

Lemma cross_validation_once_proportion (learner : Learner) (k : Z)
    (w w' : World) (s : Q) :
  cross_validation_once learner k w = (w', inr s) → proportion s.
Proof.
  unfold cross_validation_once. unfold bind at 1. unfold get_dataset at 1.
  unfold bind at 1.
  destruct (shuffle (examples (dataset w)) w) as [w1 [err|y]]; [done|].
  unfold bind at 1. unfold put_examples at 1. unfold bind at 1.
  match goal with |- context [mapM ?f ?l ?w0] =>
    destruct (mapM f l w0) as [w2 [err|scores]] eqn:Hm end; [done|].
  unfold liftR. intros [= <- Hmean].
  apply mapM_results with (Post := proportion) in Hm as [HF _].
  - by eapply mean_proportion.
  - intros i v v' sc Hrun. by eapply train_and_test_proportion.
Qed.

(* ================================================================== *)
(** ** The count table of [NaiveBayesLearner] *)

Lemma foldR_inr {A S} (f : S → A → S) (acc : S) (l : list A) :
  foldR (fun s x => inr (f s x)) acc l = inr (foldl f acc l).
Proof. revert acc. induction l as [|x l IH]; intros acc; [done|apply IH]. Qed.

Section CountTable.
Variable d : DataSet.

Lemma zeroed_spec (vals : list Value) (acc : gmap Value nat) :
  let m := foldl (fun m val => <[VNone := 0]> (<[val := 0]> m)) acc vals in
  (∀ k, read m k = 0 ∨ m !! k = acc !! k)
  ∧ (∀ v, v ∈ vals → m !! v = Some 0)
  ∧ (vals ≠ [] → m !! VNone = Some 0).
Proof.
  induction vals as [|x vals IH] using rev_ind; simpl.
  { split_and!; [by right| |done]. intros v Hv. by apply elem_of_nil in Hv. }
  rewrite foldl_snoc. destruct IH as (IH1 & IH2 & IH3). split_and!.
  - intros k. unfold read.
    destruct (decide (k = VNone)) as [->|Hk1]; [left; by rewrite lookup_insert_eq|].
    rewrite lookup_insert_ne by done.
    destruct (decide (k = x)) as [->|Hk2]; [left; by rewrite lookup_insert_eq|].
    rewrite lookup_insert_ne by done. apply IH1.
  - intros v Hv.
    destruct (decide (v = VNone)) as [->|Hk1]; [by rewrite lookup_insert_eq|].
    rewrite lookup_insert_ne by done.
    destruct (decide (v = x)) as [->|Hk2]; [by rewrite lookup_insert_eq|].
    rewrite lookup_insert_ne by done. apply IH2.
    apply elem_of_app in Hv as [Hv|Hv]; [done|].
    apply list_elem_of_singleton in Hv. done.
  - intros _. by rewrite lookup_insert_eq.
Qed.

Lemma zeroed_read (vals : list Value) (k : Value) : read (zeroed vals) k = 0.
Proof.
  destruct (zeroed_spec vals ∅) as (H & _ & _).
  destruct (H k) as [Hz|Hz]; [done|].
  unfold read, zeroed. by rewrite Hz, lookup_empty.
Qed.

Lemma init_attr_zeroed (attr : nat) (vals : list Value) :
  values d !! attr = Some vals → VNone ∉ vals →
  init_attr d attr = inr (zeroed vals).
Proof.
  intros Hv Hn. unfold init_attr. rewrite (getitem_Some _ _ _ Hv). simpl.
  by rewrite bool_decide_eq_false_2.
Qed.

Lemma init_gv_loop (ins : list nat) (acc : gmap nat (gmap Value nat)) :
  (∀ attr, attr ∈ ins → ∃ vs, values d !! attr = Some vs ∧ VNone ∉ vs) →
  foldR (fun m attr => letR t := init_attr d attr in inr (<[attr := t]> m))
        acc ins
  = inr (foldl (fun m attr =>
                  <[attr := zeroed (default [] (values d !! attr))]> m)
               acc ins).
Proof.
  revert acc. induction ins as [|a ins IH]; intros acc H; [done|]. simpl.
  destruct (H a) as (vs & Hv & Hn); [left|].
  rewrite (init_attr_zeroed _ _ Hv Hn), Hv. simpl.
  apply IH. intros b Hb. apply H. by right.
Qed.

Lemma zeroed_inputs_lookup (ins : list nat) (acc : gmap nat (gmap Value nat))
    (attr : nat) :
  foldl (fun m attr => <[attr := zeroed (default [] (values d !! attr))]> m)
        acc ins !! attr
  = if decide (attr ∈ ins)
    then Some (zeroed (default [] (values d !! attr)))
    else acc !! attr.
Proof.
  revert acc. induction ins as [|a ins IH]; intros acc; cbn [foldl].
  { case_decide as Hin; [by apply elem_of_nil in Hin|done]. }
  rewrite IH. destruct (decide (attr ∈ ins)) as [Hin|Hin].
  - by rewrite decide_True by (by right).
  - destruct (decide (attr = a)) as [->|Hne].
    + rewrite decide_True by left. by rewrite lookup_insert_eq.
    + rewrite lookup_insert_ne by done.
      rewrite decide_False; [done|].
      intros [?|?]%elem_of_cons; done.
Qed.

Lemma init_N_loop (gvs : list Value) (g : gmap nat (gmap Value nat))
    (acc : gmap Value (gmap nat (gmap Value nat))) :
  init_gv d = inr g →
  foldR (fun N gv => letR t := init_gv d in inr (<[gv := t]> N)) acc gvs
  = inr (foldl (fun N gv => <[gv := g]> N) acc gvs).
Proof.
  intros Hg. rewrite Hg. simpl. apply foldR_inr.
Qed.

Lemma const_fill_lookup (gvs : list Value) (g : gmap nat (gmap Value nat))
    (acc : gmap Value (gmap nat (gmap Value nat))) (t : Value) :
  foldl (fun N gv => <[gv := g]> N) acc gvs !! t
  = if decide (t ∈ gvs) then Some g else acc !! t.
Proof.
  revert acc. induction gvs as [|a gvs IH]; intros acc; cbn [foldl].
  { case_decide as Hin; [by apply elem_of_nil in Hin|done]. }
  rewrite IH. destruct (decide (t ∈ gvs)) as [Hin|Hin].
  - by rewrite decide_True by (by right).
  - destruct (decide (t = a)) as [->|Hne].
    + rewrite decide_True by left. by rewrite lookup_insert_eq.
    + rewrite lookup_insert_ne by done.
      rewrite decide_False; [done|].
      intros [?|?]%elem_of_cons; done.
Qed.
End CountTable.

Section Counting.
Variable d : DataSet.

Lemma read_bump (by_val : gmap Value nat) (val v : Value) :
  val ≠ VNone →
  read (bump by_val val) v
  = read by_val v + (if decide (v = VNone ∨ v = val) then 1 else 0).
Proof.
  intros Hval. unfold bump, read.
  destruct (decide (v = VNone ∨ v = val)) as [[-> | ->]|Hd].
  - rewrite lookup_insert_eq, lookup_insert_ne by done. simpl. lia.
  - rewrite lookup_insert_ne by done. rewrite lookup_insert_eq. simpl. lia.
  - rewrite !lookup_insert_ne; [lia|..]; intros Heq; apply Hd; auto.
Qed.

Lemma bump_keys (by_val : gmap Value nat) (val k : Value) :
  is_Some (by_val !! k) → is_Some (bump by_val val !! k).
Proof.
  intros Hk. unfold bump.
  destruct (decide (k = VNone)) as [->|Hv]; [by rewrite lookup_insert_eq|].
  rewrite lookup_insert_ne by done.
  destruct (decide (k = val)) as [->|Hv']; [by rewrite lookup_insert_eq|].
  by rewrite lookup_insert_ne.
Qed.

(** [for attr in dataset.inputs: ...] on one example. *)
Lemma count_inner (e : Row) (ins : list nat) :
  NoDup ins →
  ∀ Ngv : gmap nat (gmap Value nat),
    (∀ attr, attr ∈ ins →
       ∃ by_val v, Ngv !! attr = Some by_val ∧ e !! attr = Some v
                   ∧ v ≠ VNone ∧ is_Some (by_val !! v)
                   ∧ is_Some (by_val !! VNone)) →
    ∃ Ngv',
      foldR (count_attr e) Ngv ins = inr Ngv'
      ∧ (∀ attr, attr ∉ ins → Ngv' !! attr = Ngv !! attr)
      ∧ (∀ attr by_val v, attr ∈ ins → Ngv !! attr = Some by_val →
           e !! attr = Some v → Ngv' !! attr = Some (bump by_val v)).
Proof.
  induction 1 as [|a ins Ha Hnd IH]; intros Ngv Hk.
  { exists Ngv. split_and!; [done..|]. intros ??? Hin.
    by apply elem_of_nil in Hin. }
  destruct (Hk a) as (by_val & v & Hby & Hv & Hvn & [c Hc] & [ca Hca]);
    [left|].
  cbn [foldR]. unfold count_attr at 1. unfold dict_get at 1. rewrite Hby.
  cbn [bindR]. rewrite (getitem_Some _ _ _ Hv). cbn [bindR].
  unfold dict_get at 1. rewrite Hc. cbn [bindR].
  unfold dict_get at 1. rewrite lookup_insert_ne by done.
  rewrite Hca. cbn [bindR].
  assert (Hbump : <[VNone := ca + 1]> (<[v := c + 1]> by_val) = bump by_val v).
  { unfold bump, read. rewrite lookup_insert_ne by done.
    by rewrite Hc, Hca. }
  rewrite Hbump.
  destruct (IH (<[a := bump by_val v]> Ngv)) as (Ngv' & Hrun & Hout & Hin).
  { intros attr Hattr.
    assert (attr ≠ a) by (intros ->; done).
    rewrite lookup_insert_ne by done. apply Hk. by right. }
  exists Ngv'. split_and!; [done| |].
  - intros attr Hattr. rewrite Hout.
    + rewrite lookup_insert_ne; [done|]. intros ->. apply Hattr. left.
    + intros ?. apply Hattr. by right.
  - intros attr by_val' v' [->|Hattr]%elem_of_cons Hby' Hv'.
    + rewrite Hout by done. rewrite lookup_insert_eq. congruence.
    + assert (attr ≠ a) by (intros ->; done).
      apply Hin; [done| |done]. by rewrite lookup_insert_ne.
Qed.

Hypothesis Hready : bayes_ready d.

Lemma count_example_spec (tbl : gmap Value (gmap nat (gmap Value nat)))
    (e : Row) :
  has_keys d tbl → valid_row d e →
  ∃ tbl',
    count_example d tbl e = inr tbl'
    ∧ has_keys d tbl'
    ∧ ∀ t attr v, attr ∈ inputs d →
        N tbl' t attr v
        = N tbl t attr v
          + (if decide (e !! (target d) = Some t
                        ∧ (v = VNone ∨ e !! attr = Some v))
             then 1 else 0).
Proof.
  destruct Hready as (_ & Hnd & Hvs & _).
  intros Hkeys [(gv & gvs & Hgv & Hgvs & Hin) Hrow].
  destruct (Hkeys gv gvs Hgvs Hin) as (Ngv & HNgv & Hattrs).
  assert (Hpre : ∀ attr, attr ∈ inputs d →
            ∃ by_val v, Ngv !! attr = Some by_val ∧ e !! attr = Some v
                        ∧ v ≠ VNone ∧ is_Some (by_val !! v)
                        ∧ is_Some (by_val !! VNone)).
  { intros attr Hattr.
    destruct (Hattrs attr Hattr) as (by_val & Hby & Hk).
    destruct (Hrow attr Hattr) as (v & vs & Hv & Hvals & Hvin).
    destruct (Hvs attr Hattr) as (vs' & Hvals' & Hnone & _).
    assert (vs' = vs) as -> by congruence.
    exists by_val, v. split_and!; [done..| | |].
    - intros ->. done.
    - by apply (Hk v vs).
    - by apply (Hk v vs). }
  destruct (count_inner e (inputs d) Hnd Ngv Hpre) as (Ngv' & Hrun & Hout & Hupd).
  exists (<[gv := Ngv']> tbl). split_and!.
  - unfold count_example. rewrite (getitem_Some _ _ _ Hgv). cbn [bindR].
    unfold dict_get at 1. rewrite HNgv. cbn [bindR].
    by rewrite Hrun.
  - intros t gvs' Hgvs' Ht.
    destruct (decide (t = gv)) as [->|Hne].
    + exists Ngv'. rewrite lookup_insert_eq. split; [done|].
      intros attr Hattr. destruct (Hpre attr Hattr)
        as (by_val & v & Hby & Hv & _).
      exists (bump by_val v). split; [by apply Hupd|].
      intros v' vs Hvals Hv'.
      destruct (Hattrs attr Hattr) as (by_val' & Hby' & Hk).
      assert (by_val' = by_val) as -> by congruence.
      destruct (Hk v' vs Hvals Hv'). split; by apply bump_keys.
    + rewrite lookup_insert_ne by done. by apply (Hkeys t gvs').
  - intros t attr v Hattr. unfold N.
    destruct (decide (t = gv)) as [->|Hne].
    + rewrite lookup_insert_eq, HNgv.
      destruct (Hpre attr Hattr) as (by_val & val & Hby & Hval & Hvn & _).
      rewrite (Hupd attr by_val val Hattr Hby Hval), Hby.
      fold (read (bump by_val val) v). fold (read by_val v).
      rewrite read_bump by done. f_equal.
      destruct (decide (v = VNone ∨ v = val)) as [Hd|Hd].
      * rewrite decide_True; [done|]. split; [done|].
        destruct Hd as [->| ->]; [by left|by right].
      * rewrite decide_False; [done|]. intros [_ [?|?]]; apply Hd;
          [by left|right; congruence].
    + rewrite lookup_insert_ne by done.
      rewrite decide_False; [lia|]. intros [? _]. congruence.
Qed.

Lemma count_loop (l : list Row) :
  ∀ tbl : gmap Value (gmap nat (gmap Value nat)),
    has_keys d tbl → (∀ e, e ∈ l → valid_row d e) →
    ∃ tbl',
      foldR (count_example d) tbl l = inr tbl'
      ∧ ∀ t attr v, attr ∈ inputs d →
          N tbl' t attr v = N tbl t attr v + tally d t attr v l.
Proof.
  induction l as [|e l IH]; intros tbl Hkeys Hvalid.
  { exists tbl. split; [done|]. intros. unfold tally. simpl. lia. }
  destruct (count_example_spec tbl e Hkeys) as (tbl1 & Hrun & Hkeys1 & HN1).
  { apply Hvalid. left. }
  destruct (IH tbl1 Hkeys1) as (tbl' & Hrun' & HN').
  { intros e' He'. apply Hvalid. by right. }
  exists tbl'. split.
  - cbn [foldR]. by rewrite Hrun.
  - intros t attr v Hattr. rewrite HN', HN1 by done.
    unfold tally. rewrite filter_cons. case_decide; simpl; lia.
Qed.

Lemma init_N_spec :
  ∃ tbl0, init_N d = inr tbl0 ∧ has_keys d tbl0
          ∧ ∀ t attr v, N tbl0 t attr v = 0.
Proof.
  destruct Hready as ((gvs & Hgvs & _) & _ & Hvs & _).
  assert (Hg : init_gv d
               = inr (foldl (fun m attr =>
                        <[attr := zeroed (default [] (values d !! attr))]> m)
                        ∅ (inputs d))).
  { unfold init_gv. apply init_gv_loop. intros attr Hattr.
    destruct (Hvs attr Hattr) as (vs & ? & ? & _). by exists vs. }
  eexists. split_and!.
  - unfold init_N. rewrite (getitem_Some _ _ _ Hgvs). cbn [bindR].
    by apply init_N_loop.
  - intros t gvs' Hgvs' Ht. assert (gvs' = gvs) as -> by congruence.
    eexists. split.
    { rewrite const_fill_lookup. by rewrite decide_True. }
    intros attr Hattr. eexists. split.
    { rewrite zeroed_inputs_lookup. by rewrite decide_True. }
    intros v vs Hvals Hv. rewrite Hvals. simpl.
    destruct (zeroed_spec vs ∅) as (_ & H2 & H3). split.
    + unfold zeroed. by rewrite H2.
    + unfold zeroed. rewrite H3; [done|]. intros ->.
      by apply elem_of_nil in Hv.
  - intros t attr v. unfold N. rewrite const_fill_lookup.
    case_decide; [|by rewrite lookup_empty].
    rewrite zeroed_inputs_lookup.
    case_decide; [|by rewrite lookup_empty].
    apply zeroed_read.
Qed.

Lemma count_table_spec :
  ∃ tbl, count_table d = inr tbl
         ∧ ∀ t attr v, attr ∈ inputs d →
             N tbl t attr v = tally d t attr v (examples d).
Proof.
  destruct init_N_spec as (tbl0 & Hinit & Hkeys & Hzero).
  destruct (count_loop (examples d) tbl0 Hkeys) as (tbl & Hrun & HN).
  { by destruct Hready as (_ & _ & _ & ?). }
  exists tbl. split.
  - unfold count_table. by rewrite Hinit.
  - intros t attr v Hattr. by rewrite HN, Hzero.
Qed.
End Counting.

(* ================================================================== *)
(** ** [argmin] and [argmax] *)

Lemma Qlt_bool_true (x y : Q) : Qlt_bool x y = true → (x < y)%Q.
Proof.
  unfold Qlt_bool. intros H. apply negb_true_iff in H.
  apply Qnot_le_lt. intros Hle. apply Qle_bool_iff in Hle. congruence.
Qed.

Lemma Qlt_bool_false (x y : Q) : Qlt_bool x y = false → (y <= x)%Q.
Proof.
  unfold Qlt_bool. intros H. apply negb_false_iff in H.
  by apply Qle_bool_iff.
Qed.

Lemma mapR_total {A B} (f : A → Res B) (l : list A) :
  (∀ x, x ∈ l → ∃ y, f x = inr y) → ∃ ys, mapR f l = inr ys.
Proof.
  induction l as [|x l IH]; intros H; [by exists []|].
  destruct (H x) as [y Hy]; [left|].
  destruct IH as [ys Hys]; [intros x' Hx'; apply H; by right|].
  exists (y :: ys). simpl. by rewrite Hy, Hys.
Qed.

Section Argmin.
Context {A : Type} (fn : A → Res Q).

Lemma argmin_loop (l : list A) :
  ∀ best bs st,
    foldR (fun '(best, best_score) x =>
             letR x_score := fn x in
             inr (if Qlt_bool x_score best_score
                  then (x, x_score) else (best, best_score)))
          (best, bs) l = inr st →
    fn best = inr bs →
    (fst st = best ∨ fst st ∈ l)
    ∧ fn (fst st) = inr (snd st)
    ∧ (snd st <= bs)%Q
    ∧ ∀ y, y ∈ l → ∃ sy, fn y = inr sy ∧ (snd st <= sy)%Q.
Proof.
  induction l as [|x l IH]; intros best bs st.
  { intros [= <-] Hb. simpl. split_and!; [by left|done|apply Qle_refl|].
    intros y Hy. by apply elem_of_nil in Hy. }
  cbn [foldR]. destruct (fn x) as [err|sx] eqn:Hx; [done|]. cbn [bindR].
  destruct (Qlt_bool sx bs) eqn:Hlt; intros Hrun Hb.
  - apply Qlt_bool_true in Hlt.
    destruct (IH _ _ _ Hrun Hx) as (Hin & Hfn & Hle & Hall).
    split_and!; [|done|lra|].
    + right. destruct Hin as [->|Hin]; [left|by right].
    + intros y [->|Hy]%elem_of_cons; [by exists sx|by apply Hall].
  - apply Qlt_bool_false in Hlt.
    destruct (IH _ _ _ Hrun Hb) as (Hin & Hfn & Hle & Hall).
    split_and!; [|done..|].
    + destruct Hin as [->|Hin]; [by left|right; by right].
    + intros y [->|Hy]%elem_of_cons; [|by apply Hall].
      exists sx. split; [done|lra].
Qed.

Lemma argmin_spec (seq : list A) (x : A) :
  argmin seq fn = inr x →
  x ∈ seq
  ∧ ∃ sx, fn x = inr sx
          ∧ ∀ y, y ∈ seq → ∃ sy, fn y = inr sy ∧ (sx <= sy)%Q.
Proof.
  unfold argmin. destruct seq as [|x0 seq]; [done|].
  change (getitem (x0 :: seq) 0) with (inr (B := A) (A := Exn) x0).
  cbn [bindR]. destruct (fn x0) as [err|s0] eqn:H0; [done|]. cbn [bindR].
  match goal with |- context [foldR ?f ?s ?l] =>
    destruct (foldR f s l) as [err|st] eqn:Hrun end; [done|].
  cbn [bindR]. intros [= <-].
  destruct (argmin_loop _ _ _ _ Hrun H0) as (Hin & Hfn & _ & Hall).
  split; [destruct Hin as [->|Hin]; [left|done]|].
  by exists (snd st).
Qed.

Lemma argmin_returns (seq : list A) :
  seq ≠ [] → (∀ y, y ∈ seq → ∃ s, fn y = inr s) →
  ∃ x, argmin seq fn = inr x.
Proof.
  intros Hne Hfn. unfold argmin. destruct seq as [|x0 seq]; [done|].
  change (getitem (x0 :: seq) 0) with (inr (B := A) (A := Exn) x0).
  cbn [bindR]. destruct (Hfn x0) as [s0 H0]; [left|]. rewrite H0.
  cbn [bindR].
  assert (Hloop : ∀ l st, (∀ y, y ∈ l → ∃ s, fn y = inr s) →
            ∃ st', foldR (fun '(best, best_score) x =>
                            letR x_score := fn x in
                            inr (if Qlt_bool x_score best_score
                                 then (x, x_score) else (best, best_score)))
                         st l = inr st').
  { induction l as [|x l IH]; intros st Hl; [by exists st|].
    destruct st as [b bs]. cbn [foldR].
    destruct (Hl x) as [sx Hx]; [left|]. rewrite Hx. cbn [bindR].
    apply IH. intros y Hy. apply Hl. by right. }
  destruct (Hloop (x0 :: seq) (x0, s0) Hfn) as [st' Hst'].
  rewrite Hst'. by eexists.
Qed.
End Argmin.

Lemma argmax_spec {A} (fn : A → Res Q) (seq : list A) (x : A) :
  argmax seq fn = inr x →
  x ∈ seq
  ∧ ∃ sx, fn x = inr sx
          ∧ ∀ y, y ∈ seq → ∃ sy, fn y = inr sy ∧ (sy <= sx)%Q.
Proof.
  unfold argmax. intros H. apply argmin_spec in H as (Hin & sx' & Hx & Hall).
  split; [done|]. destruct (fn x) as [err|sx] eqn:Hfx; [done|].
  exists sx. split; [done|]. intros y Hy.
  destruct (Hall y Hy) as (sy' & Hy' & Hle).
  destruct (fn y) as [err|sy]; [done|]. exists sy. split; [done|].
  simpl in Hx, Hy'. simplify_eq. lra.
Qed.

Lemma argmax_returns {A} (fn : A → Res Q) (seq : list A) :
  seq ≠ [] → (∀ y, y ∈ seq → ∃ s, fn y = inr s) →
  ∃ x, argmax seq fn = inr x.
Proof.
  intros Hne Hfn. apply argmin_returns; [done|]. intros y Hy.
  destruct (Hfn y Hy) as [s Hs]. rewrite Hs. by eexists.
Qed.

(* ================================================================== *)
(** ** The estimates and the prediction of [NaiveBayesLearner] *)

Lemma tally_None (d : DataSet) (t : Value) (attr : nat) (l : list Row) :
  tally d t attr VNone l = rows_with d t l.
Proof.
  unfold tally, rows_with. f_equal. apply list_filter_iff.
  intros e. split; [by intros [? _]|]. intros ?. split; [done|by left].
Qed.

Lemma tally_value (d : DataSet) (t : Value) (attr : nat) (v : Value)
    (l : list Row) :
  v ≠ VNone → tally d t attr v l = rows_with_value d t attr v l.
Proof.
  intros Hv. unfold tally, rows_with_value. f_equal. apply list_filter_iff.
  intros e. split.
  - intros [? [?|?]]; done.
  - intros [? ?]. split; [done|by right].
Qed.

Section Bayes.
Variable d : DataSet.
Hypothesis Hready : bayes_ready d.
Variable tbl : gmap Value (gmap nat (gmap Value nat)).
Hypothesis Htbl : ∀ t attr v, attr ∈ inputs d →
                    N tbl t attr v = tally d t attr v (examples d).


Lemma P_returns (t : Value) (attr : nat) (v : Value) :
  attr ∈ inputs d → ∃ p, P d tbl t attr v = inr p.
Proof.
  intros Hattr. unfold P.
  destruct Hready as (_ & _ & Hvs & _).
  destruct (Hvs attr Hattr) as (vs & Hvals & _ & Hne).
  rewrite (getitem_Some _ _ _ Hvals). cbn [bindR].
  rewrite decide_False; [by eexists|]. destruct vs; [done|simpl; lia].
Qed.

Lemma class_probability_returns (example : Row) (t : Value) :
  (∀ attr, attr ∈ inputs d → is_Some (example !! attr)) →
  ∃ p, class_probability d tbl example t = inr p.
Proof.
  intros Hex. unfold class_probability.
  destruct (mapR_total
              (fun a => letR v := getitem example a in P d tbl t a v)
              (inputs d)) as [ps Hps].
  - intros a Ha. destruct (Hex a Ha) as [v Hv].
    rewrite (getitem_Some _ _ _ Hv). cbn [bindR]. by apply P_returns.
  - rewrite Hps. by eexists.
Qed.

Lemma predict_maximises (example : Row) (w : World) :
  dataset w = d →
  (∀ attr, attr ∈ inputs d → is_Some (example !! attr)) →
  ∃ t p gvs,
    NaiveBayes_predict tbl example w = (w, inr t)
    ∧ values d !! (target d) = Some gvs ∧ t ∈ gvs
    ∧ class_probability d tbl example t = inr p
    ∧ ∀ t', t' ∈ gvs →
        ∃ p', class_probability d tbl example t' = inr p' ∧ (p' <= p)%Q.
Proof.
  intros Hd Hex. destruct Hready as ((gvs & Hgvs & Hne) & _).
  destruct (argmax_returns (class_probability d tbl example) gvs Hne)
    as [t Ht].
  { intros t _. by apply class_probability_returns. }
  destruct (argmax_spec _ _ _ Ht) as (Hin & p & Hp & Hmax).
  exists t, p, gvs. split_and!; [|done..].
  unfold NaiveBayes_predict, bind, get_dataset, liftR. rewrite Hd.
  rewrite (getitem_Some _ _ _ Hgvs). by rewrite Ht.
Qed.
End Bayes.


Lemma ab_dataset_constructed :
  DataSet_init ab_rows None None (AttrNum (-1)) None None [] = inr ab_dataset.
Proof. by vm_compute. Qed.

Lemma ab_dataset_ready : bayes_ready ab_dataset.
Proof.
  split_and!.
  - by exists [VStr "yes"; VStr "no"].
  - apply (bool_decide_unpack _). by vm_compute.
  - intros attr Hattr. apply list_elem_of_singleton in Hattr as ->.
    exists [VStr "A"; VStr "B"]. split_and!; [done| |done].
    apply (bool_decide_unpack _). by vm_compute.
  - intros e He. split.
    + assert (HF : Forall (fun e : Row =>
                     ∃ t, e !! 1 = Some t ∧ t ∈ [VStr "yes"; VStr "no"]) ab_rows).
      { unfold ab_rows. simpl. repeat constructor; eexists; (split; [reflexivity|]);
          apply (bool_decide_unpack _); by vm_compute. }
      rewrite Forall_forall in HF. destruct (HF e He) as (t & Ht & Hin).
      by exists t, [VStr "yes"; VStr "no"].
    + intros attr Hattr. apply list_elem_of_singleton in Hattr as ->.
      assert (HF : Forall (fun e : Row =>
                     ∃ v, e !! 0 = Some v ∧ v ∈ [VStr "A"; VStr "B"]) ab_rows).
      { unfold ab_rows. simpl. repeat constructor; eexists; (split; [reflexivity|]);
          apply (bool_decide_unpack _); by vm_compute. }
      rewrite Forall_forall in HF. destruct (HF e He) as (v & Hv & Hin).
      by exists v, [VStr "A"; VStr "B"].
Qed.


(* ================================================================== *)
(** ** Loops in [Res] over rows that have the column *)

Lemma mapR_inr {A B} (f : A → Res B) (g : A → B) (l : list A) :
  (∀ x, x ∈ l → f x = inr (g x)) → mapR f l = inr (map g l).
Proof.
  induction l as [|x l IH]; intros H; [done|]. simpl.
  rewrite H by left. cbn [bindR]. rewrite IH; [done|].
  intros y Hy. apply H. by right.
Qed.

Lemma foldR_total {A S} (f : S → A → Res S) (l : list A) :
  (∀ s x, x ∈ l → ∃ s', f s x = inr s') →
  ∀ s, ∃ s', foldR f s l = inr s'.
Proof.
  induction l as [|x l IH]; intros H s; [by exists s|].
  destruct (H s x) as [s1 Hs1]; [left|]. simpl. rewrite Hs1. cbn [bindR].
  apply IH. intros s' y Hy. apply H. by right.
Qed.

Lemma filterR_filter {A} (p : A → Res bool) (Q : A → Prop)
    `{!∀ x, Decision (Q x)} (l : list A) :
  (∀ x, x ∈ l → p x = inr (bool_decide (Q x))) →
  filterR p l = inr (filter Q l).
Proof.
  induction l as [|x l IH]; intros Hp; [done|]. simpl.
  rewrite Hp by left. cbn [bindR].
  rewrite IH by (intros y Hy; apply Hp; by right).
  cbn [bindR]. rewrite filter_cons. by case_bool_decide; case_decide.
Qed.

Lemma allR_Forall {A} (p : A → Res bool) (Q : A → Prop)
    `{!∀ x, Decision (Q x)} (l : list A) :
  (∀ x, x ∈ l → p x = inr (bool_decide (Q x))) →
  allR p l = inr (bool_decide (Forall Q l)).
Proof.
  induction l as [|x l IH]; intros Hp.
  { reflexivity. }
  cbn [allR]. rewrite Hp by left. cbn [bindR].
  destruct (decide (Q x)) as [Hx|Hx].
  - rewrite (bool_decide_eq_true_2 _ Hx).
    rewrite IH by (intros y Hy; apply Hp; by right). f_equal.
    apply bool_decide_ext. split; [by constructor|by inversion 1].
  - rewrite (bool_decide_eq_false_2 _ Hx). f_equal. symmetry.
    apply bool_decide_eq_false_2. by inversion 1.
Qed.

Lemma column_test (e : Row) (a : nat) (v : Value) :
  is_Some (e !! a) →
  (letR x := getitem e a in inr (bool_decide (x = v)))
  = inr (bool_decide (e !! a = Some v)).
Proof.
  intros [x Hx]. rewrite (getitem_Some _ _ _ Hx), Hx. cbn [bindR]. f_equal.
  apply bool_decide_ext. naive_solver.
Qed.

Section TreeLearning.
Variable fl : Floats.
Variable d : DataSet.

Lemma rows_at_column (a : nat) (v : Value) (l : list Row) (b : nat) :
  has_column b l → has_column b (rows_at a v l).
Proof.
  intros H e He. apply H. unfold rows_at in He.
  by apply list_elem_of_filter in He as [_ ?].
Qed.

Lemma count_column (a : nat) (v : Value) (l : list Row) :
  has_column a l → count a v l = inr (length (rows_at a v l)).
Proof.
  intros H. unfold count, count_if.
  rewrite (filterR_filter _ (fun e : Row => e !! a = Some v)); [done|].
  intros e He. by apply column_test, H.
Qed.

Lemma split_by_column (a : nat) (vals : list Value) (l : list Row) :
  values d !! a = Some vals → has_column a l →
  split_by d a l = inr (map (fun v => (v, rows_at a v l)) vals).
Proof.
  intros Hv H. unfold split_by. rewrite (getitem_Some _ _ _ Hv). cbn [bindR].
  apply mapR_inr. intros v _.
  rewrite (filterR_filter _ (fun e : Row => e !! a = Some v)); [done|].
  intros e He. by apply column_test, H.
Qed.

Lemma all_same_class_column (e0 : Row) (l : list Row) (c : Value) :
  has_column (target d) (e0 :: l) → e0 !! (target d) = Some c →
  all_same_class d (e0 :: l)
  = inr (bool_decide (Forall (fun e : Row => e !! (target d) = Some c)
                             (e0 :: l))).
Proof.
  intros H Hc. unfold all_same_class.
  change (getitem (e0 :: l) 0) with (inr (A := Exn) e0). cbn [bindR].
  rewrite (getitem_Some _ _ _ Hc). cbn [bindR].
  apply allR_Forall. intros e He. by apply column_test, H.
Qed.

Lemma I_returns (l : list Row) :
  is_Some (values d !! (target d)) → has_column (target d) l →
  ∃ q, I fl d l = inr q.
Proof.
  intros [gvs Hg] H. unfold I. rewrite (getitem_Some _ _ _ Hg). cbn [bindR].
  rewrite (mapR_inr _ (fun v => length (rows_at (target d) v l))).
  - by eexists.
  - intros v _. by apply count_column.
Qed.

Lemma information_gain_returns (a : nat) (l : list Row) :
  l ≠ [] → is_Some (values d !! a) → is_Some (values d !! (target d)) →
  has_column a l → has_column (target d) l →
  ∃ q, information_gain fl d a l = inr q.
Proof.
  intros Hne [vals Hv] Hg Ha Ht. unfold information_gain.
  rewrite (split_by_column _ _ _ Hv Ha). cbn [bindR].
  match goal with |- context [foldR ?f0 ?s0 ?p0] =>
    assert (Hfold : ∃ r, foldR f0 s0 p0 = inr r) end.
  { apply foldR_total. intros r [v exs] Hin.
    apply list_elem_of_fmap in Hin as (v' & [= -> ->] & _).
    rewrite decide_False by (by destruct l).
    destruct (I_returns (rows_at a v' l) Hg) as [q Hq].
    { by apply rows_at_column. }
    rewrite Hq. by eexists. }
  destruct Hfold as [r Hr]. rewrite Hr. cbn [bindR].
  destruct (I_returns l Hg Ht) as [q Hq]. rewrite Hq. by eexists.
Qed.
End TreeLearning.

(* ================================================================== *)
(** ** Random tie-breaking picks an item of the sequence *)

Lemma argmin_random_tie_loop {A T} (ord : Ord T) (fn : A → Res T)
    (l : list A) :
  (∀ y, y ∈ l → ∃ s, fn y = inr s) →
  ∀ st w,
    ∃ w' st',
      foldM (fun '(best, best_score, n) x =>
               letM x_score := liftR (fn x) in
               if less ord x_score best_score
               then ret (x, x_score, 1)
               else if same ord x_score best_score
               then letM r := randrange (S n) in
                    ret (if r =? 0 then x else best, best_score, S n)
               else ret (best, best_score, n))
            st l w = (w', inr st')
      ∧ (fst (fst st') = fst (fst st) ∨ fst (fst st') ∈ l)
      ∧ dataset w' = dataset w.
Proof.
  induction l as [|x l IH]; intros Hfn st w.
  { exists w, st. split_and!; [done|by left|done]. }
  match goal with |- context [foldM ?f _ _ _] => set (step := f) in * end.
  destruct st as [[b bs] n].
  assert (Hstep : ∃ w1 st1, step (b, bs, n) x w = (w1, inr st1)
                    ∧ (fst (fst st1) = b ∨ fst (fst st1) = x)
                    ∧ dataset w1 = dataset w).
  { destruct (Hfn x) as [sx Hx]; [left|].
    unfold step, bind, liftR. rewrite Hx.
    destruct (less ord sx bs); [|destruct (same ord sx bs)];
      unfold ret, randrange; eexists _, _;
      (split_and!; [reflexivity| |reflexivity]); simpl; auto.
    destruct (_ =? 0); auto. }
  destruct Hstep as (w1 & st1 & Hrun1 & Hb1 & Hd1).
  destruct (IH (fun y Hy => Hfn y (list_elem_of_further _ _ _ Hy)) st1 w1)
    as (w' & st' & Hrun & Hb & Hd).
  exists w', st'. split_and!.
  - cbn [foldM]. by rewrite (bind_inr _ _ _ _ _ Hrun1).
  - simpl. destruct Hb as [->|Hb]; [|right; by right].
    destruct Hb1 as [->| ->]; [by left|right; left].
  - congruence.
Qed.

Lemma argmin_random_tie_returns {A T} (ord : Ord T) (fn : A → Res T)
    (seq : list A) (w : World) :
  seq ≠ [] → (∀ y, y ∈ seq → ∃ s, fn y = inr s) →
  ∃ w' x, argmin_random_tie ord seq fn w = (w', inr x)
          ∧ x ∈ seq ∧ dataset w' = dataset w.
Proof.
  intros Hne Hfn. destruct seq as [|x0 seq]; [done|].
  destruct (Hfn x0) as [s0 H0]; [left|].
  unfold argmin_random_tie.
  change (getitem (x0 :: seq) 0) with (inr (A := Exn) x0).
  unfold bind at 1. unfold liftR at 1. unfold bind at 1. unfold liftR at 1.
  rewrite H0.
  destruct (argmin_random_tie_loop ord fn (x0 :: seq) Hfn (x0, s0, 0) w)
    as (w' & st' & Hrun & Hb & Hd).
  exists w', (fst (fst st')). split_and!; [|by destruct Hb as [->|?]; [left|]|done].
  by rewrite (bind_inr _ _ _ _ _ Hrun).
Qed.

Lemma argmax_random_tie_returns {A T} (ord : Ord T) (fn : A → Res T)
    (seq : list A) (w : World) :
  seq ≠ [] → (∀ y, y ∈ seq → ∃ s, fn y = inr s) →
  ∃ w' x, argmax_random_tie ord seq fn w = (w', inr x)
          ∧ x ∈ seq ∧ dataset w' = dataset w.
Proof.
  intros Hne Hfn. apply argmin_random_tie_returns; [done|].
  intros y Hy. destruct (Hfn y Hy) as [s Hs]. rewrite Hs. by eexists.
Qed.

Section TreeChoices.
Variable fl : Floats.
Variable d : DataSet.

Lemma plurality_value_returns (l : list Row) (w : World) :
  (∃ gvs, values d !! (target d) = Some gvs ∧ gvs ≠ []) →
  has_column (target d) l →
  ∃ w' v, plurality_value d l w = (w', inr (DecisionLeaf v))
          ∧ dataset w' = dataset w.
Proof.
  intros (gvs & Hg & Hne) Hcol. unfold plurality_value.
  rewrite (bind_liftR_inr _ _ _ _ (getitem_Some _ _ _ Hg)).
  match goal with |- context [argmax_random_tie ?o gvs ?f] =>
    destruct (argmax_random_tie_returns o f gvs w Hne)
      as (w' & v & Hrun & _ & Hd)
  end.
  { intros v _. rewrite (count_column _ _ _ Hcol). by eexists. }
  exists w', v. split; [|done]. by rewrite (bind_inr _ _ _ _ _ Hrun).
Qed.

Lemma choose_attribute_returns (attrs : list nat) (l : list Row) (w : World) :
  attrs ≠ [] → l ≠ [] →
  is_Some (values d !! (target d)) → has_column (target d) l →
  (∀ a, a ∈ attrs → is_Some (values d !! a) ∧ has_column a l) →
  ∃ w' A, choose_attribute fl d attrs l w = (w', inr A)
          ∧ A ∈ attrs ∧ dataset w' = dataset w.
Proof.
  intros Hne Hl Hg Hcol Hattrs. unfold choose_attribute.
  apply argmax_random_tie_returns; [done|]. intros a Ha.
  destruct (Hattrs a Ha) as [Hv Hc].
  by apply information_gain_returns.
Qed.
End TreeChoices.

(* ================================================================== *)
(** ** The induction step of [decision_tree_learning] *)

Lemma call_fork (A : nat) (name : Value) (br : gmap Value Tree) (e : Row)
    (v : Value) (sub : Tree) :
  e !! A = Some v → br !! v = Some sub →
  call (DecisionFork A name br) e = call sub e.
Proof.
  intros He Hbr. cbn [call]. rewrite (getitem_Some _ _ _ He). cbn [bindR].
  by rewrite lookup_fmap, Hbr.
Qed.

Lemma grow_fold (rec : list Row → M Tree) (Post : Value → Tree → Prop)
    (A : nat) (name : Value) (parts : list (Value * list Row)) :
  (∀ v exs w, (v, exs) ∈ parts →
     ∃ w' sub, rec exs w = (w', inr sub) ∧ dataset w' = dataset w
               ∧ Post v sub) →
  ∀ br0 w,
    ∃ w' br,
      foldM (grow rec) (DecisionFork A name br0) parts w
      = (w', inr (DecisionFork A name br))
      ∧ dataset w' = dataset w
      ∧ (∀ v, v ∈ parts.*1 → ∃ sub, br !! v = Some sub ∧ Post v sub)
      ∧ (∀ v, v ∉ parts.*1 → br !! v = br0 !! v).
Proof.
  induction parts as [|[v exs] parts IH]; intros Hrec br0 w.
  { exists w, br0. split_and!; [done..| |done]. intros v Hv.
    by apply elem_of_nil in Hv. }
  destruct (Hrec v exs w) as (w1 & sub & Hrun1 & Hd1 & Hpost); [left|].
  destruct (IH (fun v' exs' w' Hin => Hrec v' exs' w' (list_elem_of_further _ _ _ Hin))
               (<[v := sub]> br0) w1) as (w' & br & Hrun & Hd & Hin & Hout).
  exists w', br. split_and!.
  - cbn [foldM]. unfold bind at 1. unfold grow at 1. unfold bind at 1.
    cbn [fst snd]. rewrite Hrun1. unfold ret at 1. cbn [add]. exact Hrun.
  - congruence.
  - intros v' Hv'. destruct (decide (v' ∈ parts.*1)) as [Hp|Hp].
    + by apply Hin.
    + rewrite fmap_cons in Hv'. apply elem_of_cons in Hv' as [->|?]; [|done].
      exists sub. split; [|done]. rewrite (Hout _ Hp).
      by rewrite lookup_insert_eq.
  - intros v' Hv'. rewrite fmap_cons in Hv'.
    apply not_elem_of_cons in Hv' as [Hne Hp]. rewrite (Hout _ Hp).
    by rewrite lookup_insert_ne.
Qed.

Section TreeInduction.
Variable fl : Floats.
Variable d : DataSet.
Hypothesis Hready : tree_ready d.

Lemma valid_rows_target (l : list Row) :
  (∀ e, e ∈ l → valid_row d e) → has_column (target d) l.
Proof.
  intros H e He. destruct (H e He) as [(t & _ & Ht & _) _]. by exists t.
Qed.

Lemma valid_rows_input (l : list Row) (a : nat) :
  (∀ e, e ∈ l → valid_row d e) → a ∈ inputs d → has_column a l.
Proof.
  intros H Ha e He. destruct (H e He) as [_ Hin].
  destruct (Hin a Ha) as (v & _ & Hv & _). by exists v.
Qed.

Lemma rows_at_valid (a : nat) (v : Value) (l : list Row) :
  (∀ e, e ∈ l → valid_row d e) → ∀ e, e ∈ rows_at a v l → valid_row d e.
Proof.
  intros H e He. apply H. unfold rows_at in He.
  by apply list_elem_of_filter in He as [_ ?].
Qed.

(** The fourth case of [decision_tree_learning]: a fork on a chosen
    attribute of [attrs], with a branch for every value in the value
    set of that attribute and no other. *)
Lemma fork_step (Post : nat → Value → Tree → Prop) (depth : nat)
    (examples : list Row) (attrs : list nat) (parent : list Row) (w : World) :
  examples ≠ [] → attrs ≠ [] → attrs ⊆ inputs d →
  (∀ e, e ∈ examples → valid_row d e) →
  all_same_class d examples = inr false →
  (∀ A vals v w1, A ∈ attrs → values d !! A = Some vals → v ∈ vals →
     ∃ w2 sub,
       decision_tree_learning fl d depth (rows_at A v examples)
                              (removeall A attrs) examples w1 = (w2, inr sub)
       ∧ dataset w2 = dataset w1 ∧ Post A v sub) →
  ∃ w' A name vals br,
    decision_tree_learning fl d (S depth) examples attrs parent w
    = (w', inr (DecisionFork A name br))
    ∧ dataset w' = dataset w
    ∧ A ∈ attrs ∧ attrnames d !! A = Some name ∧ values d !! A = Some vals
    ∧ (∀ v, v ∈ vals → ∃ sub, br !! v = Some sub ∧ Post A v sub)
    ∧ (∀ v, v ∉ vals → br !! v = None).
Proof.
  intros Hne Hattrs Hsub Hrows Hmixed Hrec.
  destruct Hready as ((gvs & Hg & Hgne) & Hins & _).
  pose proof (valid_rows_target _ Hrows) as Hcol.
  destruct (choose_attribute_returns fl d attrs examples w)
    as (w1 & A & Hchoose & HA & Hd1); [done|done|by eexists|done| |].
  { intros a Ha. split; [by apply Hins, Hsub|].
    by apply valid_rows_input, Hsub. }
  destruct (Hins A (Hsub A HA)) as [[vals Hvals] [name Hname]].
  pose proof (split_by_column d A vals examples Hvals
                (valid_rows_input _ _ Hrows (Hsub A HA))) as Hsplit.
  destruct (grow_fold
              (fun exs => decision_tree_learning fl d depth exs
                            (removeall A attrs) examples)
              (Post A) A name
              (map (fun v => (v, rows_at A v examples)) vals))
    with (br0 := (∅ : gmap Value Tree)) (w := w1)
    as (w' & br & Hrun & Hd & Hin & Hout).
  { intros v exs w0 Hpart.
    apply list_elem_of_fmap in Hpart as (v' & [= -> ->] & Hv').
    by apply (Hrec A vals). }
  assert (Hkeys : (map (fun v => (v, rows_at A v examples)) vals).*1 = vals).
  { rewrite <- list_fmap_compose. apply list_fmap_id. }
  rewrite Hkeys in Hin, Hout.
  exists w', A, name, vals, br. split_and!; [|congruence|done..|].
  - cbn [decision_tree_learning].
    rewrite decide_False by (by destruct examples).
    rewrite (bind_liftR_inr _ _ _ _ Hmixed).
    rewrite decide_False by (by destruct attrs).
    rewrite (bind_inr _ _ _ _ _ Hchoose).
    rewrite (bind_liftR_inr _ _ _ _ (getitem_Some _ _ _ Hname)).
    rewrite (bind_liftR_inr _ _ _ _ Hsplit). exact Hrun.
  - intros v Hv. by rewrite (Hout v Hv), lookup_empty.
Qed.
End TreeInduction.

Section TreeCorrect.
Variable fl : Floats.
Variable d : DataSet.
Hypothesis Hready : tree_ready d.

Lemma removeall_shorter (A : nat) (attrs : list nat) :
  A ∈ attrs → length (removeall A attrs) < length attrs.
Proof.
  intros HA. unfold removeall. apply (length_filter_lt _ _ A); [done|].
  intros Hne. by apply Hne.
Qed.

Lemma removeall_subseteq (A : nat) (attrs : list nat) :
  removeall A attrs ⊆ attrs.
Proof.
  intros a Ha. unfold removeall in Ha.
  by apply list_elem_of_filter in Ha as [_ ?].
Qed.

Lemma separated_rows_at (A : nat) (v : Value) (attrs : list nat)
    (l : list Row) :
  separated d attrs l → separated d (removeall A attrs) (rows_at A v l).
Proof.
  intros Hsep e1 e2 H1 H2 Hagree. unfold rows_at in H1, H2.
  apply list_elem_of_filter in H1 as [Hv1 H1].
  apply list_elem_of_filter in H2 as [Hv2 H2].
  apply Hsep; [done..|]. intros a Ha.
  destruct (decide (a = A)) as [->|Hne]; [congruence|].
  apply Hagree. unfold removeall. by apply list_elem_of_filter.
Qed.

Lemma learning_returns (depth : nat) :
  ∀ (examples : list Row) (attrs : list nat) (parent : list Row) (w : World),
    length attrs < depth → attrs ⊆ inputs d →
    (∀ e, e ∈ examples → valid_row d e) →
    (∀ e, e ∈ parent → valid_row d e) →
    ∃ w' tree,
      decision_tree_learning fl d depth examples attrs parent w
      = (w', inr tree)
      ∧ dataset w' = dataset w
      ∧ classifies d attrs examples tree
      ∧ answers d tree.
Proof.
  induction depth as [|depth IH]; intros examples attrs parent w Hlen Hsub
    Hrows Hparent; [lia|].
  pose proof Hready as (Hgvs & Hins & _).
  destruct examples as [|e0 l].
  { destruct (plurality_value_returns d parent w Hgvs)
      as (w' & v & Hrun & Hd); [by apply valid_rows_target|].
    exists w', (DecisionLeaf v). split_and!; [done..| |].
    - intros _ e e' He. by apply elem_of_nil in He.
    - intros e _. by exists v. }
  pose proof (valid_rows_target d _ Hrows) as Hcol.
  destruct (Hcol e0) as [c Hc]; [left|].
  pose proof (all_same_class_column d e0 l c Hcol Hc) as Hsame.
  destruct (decide (Forall (fun e : Row => e !! (target d) = Some c) (e0 :: l)))
    as [Hall|Hmixed].
  - rewrite bool_decide_eq_true_2 in Hsame by done.
    exists w, (DecisionLeaf c). split_and!; [|done| |].
    + cbn [decision_tree_learning]. rewrite decide_False by done.
      rewrite (bind_liftR_inr _ _ _ _ Hsame).
      change (getitem (e0 :: l) 0) with (inr (A := Exn) e0).
      rewrite (bind_liftR_inr _ _ _ e0 eq_refl).
      by rewrite (bind_liftR_inr _ _ _ _ (getitem_Some _ _ _ Hc)).
    + intros _ e e' He _. rewrite Forall_forall in Hall.
      exists c. split; [by apply Hall|done].
    + intros e _. by exists c.
  - rewrite bool_decide_eq_false_2 in Hsame by done.
    destruct attrs as [|a0 attrs'].
    + destruct (plurality_value_returns d (e0 :: l) w Hgvs Hcol)
        as (w' & v & Hrun & Hd).
      exists w', (DecisionLeaf v). split_and!; [|done| |].
      * cbn [decision_tree_learning]. rewrite decide_False by done.
        by rewrite (bind_liftR_inr _ _ _ _ Hsame).
      * intros Hsep. destruct Hmixed. apply Forall_forall. intros e He.
        rewrite <- Hc. apply Hsep; [done|left|].
        intros a Ha. by apply elem_of_nil in Ha.
      * intros e _. by exists v.
    + set (attrs := a0 :: attrs') in *.
      destruct (fork_step fl d Hready
                  (fun A v sub =>
                     classifies d (removeall A attrs) (rows_at A v (e0 :: l)) sub
                     ∧ answers d sub)
                  depth (e0 :: l) attrs parent w)
        as (w' & A & name & vals & br & Hrun & Hd & HA & Hname & Hvals
            & Hin & Hout); [done|done|done|done|done| |].
      { intros A vals v w1 HA Hvals Hv.
        apply IH.
        - pose proof (removeall_shorter A attrs HA). lia.
        - etrans; [apply removeall_subseteq|done].
        - by apply rows_at_valid.
        - done. }
      exists w', (DecisionFork A name br). split_and!; [done..| |].
      * intros Hsep e e' He Hagree.
        destruct (Hrows e He) as [_ Hrow].
        destruct (Hrow A (Hsub A HA)) as (v & vs & Hv & Hvs & Hvin).
        assert (vs = vals) as -> by congruence.
        destruct (Hin v Hvin) as (sub & Hbr & Hpost & _).
        destruct (Hpost (separated_rows_at A v attrs _ Hsep) e e')
          as (c' & Hc' & Hcall).
        -- unfold rows_at. by apply list_elem_of_filter.
        -- intros a Ha. apply Hagree. by apply removeall_subseteq in Ha.
        -- exists c'. split; [done|].
           rewrite (call_fork A name br e' v sub); [done| |done].
           by rewrite (Hagree A HA).
      * intros e He.
        destruct (He A (Hsub A HA)) as (v & vs & Hv & Hvs & Hvin).
        assert (vs = vals) as -> by congruence.
        destruct (Hin v Hvin) as (sub & Hbr & _ & Hans).
        destruct (Hans e He) as [c' Hcall]. exists c'.
        by rewrite (call_fork A name br e v sub).
Qed.
End TreeCorrect.

(* ================================================================== *)
(** ** The bound on the nesting of calls is never met *)

Lemma bind_ext_on {A B} (c : M A) (k1 k2 : A → M B) (w : World) :
  (∀ w' a, c w = (w', inr a) → k1 a w' = k2 a w') →
  bind c k1 w = bind c k2 w.
Proof.
  intros Hk. unfold bind. destruct (c w) as [w' [e|a]]; [done|].
  by apply Hk.
Qed.

Lemma foldM_ext {A S} (f g : S → A → M S) (l : list A) :
  (∀ s x w, x ∈ l → f s x w = g s x w) →
  ∀ s w, foldM f s l w = foldM g s l w.
Proof.
  induction l as [|x l IH]; intros Hfg s w; [done|].
  cbn [foldM]. unfold bind. rewrite (Hfg s x w) by left.
  destruct (g s x w) as [w' [e|s']]; [done|]. apply IH.
  intros s0 y w0 Hy. apply Hfg. by right.
Qed.

Lemma argmin_random_tie_loop_member {A T} (ord : Ord T) (fn : A → Res T)
    (l : list A) :
  ∀ st w w' st',
    foldM (fun '(best, best_score, n) x =>
             letM x_score := liftR (fn x) in
             if less ord x_score best_score
             then ret (x, x_score, 1)
             else if same ord x_score best_score
             then letM r := randrange (S n) in
                  ret (if r =? 0 then x else best, best_score, S n)
             else ret (best, best_score, n))
          st l w = (w', inr st') →
    fst (fst st') = fst (fst st) ∨ fst (fst st') ∈ l.
Proof.
  induction l as [|x l IH]; intros st w w' st'.
  { intros [= <- <-]. by left. }
  match goal with |- context [foldM ?f _ _ _] => set (step := f) in * end.
  cbn [foldM]. unfold bind at 1.
  destruct (step st x w) as [w1 [e|st1]] eqn:Hstep; [done|].
  intros Hrun. apply IH in Hrun.
  assert (Hst1 : fst (fst st1) = fst (fst st) ∨ fst (fst st1) = x).
  { destruct st as [[b bs] n]. unfold step, bind, liftR in Hstep.
    destruct (fn x) as [e|sx]; [done|].
    destruct (less ord sx bs); [|destruct (same ord sx bs)];
      unfold ret, randrange in Hstep; injection Hstep as <- <-; simpl; auto.
    destruct (_ =? 0); auto. }
  destruct Hrun as [->|Hin]; [|right; by right].
  destruct Hst1 as [->| ->]; [by left|right; left].
Qed.

Lemma argmax_random_tie_member {A T} (ord : Ord T) (fn : A → Res T)
    (seq : list A) (w w' : World) (x : A) :
  argmax_random_tie ord seq fn w = (w', inr x) → x ∈ seq.
Proof.
  unfold argmax_random_tie, argmin_random_tie. destruct seq as [|x0 seq].
  { by unfold bind, liftR. }
  change (getitem (x0 :: seq) 0) with (inr (A := Exn) x0).
  unfold bind at 1. unfold liftR at 1. unfold bind at 1. unfold liftR at 1.
  match goal with |- context [bindR ?r _] => destruct r as [e|s0] end;
    [done|]. cbn [bindR]. unfold bind at 1.
  match goal with |- context [foldM ?f ?s ?l ?w0] =>
    destruct (foldM f s l w0) as [w1 [e|st]] eqn:Hrun end; [done|].
  unfold ret. intros [= <- <-].
  apply argmin_random_tie_loop_member in Hrun as [->|Hin]; [left|done].
Qed.

(** With more nesting allowed than [attrs] has attributes, the result
    does not depend on the bound. *)
Lemma depth_irrelevant (fl : Floats) (d : DataSet) (depth1 : nat) :
  ∀ (depth2 : nat) (examples : list Row) (attrs : list nat)
    (parent : list Row) (w : World),
    length attrs < depth1 → length attrs < depth2 →
    decision_tree_learning fl d depth1 examples attrs parent w
    = decision_tree_learning fl d depth2 examples attrs parent w.
Proof.
  induction depth1 as [|depth1 IH]; intros depth2 examples attrs parent w
    H1 H2; [lia|].
  destruct depth2 as [|depth2]; [lia|]. cbn [decision_tree_learning].
  destruct (decide (length examples = 0)); [done|].
  apply bind_ext_on. intros w1 same _. destruct same; [done|].
  destruct (decide (length attrs = 0)); [done|].
  apply bind_ext_on. intros w2 A HA.
  apply argmax_random_tie_member in HA.
  apply bind_ext_on. intros w3 name _.
  apply bind_ext_on. intros w4 parts _.
  apply foldM_ext. intros tree part w5 _. unfold grow.
  assert (Hshort : length (removeall A attrs) < length attrs).
  { unfold removeall. apply (length_filter_lt _ _ A); [done|].
    intros Hne. by apply Hne. }
  unfold bind. by rewrite (IH depth2 _ _ _ w5) by lia.
Qed.

(* ================================================================== *)
(** ** The learned tree on its own training set *)

Lemma sanitize_keeps_inputs (d : DataSet) (e : Row) (a : nat) :
  a ∈ inputs d → sanitize d e !! a = e !! a.
Proof.
  intros Ha. rewrite sanitize_lookup. rewrite bool_decide_eq_true_2 by done.
  by destruct (e !! a).
Qed.



Lemma ab_dataset_tree_ready : tree_ready ab_dataset.
Proof.
  split_and!.
  - by exists [VStr "yes"; VStr "no"].
  - intros attr Hattr. apply list_elem_of_singleton in Hattr as ->.
    split; by eexists.
  - by destruct ab_dataset_ready as (_ & _ & _ & ?).
Qed.




(* ================================================================== *)
(** ** The branches of a fork *)





(* ================================================================== *)
(** ** Data sets that [check_me] accepts are ready for the learners *)

Lemma check_loop_inr (d : DataSet) (example : Row) (l : list nat) (u : unit) :
  foldR (fun _ a => check_attr d example a) tt l = inr u →
  ∀ a, a ∈ l → ∃ v vs, example !! a = Some v ∧ values d !! a = Some vs
                       ∧ v ∈ vs.
Proof.
  induction l as [|a l IH]; intros Hrun b Hb; [by apply elem_of_nil in Hb|].
  cbn [foldR] in Hrun.
  destruct (check_attr d example a) as [err|[]] eqn:Ha; [done|].
  cbn [bindR] in Hrun. apply elem_of_cons in Hb as [->|Hb]; [|by apply IH].
  unfold check_attr in Ha.
  destruct (getitem example a) as [|v] eqn:Hv; [done|].
  destruct (getitem (values d) a) as [|vs] eqn:Hvs; [done|].
  cbn [bindR] in Ha. case_bool_decide as Hin.
  - exists v, vs. split_and!; [by apply getitem_inr..|done].
  - by destruct (getitem (attrnames d) a).
Qed.

Lemma checked_rows (d : DataSet) :
  check_me d = inr tt → populated d = true →
  target d ∈ attrs d ∧ inputs d ⊆ attrs d
  ∧ length (attrnames d) = length (attrs d)
  ∧ ∀ e a, e ∈ examples d → a ∈ attrs d →
      ∃ v vs, e !! a = Some v ∧ values d !! a = Some vs ∧ v ∈ vs.
Proof.
  unfold check_me. intros Hcheck Hpop.
  case_bool_decide as Hlen; [|done]. cbn [negb] in Hcheck.
  case_bool_decide as Htarget; [|done]. cbn [negb] in Hcheck.
  case_bool_decide as Hnotin; [done|].
  case_bool_decide as Hsub; [|done]. cbn [negb] in Hcheck.
  destruct (mapR (check_example d) (examples d)) as [|us] eqn:Hmap; [done|].
  split_and!; [done..|]. intros e a He Ha.
  destruct (mapR_each _ _ _ Hmap e He) as [u Hu].
  unfold check_example in Hu. rewrite Hpop in Hu.
  by apply (check_loop_inr d e (attrs d) u).
Qed.

Lemma checked_tree_ready (d : DataSet) :
  check_me d = inr tt → populated d = true →
  attrs d = seq 0 (length (attrs d)) → examples d ≠ [] →
  tree_ready d.
Proof.
  intros Hcheck Hpop Hrange Hne.
  destruct (checked_rows d Hcheck Hpop) as (Htarget & Hsub & Hlen & Hrows).
  destruct (examples d) as [|e0 l] eqn:Hex; [done|].
  split_and!.
  - destruct (Hrows e0 (target d)) as (t & gvs & _ & Hg & Hin);
      [left|done|].
    exists gvs. split; [done|]. intros ->. by apply elem_of_nil in Hin.
  - intros a Ha. apply Hsub in Ha.
    destruct (Hrows e0 a) as (v & vs & _ & Hvs & _); [left|done|].
    split; [by exists vs|]. apply lookup_lt_is_Some. rewrite Hlen.
    rewrite Hrange in Ha. apply elem_of_seq in Ha. lia.
  - intros e He. rewrite Hex in He. split.
    + destruct (Hrows e (target d) He Htarget) as (t & gvs & ? & ? & ?).
      by exists t, gvs.
    + intros a Ha. apply Hrows; [done|by apply Hsub].
Qed.

(* ================================================================== *)
(** ** The learners of the module are reliable *)

Lemma tree_ready_with_examples (d : DataSet) (l : list Row) :
  tree_ready d → (∀ e, e ∈ l → valid_row d e) →
  tree_ready (with_examples l d).
Proof. intros (Hg & Hins & _) Hl. by split_and!. Qed.

Lemma bayes_ready_with_examples (d : DataSet) (l : list Row) :
  bayes_ready d → (∀ e, e ∈ l → valid_row d e) →
  bayes_ready (with_examples l d).
Proof. intros (Hg & Hnd & Hins & _) Hl. by split_and!. Qed.

Lemma valid_row_sanitized (d : DataSet) (e : Row) :
  valid_row d e →
  ∀ a, a ∈ inputs d →
    ∃ v vs, sanitize d e !! a = Some v ∧ values d !! a = Some vs ∧ v ∈ vs.
Proof.
  intros [_ Hrow] a Ha. destruct (Hrow a Ha) as (v & vs & Hv & Hvs & Hin).
  exists v, vs. by rewrite sanitize_keeps_inputs.
Qed.

Lemma decision_tree_reliable (fl : Floats) (d : DataSet) :
  tree_ready d → reliable (DecisionTreePredictorLearner fl) d.
Proof.
  intros Hready l w Hw Hl.
  pose proof (tree_ready_with_examples d l Hready Hl) as HreadyD.
  destruct (learning_returns fl (with_examples l d) HreadyD
              (S (length (inputs d))) l (inputs d) [] w)
    as (w' & tree & Hrun & Hd & _ & Hans); [simpl; lia|done|done| |].
  { intros e He. by apply elem_of_nil in He. }
  exists w', (tree_predictor tree). split_and!; [|done|].
  - unfold DecisionTreePredictorLearner, DecisionTreeLearner.
    unfold bind at 1. unfold bind at 1. unfold get_dataset at 1.
    rewrite Hw. cbn [examples inputs with_examples]. by rewrite Hrun.
  - intros e w1 He _.
    destruct (Hans (sanitize d e) (valid_row_sanitized d e He)) as [c Hc].
    exists c. unfold tree_predictor, liftR. by rewrite Hc.
Qed.

Lemma naive_bayes_reliable (d : DataSet) :
  bayes_ready d → reliable NaiveBayesLearner d.
Proof.
  intros Hready l w Hw Hl.
  pose proof (bayes_ready_with_examples d l Hready Hl) as HreadyD.
  destruct (count_table_spec (with_examples l d) HreadyD) as (tbl & Hrun & HN).
  exists w, (NaiveBayes_predict tbl). split_and!; [|done|].
  - unfold NaiveBayesLearner, bind, get_dataset, liftR. by rewrite Hw, Hrun.
  - intros e w1 He Hw1.
    destruct (predict_maximises (with_examples l d) HreadyD tbl
                (sanitize d e) w1) as (t & _ & _ & Hp & _).
    + congruence.
    + intros a Ha.
      destruct (valid_row_sanitized d e He a Ha) as (v & _ & Hv & _).
      by exists v.
    + by exists t.
Qed.

(* ================================================================== *)
(** ** Leave-one-out *)

Lemma test_returns (predict : Predictor) (exs : list Row) (D : DataSet)
    (w : World) :
  dataset w = D →
  (∀ e, e ∈ exs → is_Some (e !! (target D))) →
  (∀ e w1, e ∈ exs → dataset w1 = D →
     ∃ v, predict (sanitize D e) w1 = (w1, inr v)) →
  ∃ s, test predict (Some exs) w = (w, inr s).
Proof.
  intros Hw Hcol Hp. unfold test. unfold bind at 1. unfold get_dataset at 1.
  simpl. destruct (decide (length exs = 0)); [by exists 0%Q|].
  unfold bind at 1.
  match goal with |- context [foldM ?f0 ?r0 exs w] =>
    assert (Hloop : ∀ l r w0, l ⊆ exs → dataset w0 = D →
                      ∃ r', foldM f0 r l w0 = (w0, inr r'))
  end.
  { induction l as [|e l IH]; intros r w0 Hl Hw0; [by exists r|].
    destruct (Hcol e) as [desired Hd]; [apply Hl; left|].
    destruct (Hp e w0) as [v Hv]; [apply Hl; left|done|].
    cbn [foldM]. unfold bind at 1. unfold bind at 1. unfold get_dataset at 1.
    unfold bind at 1. unfold liftR at 1. rewrite Hw0.
    rewrite (getitem_Some _ _ _ Hd). unfold bind at 1. rewrite Hv.
    unfold ret at 1. apply IH; [|done].
    intros e' He'. apply Hl. by right. }
  destruct (Hloop exs 0%Q w) as [r Hr]; [done..|].
  rewrite Hr. by eexists.
Qed.

Lemma train_and_test_returns (learner : Learner) (d : DataSet)
    (l : list Row) (start end_ : Z) (w : World) :
  reliable learner d →
  dataset w = with_examples l d → (∀ e, e ∈ l → valid_row d e) →
  ∃ w' s, train_and_test learner start end_ w = (w', inr s)
          ∧ dataset w' = dataset w.
Proof.
  intros Hrel Hw Hl. unfold train_and_test. unfold bind at 1.
  unfold get_dataset at 1. unfold try_finally. unfold bind at 1.
  unfold put_examples at 1. unfold bind at 1.
  rewrite Hw. cbn [examples with_examples].
  set (held := slice l start end_).
  set (rest := slice_to l start ++ slice_from l end_).
  destruct (Hrel rest (set_examples rest w)) as (w1 & predict & Hrun & Hd1 & Hp).
  { unfold set_examples. cbn [dataset]. by rewrite Hw. }
  { intros e He. apply Hl. unfold rest in He.
    apply elem_of_app in He as [He|He].
    - by apply (subseteq_take _ l) in He.
    - by apply (subseteq_drop _ l) in He. }
  rewrite Hrun.
  destruct (test_returns predict held (dataset w1) w1 eq_refl) as [s Hs].
  - intros e He. apply (slice_subseteq l start end_) in He.
    destruct (Hl e He) as [(t & _ & Ht & _) _]. exists t.
    rewrite Hd1. unfold set_examples. cbn [dataset]. by rewrite Hw.
  - intros e w2 He Hw2. apply (slice_subseteq l start end_) in He.
    destruct (Hp e w2 (Hl e He)) as [v Hv]; [congruence|].
    exists v. rewrite <- Hv. f_equal.
    rewrite Hd1. unfold set_examples. cbn [dataset]. by rewrite Hw.
  - rewrite Hs. eexists _, _. split; [reflexivity|].
    unfold set_examples. cbn [dataset]. rewrite Hd1.
    unfold set_examples. cbn [dataset]. by rewrite Hw.
Qed.

Lemma cross_validation_once_returns (learner : Learner) (d : DataSet)
    (k : Z) (w : World) :
  reliable learner d → dataset w = d →
  (∀ e, e ∈ examples d → valid_row d e) → (0 < k)%Z →
  ∃ w' s, cross_validation_once learner k w = (w', inr s).
Proof.
  intros Hrel Hw Hrows Hk.
  destruct (shuffle_Permutation (examples (dataset w)) w)
    as (w1 & y & Hsh & Hperm & Hd).
  unfold cross_validation_once. unfold bind at 1. unfold get_dataset at 1.
  unfold bind at 1. rewrite Hsh. unfold bind at 1. unfold put_examples at 1.
  unfold bind at 1.
  match goal with |- context [mapM ?f ?l ?w0] =>
    destruct (mapM_total (fun w' => dataset w' = with_examples y d) f l)
      with (w := w0) as (w2 & scores & Hm & _)
  end.
  - intros i w' _ Hw'.
    destruct (train_and_test_returns learner d y
                (i * (Z.of_nat (length (examples (dataset w))) / k))
                ((i + 1) * (Z.of_nat (length (examples (dataset w))) / k))
                w' Hrel Hw') as (w'' & s & Hrun & Hd').
    { intros e He. apply Hrows. rewrite <- Hw. by rewrite <- Hperm. }
    exists w'', s. split; [done|congruence].
  - unfold set_examples. cbn [dataset]. by rewrite Hd, Hw.
  - rewrite Hm. unfold liftR.
    pose proof Hm as Hlen.
    apply mapM_results with (Post := fun _ => True) in Hlen as [_ Hlen];
      [|done].
    unfold range in Hlen. rewrite length_fmap, length_seq in Hlen.
    unfold mean. destruct scores as [|s0 scores]; [simpl in Hlen; lia|].
    by eexists _, _.
Qed.

(** C3 (as amended): [leave1out] leaves in [dataset.examples] the order
    that [random.shuffle] gave it, a permutation of the order before the
    call, whatever the learner does; a score it returns lies in
    [[0.0, 1.0]]; and on a data set of at least one row, all rows valid,
    it does return such a score for a reliable learner (as
    [DecisionTreeLearner] and [NaiveBayesLearner] are). *)
Theorem leave1out_shuffled_order (learner : Learner) (w : World) :
  (∃ w1 shuffled,
     shuffle (examples (dataset w)) w = (w1, inr shuffled)
     ∧ shuffled ≡ₚ examples (dataset w)
     ∧ examples (dataset (fst (leave1out learner w))) = shuffled)
  ∧ (∀ s, snd (leave1out learner w) = inr s → proportion s)
  ∧ (reliable learner (dataset w) →
     examples (dataset w) ≠ [] →
     (∀ e, e ∈ examples (dataset w) → valid_row (dataset w) e) →
     ∃ s, snd (leave1out learner w) = inr s ∧ proportion s).
Proof.
  rewrite leave1out_unfold. split_and!.
  - apply cross_validation_once_examples.
  - intros s Hs.
    destruct (cross_validation_once learner _ w) as [w' r] eqn:Hrun.
    simpl in Hs. subst r. by eapply cross_validation_once_proportion.
  - intros Hrel Hne Hrows.
    destruct (cross_validation_once_returns learner (dataset w)
                (Z.of_nat (length (examples (dataset w)))) w Hrel eq_refl Hrows)
      as (w' & s & Hrun).
    + destruct (examples (dataset w)); [done|simpl; lia].
    + rewrite Hrun. exists s. split; [done|].
      by eapply cross_validation_once_proportion.
Qed.

Lemma restaurant_tree_ready : tree_ready restaurant.
Proof.
  apply checked_tree_ready.
  - by vm_compute.
  - reflexivity.
  - reflexivity.
  - vm_compute. discriminate.
Qed.

Lemma leave1out_shuffled_order_witness :
  examples (dataset (world_of restaurant (fun _ => 0))) ≠ []
  ∧ (∀ e, e ∈ examples restaurant → valid_row restaurant e)
  ∧ ∀ fl,
      reliable (DecisionTreePredictorLearner fl) restaurant
      ∧ ∃ s, snd (leave1out (DecisionTreePredictorLearner fl)
                            (world_of restaurant (fun _ => 0))) = inr s
             ∧ proportion s.
Proof.
  assert (Hne : examples (dataset (world_of restaurant (fun _ => 0))) ≠ [])
    by (vm_compute; discriminate).
  pose proof restaurant_tree_ready as (_ & _ & Hrows).
  split; [exact Hne|]. split; [exact Hrows|]. intros fl.
  pose proof (decision_tree_reliable fl restaurant restaurant_tree_ready)
    as Hrel.
  split; [exact Hrel|].
  exact (proj2 (proj2 (leave1out_shuffled_order
                         (DecisionTreePredictorLearner fl)
                         (world_of restaurant (fun _ => 0))))
               Hrel Hne Hrows).
Defined.

(** C3 as stated fails: on the restaurant data, with a random source
    whose every draw is 0, [leave1out] returns a score and leaves the
    rows in another order than before the call. *)
Lemma leave1out_restaurant_reordered :
  (∃ s, snd (leave1out NaiveBayesLearner (world_of restaurant (fun _ => 0)))
        = inr s)
  ∧ examples (dataset (fst (leave1out NaiveBayesLearner
                              (world_of restaurant (fun _ => 0)))))
    ≠ examples (dataset (world_of restaurant (fun _ => 0))).
Proof.
  split.
  - eexists. vm_compute. reflexivity.
  - intros H. vm_compute in H. discriminate.
Qed.

(* ================================================================== *)
(** ** Sums of real numbers *)

Section Sums.
Context {A : Type}.
Implicit Types (f g : A → R) (l : list A).
Open Scope R_scope.

Lemma foldl_Rplus (a : R) (xs : list R) : foldl Rplus a xs = a + Rsum xs.
Proof.
  revert a. induction xs as [|x xs IH]; intros a; simpl; [lra|].
  rewrite IH. lra.
Qed.

Lemma Rsum_ext f g l :
  (∀ x, x ∈ l → f x = g x) → Rsum (map f l) = Rsum (map g l).
Proof.
  induction l as [|x l IH]; intros H; simpl; [done|].
  rewrite (H x) by left. rewrite IH; [done|]. intros y Hy. apply H. by right.
Qed.

Lemma Rsum_le f g l :
  (∀ x, x ∈ l → f x <= g x) → Rsum (map f l) <= Rsum (map g l).
Proof.
  induction l as [|x l IH]; intros H; simpl; [lra|].
  assert (f x <= g x) by (apply H; left).
  assert (Rsum (map f l) <= Rsum (map g l)); [|lra].
  apply IH. intros y Hy. apply H. by right.
Qed.

Lemma Rsum_zeros l : Rsum (map (fun _ => 0) l) = 0.
Proof. induction l as [|x l IH]; simpl; [done|]. rewrite IH. lra. Qed.

Lemma Rsum_nonneg f l : (∀ x, x ∈ l → 0 <= f x) → 0 <= Rsum (map f l).
Proof. intros H. rewrite <- (Rsum_zeros l). by apply Rsum_le. Qed.

Lemma Rsum_plus f g l :
  Rsum (map (fun x => f x + g x) l) = Rsum (map f l) + Rsum (map g l).
Proof. induction l as [|x l IH]; simpl; [lra|]. rewrite IH. lra. Qed.



Lemma Rsum_scal_r (k : R) f l :
  Rsum (map (fun x => f x * k) l) = Rsum (map f l) * k.
Proof. induction l as [|x l IH]; simpl; [lra|]. rewrite IH. lra. Qed.

End Sums.


(* ================================================================== *)
(** ** The logarithm and the terms of the entropy *)

Section Logarithm.
Open Scope R_scope.

Lemma ln_2_pos : 0 < ln 2.
Proof. pose proof ln_lt_2. lra. Qed.


Lemma ln_upper (y : R) : 0 < y → ln y <= y - 1.
Proof.
  intros Hy. pose proof (exp_ineq1_le (ln y)) as H.
  rewrite exp_ln in H by done. lra.
Qed.


Lemma bits_zero (s : R) : bits 0 s = 0.
Proof. unfold bits. by destruct (Req_dec_T 0 0). Qed.

Lemma bits_pos (c s : R) :
  c ≠ 0 → bits c s = - (c / s) * (ln (c / s) / ln 2).
Proof. intros H. unfold bits. by destruct (Req_dec_T c 0). Qed.

Lemma bits_nonneg (c s : R) : 0 <= c → c <= s → 0 <= bits c s.
Proof.
  intros H0 Hs. unfold bits. destruct (Req_dec_T c 0) as [|Hc]; [lra|].
  assert (0 < c) by lra. assert (0 < s) by lra.
  assert (0 < c / s) by (by apply Rdiv_lt_0_compat).
  assert (c / s <= 1).
  { apply (Rmult_le_reg_r s); [done|]. unfold Rdiv.
    rewrite Rmult_assoc, Rinv_l by lra. lra. }
  pose proof (ln_upper (c / s)) as Hl. pose proof ln_2_pos.
  assert (ln (c / s) <= 0) by (specialize (Hl ltac:(done)); lra).
  assert (0 < / ln 2) by (by apply Rinv_0_lt_compat).
  assert (ln (c / s) / ln 2 <= 0) by (unfold Rdiv; nra).
  nra.
Qed.
End Logarithm.

(* ================================================================== *)
(** ** Splitting does not raise the entropy

    A table of counts [m v t] with the row sums [r v], the column sums
    [c t] and the sum [n] of all cells: the entropy of the columns is
    at least the mean of the entropies of the rows, each row weighted
    by its share [r v / n].  Cell by cell the difference is
    [m/n * log2 (m*n / (r*c))], which [ln y >= 1 - 1/y] bounds from
    below by terms that cancel in the sum. *)

Section Gibbs.
Open Scope R_scope.
Context {A B : Type}.
Variables (V : list A) (T : list B) (m : A → B → R).
Variables (r : A → R) (c : B → R) (n : R).
Hypothesis m_nonneg : ∀ v t, 0 <= m v t.
Hypothesis row_sums : ∀ v, v ∈ V → r v = Rsum (map (m v) T).
Hypothesis column_sums : ∀ t, t ∈ T → c t = Rsum (map (fun v => m v t) V).
Hypothesis grand_total : n = Rsum (map r V).
Hypothesis some_rows : 0 < n.









End Gibbs.

(* ================================================================== *)
(** ** [information_gain] on the real numbers *)

Lemma foldl_add_sum (a : nat) (l : list nat) :
  foldl Nat.add a l = a + sum_list l.
Proof.
  revert a. induction l as [|x l IH]; intros a; simpl; [lia|].
  rewrite IH. unfold id. lia.
Qed.

Lemma sum_list_removeall (l : list nat) :
  sum_list (removeall 0 l) = sum_list l.
Proof.
  unfold removeall. induction l as [|x l IH]; [done|].
  rewrite filter_cons. case_decide; simpl; rewrite IH; unfold id; lia.
Qed.

Lemma Rsum_removeall (g : nat → R) (l : list nat) :
  g 0 = 0%R → Rsum (map g (removeall 0 l)) = Rsum (map g l).
Proof.
  intros Hg. unfold removeall. induction l as [|x l IH]; [done|].
  rewrite filter_cons. destruct (decide (x ≠ 0)) as [Hx|Hx]; simpl; rewrite IH.
  - done.
  - assert (x = 0) as -> by lia. rewrite Hg. lra.
Qed.

Lemma information_content_reals (counts : list nat) :
  information_content reals counts
  = entropy INR (INR (sum_list counts)) counts.
Proof.
  unfold information_content, entropy, fsum.
  rewrite foldl_add_sum, sum_list_removeall.
  cbn [reals of_int fadd feq fdiv fmul fopp flog2 float].
  rewrite foldl_Rplus, Nat.add_0_l.
  rewrite <- (Rsum_removeall (fun c => bits (INR c) (INR (sum_list counts))))
    by apply bits_zero.
  unfold Reqb. destruct (Req_dec_T _ _) as [Hs|Hs]; cbn [negb].
  - rewrite map_map, Hs. simpl INR. rewrite Rplus_0_l. apply Rsum_ext.
    intros v Hv. apply list_elem_of_filter in Hv as [Hv _].
    rewrite bits_pos by (by apply not_0_INR). by rewrite Rdiv_1_r.
  - rewrite map_map. simpl INR. rewrite Rplus_0_l. apply Rsum_ext.
    intros v Hv. apply list_elem_of_filter in Hv as [Hv _].
    by rewrite bits_pos by (by apply not_0_INR).
Qed.

Lemma Rsum_of_counts (l : list nat) : INR (sum_list l) = Rsum (map INR l).
Proof.
  induction l as [|x l IH]; simpl; [done|]. by rewrite plus_INR, IH.
Qed.




Section RealGain.
Variable d : DataSet.



End RealGain.






(* ================================================================== *)
(** ** Attribute references *)

(** X1: [attrnum] resolves a name to the first position at which
    [attrnames] holds it.  It raises exactly when the name is not in
    [attrnames], and the error is the [ValueError] of [list.index].
    When no name is listed twice, the position of a name resolves back
    from the name. *)
Theorem attrnum_name_position (d : DataSet) (s : string) :
  (∀ z, attrnum d (AttrName s) = inr z ↔
        ∃ i, z = Z.of_nat i ∧ attrnames d !! i = Some (VStr s)
             ∧ ∀ j, j < i → attrnames d !! j ≠ Some (VStr s))
  ∧ (∀ e, attrnum d (AttrName s) = inl e ↔
          e = ValueError (NotInList (VStr s)) ∧ VStr s ∉ attrnames d)
  ∧ (NoDup (attrnames d) →
     ∀ i, attrnames d !! i = Some (VStr s) →
          attrnum d (AttrName s) = inr (Z.of_nat i)).
Proof.
  assert (Hfound : ∀ i, attrnames d !! i = Some (VStr s) →
            (∀ j, j < i → attrnames d !! j ≠ Some (VStr s)) →
            attrnum d (AttrName s) = inr (Z.of_nat i)).
  { intros i Hi Hfirst. cbn [attrnum].
    assert (Hf : list_find (fun x => x = VStr s) (attrnames d)
                 = Some (i, VStr s)).
    { apply list_find_Some. split_and!; [done..|].
      intros j y Hy Hlt ->. by apply (Hfirst j). }
    by rewrite Hf. }
  split_and!.
  - intros z. split.
    + cbn [attrnum].
      destruct (list_find _ _) as [[i x]|] eqn:Hf; [|done].
      intros [= <-]. apply list_find_Some in Hf as (Hi & -> & Hfirst).
      exists i. split_and!; [done..|]. intros j Hlt Hj.
      by apply (Hfirst j (VStr s)).
    + intros (i & -> & Hi & Hfirst). by apply Hfound.
  - intros e. split.
    + cbn [attrnum].
      destruct (list_find _ _) as [[i x]|] eqn:Hf; [done|].
      intros [= <-]. split; [done|].
      apply list_find_None in Hf. rewrite Forall_forall in Hf.
      intros Hin. by apply (Hf _ Hin).
    + intros [-> Hnot]. cbn [attrnum].
      destruct (list_find _ _) as [[i x]|] eqn:Hf; [|done].
      apply list_find_Some in Hf as (Hi & -> & _).
      destruct Hnot. by eapply list_elem_of_lookup_2.
  - intros Hnd i Hi. apply Hfound; [done|]. intros j Hlt Hj.
    pose proof (NoDup_lookup _ _ _ _ Hnd Hi Hj). lia.
Qed.

(* ================================================================== *)
(** ** The invariants of a data set *)

Lemma attrnum_same (d1 d2 : DataSet) (r : AttrRef) :
  attrs d1 = attrs d2 → attrnames d1 = attrnames d2 →
  attrnum d1 r = attrnum d2 r.
Proof. intros Ha Hn. destruct r; cbn [attrnum]; by rewrite ?Ha, ?Hn. Qed.

Lemma mapR_same {A B} (f g : A → Res B) (l : list A) :
  (∀ x, f x = g x) → mapR f l = mapR g l.
Proof.
  intros H. induction l as [|x l IH]; [done|]. cbn [mapR]. by rewrite H, IH.
Qed.

Lemma mapR_member {A B} (f : A → Res B) (l : list A) (ys : list B)
    (x : A) (y : B) :
  mapR f l = inr ys → x ∈ l → f x = inr y → y ∈ ys.
Proof.
  revert ys. induction l as [|x0 l IH]; intros ys Hmap Hx Hy.
  { by apply elem_of_nil in Hx. }
  cbn [mapR] in Hmap. destruct (f x0) as [|y0] eqn:H0; [done|].
  cbn [bindR] in Hmap. destruct (mapR f l) as [|ys'] eqn:Hl; [done|].
  cbn [bindR] in Hmap. injection Hmap as <-.
  apply elem_of_cons in Hx as [->|Hx].
  - rewrite H0 in Hy. injection Hy as ->. left.
  - right. by apply IH.
Qed.

Lemma check_me_cases (d : DataSet) :
  check_me d = inr tt →
  length (attrnames d) = length (attrs d)
  ∧ target d ∈ attrs d ∧ (target d ∉ inputs d) ∧ inputs d ⊆ attrs d
  ∧ ∀ e, e ∈ examples d → check_example d e = inr tt.
Proof.
  unfold check_me. intros H.
  repeat (case_bool_decide; try done). cbn [negb] in H.
  destruct (mapR (check_example d) (examples d)) as [|us] eqn:Hmap; [done|].
  split_and!; [done..|]. intros e He.
  by destruct (mapR_each _ _ _ Hmap e He) as [[] Hu].
Qed.

(** X2: when [setproblem] returns, it has changed neither the examples
    nor the attributes nor their names, the target is the attribute that
    [attrnum] gives for the requested one, and the data set passes every
    check of [check_me]: as many names as attributes, the target among
    the attributes and not among the inputs, the inputs among the
    attributes, every example accepted by [check_example].  When no
    inputs were asked for, no excluded attribute is an input. *)
Theorem setproblem_establishes_invariants (tgt : AttrRef)
    (ins : option (list nat)) (excl : list AttrRef) (d d' : DataSet) :
  setproblem tgt ins excl d = inr d' →
  examples d' = examples d ∧ attrs d' = attrs d ∧ attrnames d' = attrnames d
  ∧ attrnum d tgt = inr (Z.of_nat (target d'))
  ∧ length (attrnames d') = length (attrs d')
  ∧ target d' ∈ attrs d' ∧ (target d' ∉ inputs d') ∧ inputs d' ⊆ attrs d'
  ∧ (∀ e, e ∈ examples d' → check_example d' e = inr tt)
  ∧ (ins = None ∨ ins = Some [] →
     ∀ r a, r ∈ excl → attrnum d r = inr (Z.of_nat a) → a ∉ inputs d').
Proof.
  unfold setproblem. destruct (attrnum d tgt) as [|t] eqn:Ht; [done|].
  cbn [bindR].
  destruct (mapR (attrnum d) excl) as [|ex] eqn:Hex; [done|]. cbn [bindR].
  destruct (t <? 0)%Z eqn:Hneg; [done|]. apply Z.ltb_ge in Hneg.
  match goal with |- context [check_me ?x] => set (dx := x) end.
  destruct (check_me dx) as [|[]] eqn:Hcm; [done|]. cbn [bindR].
  intros [= <-].
  destruct (check_me_cases dx Hcm) as (Hlen & Htgt & Hnot & Hsub & Hrows).
  split_and!; try done.
  - cbn [target dx]. by rewrite Z2Nat.id.
  - intros Hins r a Hr Ha Hin.
    assert (Hfil : a ∈ filter (fun a => Z.of_nat a ≠ t ∧ Z.of_nat a ∉ ex)
                              (attrs d)).
    { by destruct Hins as [-> | ->]. }
    apply list_elem_of_filter in Hfil as [[_ Hnotin] _]. apply Hnotin.
    by apply (mapR_member (attrnum d) excl ex r).
Qed.

Lemma setproblem_establishes_invariants_witness :
  setproblem (AttrNum (-1)) None [] ab_unset = inr ab_dataset
  ∧ examples ab_dataset = examples ab_unset
  ∧ attrnum ab_unset (AttrNum (-1)) = inr (Z.of_nat (target ab_dataset))
  ∧ target ab_dataset ∈ attrs ab_dataset
  ∧ (target ab_dataset ∉ inputs ab_dataset)
  ∧ inputs ab_dataset ⊆ attrs ab_dataset
  ∧ ∀ e, e ∈ examples ab_dataset → check_example ab_dataset e = inr tt.
Proof.
  assert (H : setproblem (AttrNum (-1)) None [] ab_unset = inr ab_dataset)
    by (by vm_compute).
  split; [exact H|].
  destruct (setproblem_establishes_invariants
              (AttrNum (-1)) None [] ab_unset ab_dataset H)
    as (He & _ & _ & Hn & _ & Ht & Hnot & Hsub & Hrows & _).
  by split_and!.
Defined.

(** X3: [setproblem] is idempotent: when a call has returned, the same
    call on the resulting data set returns that data set unchanged; the
    value sets computed by the first call are kept. *)
Theorem setproblem_idempotent (tgt : AttrRef) (ins : option (list nat))
    (excl : list AttrRef) (d d' : DataSet) :
  setproblem tgt ins excl d = inr d' → setproblem tgt ins excl d' = inr d'.
Proof.
  unfold setproblem at 1. destruct (attrnum d tgt) as [|t] eqn:Ht; [done|].
  cbn [bindR].
  destruct (mapR (attrnum d) excl) as [|ex] eqn:Hex; [done|]. cbn [bindR].
  destruct (t <? 0)%Z eqn:Hneg; [done|].
  match goal with |- context [check_me ?x] => set (dx := x) end.
  destruct (check_me dx) as [|[]] eqn:Hcm; [done|]. cbn [bindR].
  intros [= <-]. unfold setproblem.
  rewrite (attrnum_same dx d tgt eq_refl eq_refl), Ht. cbn [bindR].
  rewrite (mapR_same (attrnum dx) (attrnum d))
    by (intros r; by apply attrnum_same).
  rewrite Hex. cbn [bindR]. rewrite Hneg.
  assert (Hvals : (if populated dx then values dx
                   else unique <$> zip_star (examples dx)) = values dx).
  { unfold populated at 1. unfold dx. cbn [values examples].
    destruct (populated d) eqn:Hp.
    - unfold populated in Hp. by destruct (values d).
    - by destruct (unique <$> zip_star (examples d)). }
  rewrite Hvals. cbn [examples attrs attrnames values dx].
  fold dx. by rewrite Hcm.
Qed.

Lemma setproblem_idempotent_witness :
  setproblem (AttrNum (-1)) None [] ab_unset = inr ab_dataset
  ∧ setproblem (AttrNum (-1)) None [] ab_dataset = inr ab_dataset.
Proof.
  assert (H : setproblem (AttrNum (-1)) None [] ab_unset = inr ab_dataset)
    by (by vm_compute).
  split; [exact H|].
  exact (setproblem_idempotent (AttrNum (-1)) None [] ab_unset ab_dataset H).
Defined.

Lemma mapR_snoc {A B} (f : A → Res B) (l : list A) (x : A) :
  mapR f (l ++ [x])
  = letR ys := mapR f l in letR y := f x in inr (ys ++ [y]).
Proof.
  induction l as [|a l IH]; cbn [mapR app].
  - by destruct (f x).
  - destruct (f a) as [|b]; [done|]. cbn [bindR]. rewrite IH.
    destruct (mapR f l) as [|ys]; [done|]. cbn [bindR].
    by destruct (f x).
Qed.

(** X4: [add_example] keeps a data set well formed: when the data set
    passes [check_me] and [add_example] returns, the example has been
    appended at the end of the examples, nothing else has changed, and
    the data set still passes [check_me]. *)
Theorem add_example_keeps_invariants (example : Row) (w w' : World) :
  check_me (dataset w) = inr tt →
  add_example example w = (w', inr tt) →
  check_me (dataset w') = inr tt
  ∧ examples (dataset w') = examples (dataset w) ++ [example]
  ∧ dataset w' = with_examples (examples (dataset w) ++ [example]) (dataset w).
Proof.
  intros Hcm. unfold add_example, bind, get_dataset, liftR, put_examples.
  destruct (check_example (dataset w) example) as [|[]] eqn:Hex; [done|].
  intros [= <-]. split_and!; [|done..].
  cbn [dataset set_examples]. revert Hcm. unfold check_me.
  cbn [attrnames attrs target inputs examples with_examples].
  repeat (case_bool_decide; try done). cbn [negb].
  rewrite mapR_snoc.
  change (check_example (with_examples (examples (dataset w) ++ [example])
                                       (dataset w)))
    with (check_example (dataset w)).
  destruct (mapR (check_example (dataset w)) (examples (dataset w)));
    [done|].
  cbn [bindR]. by rewrite Hex.
Qed.

Lemma add_example_keeps_invariants_witness :
  check_me (dataset (world_of ab_dataset (fun _ => 0))) = inr tt
  ∧ add_example [VStr "B"; VStr "yes"] (world_of ab_dataset (fun _ => 0))
    = (world_of (with_examples (ab_rows ++ [[VStr "B"; VStr "yes"]])
                               ab_dataset) (fun _ => 0), inr tt)
  ∧ check_me (with_examples (ab_rows ++ [[VStr "B"; VStr "yes"]]) ab_dataset)
    = inr tt.
Proof.
  assert (Hcm : check_me (dataset (world_of ab_dataset (fun _ => 0))) = inr tt)
    by (by vm_compute).
  assert (Hadd : add_example [VStr "B"; VStr "yes"]
                             (world_of ab_dataset (fun _ => 0))
                 = (world_of (with_examples
                                (ab_rows ++ [[VStr "B"; VStr "yes"]])
                                ab_dataset) (fun _ => 0), inr tt))
    by reflexivity.
  split; [exact Hcm|]. split; [exact Hadd|].
  exact (proj1 (add_example_keeps_invariants _ _ _ Hcm Hadd)).
Defined.

(* ================================================================== *)
(** ** What [sanitize] keeps *)

(** X5: [sanitize] keeps the length of an example and its values at the
    inputs, and nothing else: two examples have the same sanitized copy
    exactly when they have the same length and agree at every input. *)
Theorem sanitize_agree (d : DataSet) (e1 e2 : Row) :
  sanitize d e1 = sanitize d e2
  ↔ length e1 = length e2 ∧ ∀ i, i ∈ inputs d → e1 !! i = e2 !! i.
Proof.
  split.
  - intros Heq. split.
    + apply (f_equal length) in Heq. unfold sanitize in Heq.
      by rewrite !length_imap in Heq.
    + intros i Hi. apply (f_equal (fun l => l !! i)) in Heq.
      rewrite !sanitize_lookup in Heq.
      rewrite bool_decide_eq_true_2 in Heq by done.
      by destruct (e1 !! i), (e2 !! i); simplify_eq/=.
  - intros [Hlen Hin]. apply list_eq. intros i. rewrite !sanitize_lookup.
    destruct (decide (i ∈ inputs d)) as [Hi|Hi].
    + by rewrite (Hin i Hi).
    + rewrite bool_decide_eq_false_2 by done.
      destruct (e1 !! i) as [v1|] eqn:H1, (e2 !! i) as [v2|] eqn:H2; try done.
      * apply lookup_lt_Some in H1. apply lookup_ge_None in H2. lia.
      * apply lookup_ge_None in H1. apply lookup_lt_Some in H2. lia.
Qed.

(* ================================================================== *)
(** ** A data set built from examples alone *)

Lemma filter_all {A} (P : A → Prop) `{!∀ x, Decision (P x)} (l : list A) :
  Forall P l → filter P l = l.
Proof.
  induction 1 as [|x l Hx _ IH]; [done|].
  by rewrite filter_cons, decide_True, IH.
Qed.

Lemma inputs_of_table (m : nat) :
  filter (fun a => Z.of_nat a ≠ (Z.of_nat (S m) + -1)%Z
                   ∧ Z.of_nat a ∉ ([] : list Z))
         (seq 0 (S m)) = seq 0 m.
Proof.
  rewrite seq_S, filter_app. cbn [Nat.add]. rewrite filter_cons.
  rewrite decide_False by (intros [H _]; lia).
  rewrite filter_nil, app_nil_r. apply filter_all, Forall_forall.
  intros a Ha. apply elem_of_seq in Ha. split; [lia|]. apply not_elem_of_nil.
Qed.

Lemma table_checked (exs : list Row) (m : nat) :
  (∀ r, r ∈ exs → length r = S m) → check_me (table exs m) = inr tt.
Proof.
  intros Hlen. unfold check_me.
  cbn [attrnames attrs target inputs examples table].
  rewrite bool_decide_eq_true_2 by (by rewrite length_fmap). cbn [negb].
  rewrite bool_decide_eq_true_2 by (apply elem_of_seq; lia). cbn [negb].
  rewrite bool_decide_eq_false_2 by (rewrite elem_of_seq; lia).
  rewrite bool_decide_eq_true_2.
  2:{ intros a Ha. apply elem_of_seq in Ha. apply elem_of_seq. lia. }
  cbn [negb].
  rewrite (mapR_inr _ (fun _ => tt)); [done|]. intros e He.
  apply (derived_values_permit (table exs m)); [|done].
  intros r a Hr Ha. cbn [attrs table] in Ha. apply elem_of_seq in Ha.
  rewrite (Hlen r Hr). lia.
Qed.

Lemma DataSet_of_table (exs : list Row) (m : nat) :
  exs ≠ [] → (∀ r, r ∈ exs → length r = S m) →
  DataSet_of exs = inr (table exs m).
Proof.
  intros Hne Hlen. unfold DataSet_of, DataSet_init.
  destruct exs as [|e0 exs]; [done|]. rewrite (Hlen e0) by left.
  cbn [bindR default]. set (l := e0 :: exs) in *.
  unfold setproblem. cbn [attrnum attrs examples attrnames values populated].
  rewrite length_seq. cbn [bindR mapR Z.ltb Z.compare].
  rewrite inputs_of_table.
  assert (Ht : (Z.of_nat (S m) + -1 <? 0)%Z = false) by (apply Z.ltb_ge; lia).
  rewrite Ht.
  replace (Z.to_nat (Z.of_nat (S m) + -1)) with m by lia.
  fold (table l m). by rewrite (table_checked l m Hlen).
Qed.

Lemma zip_star_column (exs : list Row) (m a : nat) :
  exs ≠ [] → (∀ r, r ∈ exs → length r = m) → a < m →
  zip_star exs !! a = Some (omap (fun r : Row => r !! a) exs).
Proof.
  intros Hne Hlen Ha. destruct exs as [|r0 exs]; [done|]. unfold zip_star.
  rewrite list_lookup_fmap, lookup_seq_lt; [done|].
  apply min_width_gt.
  - rewrite (Hlen r0) by left. done.
  - intros r Hr. by rewrite (Hlen r Hr).
Qed.

(** X6: [DataSet(examples=exs)] with every other argument at its
    default.  Without examples it raises a [TypeError] ([len] of the
    [attrs] that stayed [None]); on rows without columns the assertion
    of [check_me] fails.  On rows of [m] columns each, for [m] from 1
    to 257, it builds a data set that passes [check_me], with the
    attributes [0 .. m-1], the last one as the target and all others as
    the inputs, and with one value set per column that lists, once
    each, exactly the values the examples have in that column.
    (The source leaves the target out of the inputs by the identity
    test [a is not self.target]; identity and equality of integers
    agree up to 256, the integers that the interpreter shares, hence
    the bound on [m].) *)
Theorem DataSet_defaults (exs : list Row) (m : nat) :
  (exs = [] → DataSet_of exs = inl TypeError)
  ∧ (exs ≠ [] → (∀ r, r ∈ exs → length r = m) →
     (m = 0 → DataSet_of exs = inl AssertionError)
     ∧ (0 < m → m ≤ 257 →
        ∃ d, DataSet_of exs = inr d
             ∧ examples d = exs ∧ attrs d = seq 0 m
             ∧ target d = m - 1 ∧ inputs d = seq 0 (m - 1)
             ∧ check_me d = inr tt
             ∧ length (values d) = m
             ∧ ∀ a vs, values d !! a = Some vs →
                 NoDup vs
                 ∧ ∀ v, v ∈ vs ↔ ∃ e, e ∈ exs ∧ e !! a = Some v)).
Proof.
  split; [by intros ->|]. intros Hne Hlen. split.
  - intros ->. unfold DataSet_of, DataSet_init.
    destruct exs as [|e0 exs]; [done|].
    rewrite (Hlen e0) by left. reflexivity.
  - intros Hm _. destruct m as [|m]; [lia|].
    eexists. split; [by apply DataSet_of_table|].
    cbn [examples attrs target inputs values table].
    replace (S m - 1) with m by lia. split_and!; [done..| | |].
    + by apply table_checked.
    + rewrite length_fmap. destruct exs as [|e0 exs']; [done|].
      unfold zip_star. rewrite length_fmap, length_seq.
      assert (Hmin : ∀ rows : list Row, (∀ r, r ∈ rows → length r = S m) →
                foldr (fun r => Nat.min (length r)) (S m) rows = S m).
      { induction rows as [|r rows IH]; intros H; [done|]. cbn [foldr].
        rewrite (H r) by left. rewrite IH; [lia|].
        intros r' Hr'. apply H. by right. }
      rewrite (Hlen e0) by left. by apply Hmin.
    + intros a vs Hvs. rewrite list_lookup_fmap in Hvs.
      destruct (zip_star exs !! a) as [col|] eqn:Hcol; [|done].
      injection Hvs as <-. unfold unique. split; [apply NoDup_remove_dups|].
      intros v. rewrite elem_of_remove_dups.
      assert (Ha : a < S m).
      { apply lookup_lt_Some in Hcol. destruct exs as [|e0 exs']; [done|].
        unfold zip_star in Hcol. rewrite length_fmap, length_seq in Hcol.
        pose proof (Nat.le_min_l (length e0)
                      (foldr (fun r => Nat.min (length r)) (length e0) exs')).
        cbn [foldr] in Hcol. rewrite (Hlen e0) in * by left. lia. }
      rewrite (zip_star_column exs (S m) a Hne Hlen Ha) in Hcol.
      injection Hcol as <-. rewrite list_elem_of_omap. split.
      * intros (e & He & Hv). by exists e.
      * intros (e & He & Hv). by exists e.
Qed.

Lemma DataSet_defaults_witness :
  ab_rows ≠ [] ∧ (∀ r, r ∈ ab_rows → length r = 2) ∧ 0 < 2 ∧ 2 ≤ 257
  ∧ ∃ d, DataSet_of ab_rows = inr d
         ∧ attrs d = [0; 1] ∧ target d = 1 ∧ inputs d = [0]
         ∧ check_me d = inr tt.
Proof.
  assert (Hne : ab_rows ≠ []) by discriminate.
  assert (Hlen : ∀ r, r ∈ ab_rows → length r = 2).
  { assert (HF : Forall (fun r : Row => length r = 2) ab_rows)
      by (apply (bool_decide_unpack _); by vm_compute).
    by rewrite Forall_forall in HF. }
  assert (Hm : 0 < 2) by lia. assert (Hb : 2 ≤ 257) by lia.
  split; [exact Hne|]. split; [exact Hlen|]. split; [exact Hm|].
  split; [exact Hb|].
  destruct (proj2 (proj2 (DataSet_defaults ab_rows 2) Hne Hlen) Hm Hb)
    as (d & Hrun & _ & Ha & Ht & Hi & Hc & _).
  exists d. split; [exact Hrun|]. split; [exact Ha|]. split; [exact Ht|].
  split; [exact Hi|exact Hc].
Defined.

(* ================================================================== *)
(** ** The default distance *)

Lemma foldl_Qplus_shift (ys : list Q) (acc : Q) :
  (foldl Qplus acc ys == acc + foldl Qplus 0 ys)%Q.
Proof.
  revert acc. induction ys as [|y ys IH]; intros acc; cbn [foldl].
  - ring.
  - rewrite (IH (acc + y)%Q), (IH (0 + y)%Q). ring.
Qed.

Lemma boolean_sum (l : list (Value * Value)) :
  (foldl Qplus 0
     (map (fun '(p, t) => if bool_decide (p ≠ t) then 1%Q else 0%Q) l)
   == nat_to_Q (length (filter (fun pt => pt.1 ≠ pt.2) l)))%Q.
Proof.
  induction l as [|[p t] l IH]; cbn [map foldl].
  { reflexivity. }
  rewrite foldl_Qplus_shift, IH, filter_cons.
  case_bool_decide as Hpt; case_decide as Hpt'; cbn [fst snd] in Hpt';
    try done.
  - cbn [length]. rewrite nat_to_Q_S. ring.
  - ring.
Qed.

Lemma zip_swap {A B} (a : list A) (b : list B) :
  zip b a = (fun pt => (pt.2, pt.1)) <$> zip a b.
Proof.
  revert b. induction a as [|x a IH]; intros [|y b]; cbn; [done..|].
  by rewrite IH.
Qed.

Lemma mean_some (ys : list Q) (m : Q) :
  mean ys = inr m →
  ys ≠ [] ∧ m = (foldl Qplus 0 ys / nat_to_Q (length ys))%Q.
Proof.
  unfold mean. destruct ys as [|y ys]; [done|]. by intros [= <-].
Qed.

(** X7: [mean_boolean_error] divides by zero when one of the two lists
    is empty.  It is symmetric.  When it returns, the result is the
    number of common positions at which the lists differ, divided by
    the length of the shorter list: a number between 0 and 1 that is 0
    exactly when the lists agree at every common position; what the
    longer list holds beyond the shorter one is ignored. *)
Theorem mean_boolean_error_distance (a b : list Value) :
  (a = [] ∨ b = [] → mean_boolean_error a b = inl ZeroDivisionError)
  ∧ mean_boolean_error a b = mean_boolean_error b a
  ∧ ∀ dist, mean_boolean_error a b = inr dist →
      (dist == nat_to_Q (length (mismatches a b))
               / nat_to_Q (Nat.min (length a) (length b)))%Q
      ∧ proportion dist
      ∧ ((dist == 0)%Q ↔
         ∀ i p t, a !! i = Some p → b !! i = Some t → p = t).
Proof.
  split_and!.
  - intros [-> | ->]; [done|]. unfold mean_boolean_error.
    by destruct a.
  - unfold mean_boolean_error. f_equal. rewrite (zip_swap a b).
    rewrite <- list_fmap_compose. apply list_fmap_ext.
    intros i [p t] _. cbn. apply (f_equal (fun c : bool => if c then _ else _)).
    apply bool_decide_ext. split; intros Hne Heq; by apply Hne.
  - intros dist Hrun. unfold mean_boolean_error in Hrun.
    apply mean_some in Hrun as [Hsome ->].
    assert (Hn : length (map (fun '(p, t) => if bool_decide (p ≠ t)
                                              then 1%Q else 0%Q) (zip a b))
                 = Nat.min (length a) (length b)).
    { by rewrite length_map, length_zip_with. }
    rewrite Hn.
    assert (Hpos : Nat.min (length a) (length b) ≠ 0).
    { rewrite <- Hn. by destruct (map _ (zip a b)). }
    pose proof (nat_to_Q_pos _ Hpos) as HQ.
    assert (Heq : (foldl Qplus 0
                     (map (fun '(p, t) => if bool_decide (p ≠ t)
                                          then 1%Q else 0%Q) (zip a b))
                   / nat_to_Q (Nat.min (length a) (length b))
                   == nat_to_Q (length (mismatches a b))
                      / nat_to_Q (Nat.min (length a) (length b)))%Q).
    { by rewrite boolean_sum. }
    assert (Hle : length (mismatches a b) ≤ Nat.min (length a) (length b)).
    { unfold mismatches. etrans; [apply length_filter|].
      by rewrite length_zip_with. }
    split_and!.
    + exact Heq.
    + destruct (ratio_proportion (nat_to_Q (length (mismatches a b)))
                  (Nat.min (length a) (length b))) as [Hlo Hhi]; [done| |..].
      * change 0%Q with (nat_to_Q 0). unfold nat_to_Q. rewrite <- Zle_Qle. lia.
      * unfold nat_to_Q. rewrite <- Zle_Qle. lia.
      * split; by rewrite Heq.
    + rewrite Heq. split.
      * intros H0 i p t Hp Ht.
        assert (Hz : length (mismatches a b) = 0).
        { assert (Hq : (nat_to_Q (length (mismatches a b)) == 0)%Q).
          { transitivity (nat_to_Q (length (mismatches a b))
                          / nat_to_Q (Nat.min (length a) (length b))
                          * nat_to_Q (Nat.min (length a) (length b)))%Q.
            - field. lra.
            - rewrite H0. ring. }
          change 0%Q with (nat_to_Q 0) in Hq. unfold nat_to_Q in Hq.
          rewrite inject_Z_injective in Hq. lia. }
        apply length_zero_iff_nil in Hz.
        destruct (decide (p = t)) as [|Hne]; [done|].
        assert (Hin : (p, t) ∈ mismatches a b).
        { unfold mismatches. apply list_elem_of_filter. split; [done|].
          apply list_elem_of_lookup. exists i.
          by rewrite lookup_zip_with, Hp, Ht. }
        rewrite Hz in Hin. by apply elem_of_nil in Hin.
      * intros Hagree.
        assert (Hz : mismatches a b = []).
        { destruct (mismatches a b) as [|[p t] rest] eqn:E; [done|].
          assert (Hin : (p, t) ∈ mismatches a b) by (rewrite E; left).
          unfold mismatches in Hin.
          apply list_elem_of_filter in Hin as [Hne Hin].
          apply list_elem_of_lookup in Hin as [i Hi].
          rewrite lookup_zip_with in Hi.
          destruct (a !! i) as [p'|] eqn:Ha; [|done].
          destruct (b !! i) as [t'|] eqn:Hb; [|done].
          cbn in Hi. injection Hi as -> ->. destruct Hne. cbn.
          by eapply Hagree. }
        rewrite Hz. change (nat_to_Q (length [])) with 0%Q. field. lra.
Qed.

Lemma mean_boolean_error_distance_witness :
  mean_boolean_error [VInt 1; VInt 2] [VInt 1; VInt 3; VInt 4]
  = inr (1 # 2)%Q
  ∧ (1 # 2 == nat_to_Q (length (mismatches [VInt 1; VInt 2]
                                           [VInt 1; VInt 3; VInt 4]))
              / nat_to_Q (Nat.min 2 3))%Q
  ∧ proportion (1 # 2)%Q.
Proof.
  assert (Hrun : mean_boolean_error [VInt 1; VInt 2] [VInt 1; VInt 3; VInt 4]
                 = inr (1 # 2)%Q) by reflexivity.
  split; [exact Hrun|].
  destruct (proj2 (proj2 (mean_boolean_error_distance
                            [VInt 1; VInt 2] [VInt 1; VInt 3; VInt 4]))
                  (1 # 2)%Q Hrun) as (Hdist & Hprop & _).
  split; [exact Hdist|exact Hprop].
Defined.

(* ================================================================== *)
(** ** Rows grouped by the value of an attribute *)

Lemma concat_rows_at_miss (a : nat) (e : Row) (l : list Row)
    (vs : list Value) :
  (∀ v, v ∈ vs → e !! a ≠ Some v) →
  concat (map (fun v => rows_at a v (e :: l)) vs)
  = concat (map (fun v => rows_at a v l) vs).
Proof.
  induction vs as [|v vs IH]; intros H; [done|]. cbn [map concat].
  rewrite IH by (intros v' Hv'; apply H; by right).
  unfold rows_at at 1. rewrite filter_cons.
  by rewrite decide_False by (apply H; left).
Qed.

Lemma concat_rows_at_hit (a : nat) (e : Row) (x : Value) (l : list Row)
    (vs : list Value) :
  NoDup vs → x ∈ vs → e !! a = Some x →
  concat (map (fun v => rows_at a v (e :: l)) vs)
  ≡ₚ e :: concat (map (fun v => rows_at a v l) vs).
Proof.
  induction 1 as [|v vs Hv Hnd IH]; intros Hx He.
  { by apply elem_of_nil in Hx. }
  cbn [map concat]. unfold rows_at at 1. rewrite filter_cons.
  apply elem_of_cons in Hx as [->|Hx].
  - rewrite decide_True by done. rewrite concat_rows_at_miss; [done|].
    intros v' Hv' Heq. rewrite He in Heq. injection Heq as ->. done.
  - rewrite decide_False by (rewrite He; intros [= ->]; done).
    rewrite IH by done. fold (rows_at a v l).
    by rewrite Permutation_middle.
Qed.

Lemma rows_at_split (a : nat) (vs : list Value) (l : list Row) :
  NoDup vs → (∀ e, e ∈ l → ∃ v, e !! a = Some v ∧ v ∈ vs) →
  concat (map (fun v => rows_at a v l) vs) ≡ₚ l.
Proof.
  intros Hnd. induction l as [|e l IH]; intros Hlegal.
  { clear. by induction vs as [|v vs IH]. }
  destruct (Hlegal e) as (x & Hx & Hin); [left|].
  rewrite (concat_rows_at_hit a e x l vs Hnd Hin Hx).
  constructor. apply IH. intros e' He'. apply Hlegal. by right.
Qed.

Lemma length_concat_map {A B} (f : A → list B) (l : list A) :
  length (concat (map f l)) = sum_list_with (fun x => length (f x)) l.
Proof.
  induction l as [|x l IH]; [done|]. cbn [map concat sum_list_with].
  by rewrite length_app, IH.
Qed.

Lemma sum_list_with_same {A} (f g : A → nat) (l : list A) :
  (∀ x, x ∈ l → f x = g x) → sum_list_with f l = sum_list_with g l.
Proof.
  induction l as [|x l IH]; intros H; [done|]. cbn [sum_list_with].
  rewrite (H x) by left. rewrite IH; [done|]. intros y Hy. apply H. by right.
Qed.

Lemma elem_of_concat {A} (x : A) (ls : list (list A)) :
  x ∈ concat ls ↔ ∃ l, x ∈ l ∧ l ∈ ls.
Proof.
  induction ls as [|l ls IH]; cbn [concat].
  - split; [by intros ?%elem_of_nil|]. by intros (l & _ & ?%elem_of_nil).
  - rewrite elem_of_app, IH. split.
    + intros [Hx|(l' & Hx & Hl')]; [exists l; split; [done|left]|].
      exists l'. split; [done|by right].
    + intros (l' & Hx & [->|Hl']%elem_of_cons); [by left|].
      right. by exists l'.
Qed.

(* ================================================================== *)
(** ** The count table and the estimates of [NaiveBayesLearner] *)

Lemma table_none_sum (d : DataSet) (tbl : gmap Value (gmap nat (gmap Value nat)))
    (t : Value) (attr : nat) (vs : list Value) :
  bayes_ready d →
  (∀ t attr v, attr ∈ inputs d →
     N tbl t attr v = tally d t attr v (examples d)) →
  attr ∈ inputs d → values d !! attr = Some vs → NoDup vs →
  N tbl t attr VNone = sum_list_with (fun v => N tbl t attr v) vs.
Proof.
  intros (_ & _ & Hins & Hrows) HN Hattr Hvs Hnd.
  destruct (Hins attr Hattr) as (vs' & Hvs' & Hnone & _).
  assert (vs' = vs) as -> by congruence.
  set (l := rows_at (target d) t (examples d)).
  rewrite (sum_list_with_same _ (fun v => length (rows_at attr v l))).
  - rewrite <- length_concat_map, rows_at_split; [|done|].
    + rewrite (HN _ _ _ Hattr), tally_None. done.
    + intros e He. unfold l, rows_at in He.
      apply list_elem_of_filter in He as [_ He].
      destruct (Hrows e He) as [_ Hrow].
      destruct (Hrow attr Hattr) as (v & vs' & Hv & Hvs'' & Hin).
      exists v. split; [done|]. congruence.
  - intros v Hv. rewrite (HN _ _ _ Hattr), tally_value by (by intros ->).
    unfold rows_with_value, l, rows_at. rewrite list_filter_filter.
    f_equal. apply list_filter_iff. intros e. split; intros [? ?]; by split.
Qed.

(** X8: the count table keeps what the source promises for the key
    [None].  On a data set that [NaiveBayesLearner] can count, the
    count stored for a target value, an input attribute and [None] is
    the number of examples with that target value; and when the value
    set of the attribute lists no value twice, it is the sum of the
    counts stored for the values of the attribute. *)
Theorem count_table_none_is_sum (d : DataSet) :
  bayes_ready d →
  ∃ tbl,
    count_table d = inr tbl
    ∧ (∀ t attr, attr ∈ inputs d →
         N tbl t attr VNone
         = length (rows_at (target d) t (examples d)))
    ∧ ∀ t attr vs, attr ∈ inputs d → values d !! attr = Some vs → NoDup vs →
        N tbl t attr VNone = sum_list_with (fun v => N tbl t attr v) vs.
Proof.
  intros Hready.
  destruct (count_table_spec d Hready) as (tbl & Hrun & HN).
  exists tbl. split_and!; [done| |].
  - intros t attr Hattr. by rewrite (HN _ _ _ Hattr), tally_None.
  - intros t attr vs Hattr Hvs Hnd. by apply (table_none_sum d).
Qed.

Lemma count_table_none_is_sum_witness :
  bayes_ready ab_dataset
  ∧ ∃ tbl,
      count_table ab_dataset = inr tbl
      ∧ N tbl (VStr "yes") 0 VNone = 7
      ∧ N tbl (VStr "yes") 0 VNone
        = N tbl (VStr "yes") 0 (VStr "A") + N tbl (VStr "yes") 0 (VStr "B").
Proof.
  split; [exact ab_dataset_ready|].
  destruct (count_table_none_is_sum ab_dataset ab_dataset_ready)
    as (tbl & Hrun & Hlen & Hsum).
  exists tbl. split; [exact Hrun|]. split.
  - rewrite (Hlen (VStr "yes") 0) by left. reflexivity.
  - rewrite (Hsum (VStr "yes") 0 [VStr "A"; VStr "B"]).
    + simpl. lia.
    + left.
    + reflexivity.
    + apply (bool_decide_unpack _). by vm_compute.
Defined.

Lemma nat_to_Q_add (a b : nat) : (nat_to_Q (a + b) == nat_to_Q a + nat_to_Q b)%Q.
Proof.
  unfold nat_to_Q. rewrite Nat2Z.inj_add, inject_Z_plus. reflexivity.
Qed.

Lemma nat_to_Q_le (a b : nat) : a ≤ b → (nat_to_Q a <= nat_to_Q b)%Q.
Proof. intros H. unfold nat_to_Q. rewrite <- Zle_Qle. lia. Qed.

Lemma smoothed_sum (f : Value → nat) (D : Q) (vs : list Value) :
  (foldr Qplus 0 (map (fun v => (nat_to_Q (f v) + 1) / D) vs)
   == (nat_to_Q (sum_list_with f vs) + nat_to_Q (length vs)) / D)%Q.
Proof.
  induction vs as [|v vs IH]; cbn [map foldr sum_list_with length].
  - change (nat_to_Q 0) with 0%Q. unfold Qdiv. ring.
  - rewrite IH, nat_to_Q_add, nat_to_Q_S. unfold Qdiv. ring.
Qed.

(** X9: the smoothed estimates form a probability distribution.  On a
    data set that [NaiveBayesLearner] can count, for a target value and
    an input attribute whose value set lists no value twice, [P] returns
    an estimate for every value of the attribute, every estimate is
    above 0 and at most 1 (also for a value or a target value that was
    never seen), and the estimates, taken as exact fractions, sum
    to 1. *)
Theorem laplace_estimates_distribution (d : DataSet) :
  bayes_ready d →
  ∃ tbl,
    count_table d = inr tbl
    ∧ ∀ t attr vs, attr ∈ inputs d → values d !! attr = Some vs → NoDup vs →
        ∃ ps, mapR (P d tbl t attr) vs = inr ps
              ∧ (foldr Qplus 0 ps == 1)%Q
              ∧ Forall (fun p => (0 < p)%Q ∧ (p <= 1)%Q) ps.
Proof.
  intros Hready.
  destruct (count_table_spec d Hready) as (tbl & Hrun & HN).
  exists tbl. split; [done|]. intros t attr vs Hattr Hvs Hnd.
  pose proof (table_none_sum d tbl t attr vs Hready HN Hattr Hvs Hnd) as Hsum.
  pose proof Hready as (_ & _ & Hins & _).
  destruct (Hins attr Hattr) as (vs' & Hvs' & _ & Hne).
  assert (vs' = vs) as -> by congruence.
  set (D := N tbl t attr VNone + length vs).
  assert (HD : D ≠ 0) by (unfold D; destruct vs; [done|simpl; lia]).
  pose proof (nat_to_Q_pos D HD) as HDpos.
  exists (map (fun v => (nat_to_Q (N tbl t attr v) + 1) / nat_to_Q D)%Q vs).
  split_and!.
  - apply mapR_inr. intros v _. unfold P.
    rewrite (getitem_Some _ _ _ Hvs). cbn [bindR]. fold D.
    by rewrite decide_False.
  - rewrite (smoothed_sum (fun v => N tbl t attr v)), <- Hsum, <- nat_to_Q_add.
    fold D. field. lra.
  - apply Forall_forall. intros p Hp.
    apply list_elem_of_fmap in Hp as (v & -> & Hv). split.
    + apply Qlt_shift_div_l; [done|]. rewrite Qmult_0_l.
      pose proof (nat_to_Q_le 0 (N tbl t attr v)) as H0.
      change (nat_to_Q 0) with 0%Q in H0. specialize (H0 ltac:(lia)). lra.
    + apply Qle_shift_div_r; [done|]. rewrite Qmult_1_l.
      pose proof (sum_list_with_in v (fun v => N tbl t attr v) vs Hv) as Hle.
      cbn beta in Hle. rewrite <- Hsum in Hle.
      assert (Hone : 1 ≤ length vs) by (destruct vs; [done|simpl; lia]).
      pose proof (nat_to_Q_le (N tbl t attr v + 1) D) as HQ.
      specialize (HQ ltac:(unfold D; lia)).
      rewrite nat_to_Q_add in HQ. change (nat_to_Q 1) with 1%Q in HQ. lra.
Qed.

Lemma laplace_estimates_distribution_witness :
  bayes_ready ab_dataset
  ∧ ∃ tbl ps,
      count_table ab_dataset = inr tbl
      ∧ mapR (P ab_dataset tbl (VStr "yes") 0) [VStr "A"; VStr "B"] = inr ps
      ∧ (foldr Qplus 0 ps == 1)%Q
      ∧ Forall (fun p => (0 < p)%Q ∧ (p <= 1)%Q) ps.
Proof.
  split; [exact ab_dataset_ready|].
  destruct (laplace_estimates_distribution ab_dataset ab_dataset_ready)
    as (tbl & Hrun & Hdist).
  destruct (Hdist (VStr "yes") 0 [VStr "A"; VStr "B"])
    as (ps & Hps & Hsum & Hrange).
  - left.
  - reflexivity.
  - apply (bool_decide_unpack _). by vm_compute.
  - exists tbl, ps. split; [exact Hrun|]. split; [exact Hps|].
    split; [exact Hsum|exact Hrange].
Defined.

Lemma init_gv_rejects_none (d : DataSet) (ins : list nat)
    (acc : gmap nat (gmap Value nat)) :
  (∀ a, a ∈ ins → is_Some (values d !! a)) →
  (∃ a vs, a ∈ ins ∧ values d !! a = Some vs ∧ VNone ∈ vs) →
  foldR (fun m attr => letR t := init_attr d attr in inr (<[attr := t]> m))
        acc ins = inl AssertionError.
Proof.
  revert acc. induction ins as [|a0 ins IH];
    intros acc Hvals (a & vs & Ha & Hvs & Hin).
  { by apply elem_of_nil in Ha. }
  cbn [foldR]. unfold init_attr at 1.
  destruct (Hvals a0) as [vs0 Hvs0]; [left|].
  rewrite (getitem_Some _ _ _ Hvs0). cbn [bindR].
  case_bool_decide as Hnone; [done|]. cbn [bindR].
  apply IH.
  - intros a' Ha'. apply Hvals. by right.
  - exists a, vs. split_and!; [|done..].
    apply elem_of_cons in Ha as [->|Ha]; [|done]. congruence.
Qed.

(** X10: [NaiveBayesLearner] refuses a data set that lists [None] as a
    value of an input.  When the target has at least one value, every
    input has a value set and the value set of some input contains
    [None], the assertion of the initialisation loop fails: no table is
    built, no predictor is returned, and the data set and the random
    state are left as they were. *)
Theorem naive_bayes_rejects_none (w : World) (gvs : list Value) :
  values (dataset w) !! target (dataset w) = Some gvs → gvs ≠ [] →
  (∀ a, a ∈ inputs (dataset w) → is_Some (values (dataset w) !! a)) →
  (∃ a vs, a ∈ inputs (dataset w) ∧ values (dataset w) !! a = Some vs
           ∧ VNone ∈ vs) →
  count_table (dataset w) = inl AssertionError
  ∧ NaiveBayesLearner w = (w, inl AssertionError).
Proof.
  intros Hg Hne Hvals Hnone.
  assert (Htbl : count_table (dataset w) = inl AssertionError).
  { unfold count_table, init_N. rewrite (getitem_Some _ _ _ Hg). cbn [bindR].
    destruct gvs as [|gv gvs]; [done|]. cbn [foldR]. unfold init_gv.
    by rewrite init_gv_rejects_none. }
  split; [done|].
  unfold NaiveBayesLearner, bind, get_dataset, liftR. by rewrite Htbl.
Qed.

Lemma naive_bayes_rejects_none_witness :
  values none_dataset !! target none_dataset = Some [VStr "yes"; VStr "no"]
  ∧ [VStr "yes"; VStr "no"] ≠ []
  ∧ (∀ a, a ∈ inputs none_dataset → is_Some (values none_dataset !! a))
  ∧ (∃ a vs, a ∈ inputs none_dataset ∧ values none_dataset !! a = Some vs
             ∧ VNone ∈ vs)
  ∧ NaiveBayesLearner (world_of none_dataset (fun _ => 0))
    = (world_of none_dataset (fun _ => 0), inl AssertionError).
Proof.
  assert (Hg : values none_dataset !! target none_dataset
               = Some [VStr "yes"; VStr "no"]) by reflexivity.
  assert (Hne : [VStr "yes"; VStr "no"] ≠ []) by discriminate.
  assert (Hvals : ∀ a, a ∈ inputs none_dataset →
                       is_Some (values none_dataset !! a)).
  { intros a Ha. apply list_elem_of_singleton in Ha as ->. by eexists. }
  assert (Hnone : ∃ a vs, a ∈ inputs none_dataset
                          ∧ values none_dataset !! a = Some vs ∧ VNone ∈ vs).
  { exists 0, [VNone; VStr "A"; VStr "B"]. split_and!; [left|reflexivity|left]. }
  split; [exact Hg|]. split; [exact Hne|]. split; [exact Hvals|].
  split; [exact Hnone|].
  exact (proj2 (naive_bayes_rejects_none (world_of none_dataset (fun _ => 0))
                  [VStr "yes"; VStr "no"] Hg Hne Hvals Hnone)).
Defined.

(* ================================================================== *)
(** ** Branches of a fork *)

(** X11: what [add] stores, a call finds.  After [add(val, subtree)] a
    fork sends an example with the value [val] at its attribute to
    [subtree], and every other example where it went before; a later
    [add] for the same value replaces the earlier one.  A fork raises a
    [KeyError] on an example whose value has no branch, and an
    [IndexError] on an example too short to have the attribute. *)
Theorem fork_add_then_call (attr : nat) (name : Value)
    (branches : gmap Value Tree) (val : Value) (subtree : Tree) (e : Row) :
  (e !! attr = Some val →
     call (add (DecisionFork attr name branches) val subtree) e
     = call subtree e)
  ∧ (∀ v, e !! attr = Some v → v ≠ val →
       call (add (DecisionFork attr name branches) val subtree) e
       = call (DecisionFork attr name branches) e)
  ∧ (∀ v, e !! attr = Some v → branches !! v = None →
       call (DecisionFork attr name branches) e = inl KeyError)
  ∧ (e !! attr = None →
       call (DecisionFork attr name branches) e = inl IndexError)
  ∧ (∀ other, add (add (DecisionFork attr name branches) val other)
                  val subtree
              = add (DecisionFork attr name branches) val subtree).
Proof.
  split_and!.
  - intros He. cbn [add call]. rewrite (getitem_Some _ _ _ He). cbn [bindR].
    by rewrite lookup_fmap, lookup_insert_eq.
  - intros v He Hne. cbn [add call]. rewrite (getitem_Some _ _ _ He).
    cbn [bindR]. by rewrite !lookup_fmap, lookup_insert_ne.
  - intros v He Hbr. cbn [call]. rewrite (getitem_Some _ _ _ He).
    cbn [bindR]. by rewrite lookup_fmap, Hbr.
  - intros He. cbn [call]. unfold getitem. by rewrite He.
  - intros other. cbn [add]. by rewrite insert_insert_eq.
Qed.

(* ================================================================== *)
(** ** The most popular target value *)

Lemma argmin_random_tie_int_loop {A} (fn : A → Res Z) (l : list A) :
  (∀ y, y ∈ l → ∃ s, fn y = inr s) →
  ∀ b bs n w,
    fn b = inr bs →
    ∃ w' b' bs' n',
      foldM (fun '(best, best_score, n) x =>
               letM x_score := liftR (fn x) in
               if less int_ord x_score best_score
               then ret (x, x_score, 1)
               else if same int_ord x_score best_score
               then letM r := randrange (S n) in
                    ret (if r =? 0 then x else best, best_score, S n)
               else ret (best, best_score, n))
            (b, bs, n) l w = (w', inr (b', bs', n'))
      ∧ fn b' = inr bs' ∧ (bs' ≤ bs)%Z
      ∧ (∀ y, y ∈ l → ∃ s, fn y = inr s ∧ (bs' ≤ s)%Z)
      ∧ dataset w' = dataset w.
Proof.
  induction l as [|x l IH]; intros Hfn b bs n w Hb.
  { exists w, b, bs, n. split_and!; [done|done|lia| |done].
    intros y Hy. by apply elem_of_nil in Hy. }
  destruct (Hfn x) as [sx Hx]; [left|].
  assert (Hrest : ∀ y, y ∈ l → ∃ s, fn y = inr s).
  { intros y Hy. apply Hfn. by right. }
  cbn [foldM]. unfold bind at 1. unfold bind at 1. unfold liftR at 1.
  rewrite Hx. cbn [less same int_ord].
  destruct (sx <? bs)%Z eqn:Hlt.
  - apply Z.ltb_lt in Hlt. unfold ret at 1.
    destruct (IH Hrest x sx 1 w Hx)
      as (w' & b' & bs' & n' & Hrun & Hb' & Hle & Hmin & Hd).
    exists w', b', bs', n'. split_and!; [done|done|lia| |done].
    intros y Hy. apply elem_of_cons in Hy as [->|Hy]; [|by apply Hmin].
    exists sx. split; [done|lia].
  - apply Z.ltb_ge in Hlt. destruct (sx =? bs)%Z eqn:Heq.
    + apply Z.eqb_eq in Heq. subst sx.
      unfold bind at 1. unfold randrange at 1. unfold ret at 1.
      match goal with |- context [foldM _ (?b1, bs, S n) l ?w1] =>
        destruct (IH Hrest b1 bs (S n) w1)
          as (w' & b' & bs' & n' & Hrun & Hb' & Hle & Hmin & Hd)
      end.
      { by destruct (_ =? 0). }
      exists w', b', bs', n'. split_and!; [done|done|lia| |done].
      intros y Hy. apply elem_of_cons in Hy as [->|Hy]; [|by apply Hmin].
      exists bs. split; [done|lia].
    + apply Z.eqb_neq in Heq. unfold ret at 1.
      destruct (IH Hrest b bs n w Hb)
        as (w' & b' & bs' & n' & Hrun & Hb' & Hle & Hmin & Hd).
      exists w', b', bs', n'. split_and!; [done|done|lia| |done].
      intros y Hy. apply elem_of_cons in Hy as [->|Hy]; [|by apply Hmin].
      exists sx. split; [done|lia].
Qed.

Lemma argmax_random_tie_int {A} (fn : A → Res Z) (seq : list A) (w : World) :
  seq ≠ [] → (∀ y, y ∈ seq → ∃ s, fn y = inr s) →
  ∃ w' x sx,
    argmax_random_tie int_ord seq fn w = (w', inr x)
    ∧ fn x = inr sx
    ∧ (∀ y, y ∈ seq → ∃ s, fn y = inr s ∧ (s ≤ sx)%Z)
    ∧ dataset w' = dataset w.
Proof.
  intros Hne Hfn. destruct seq as [|x0 seq]; [done|].
  destruct (Hfn x0) as [s0 H0]; [left|].
  set (fn' := fun x => letR s := fn x in inr (neg int_ord s)).
  assert (Hfn' : ∀ y, y ∈ x0 :: seq → ∃ s, fn' y = inr s).
  { intros y Hy. destruct (Hfn y Hy) as [s Hs]. unfold fn'. rewrite Hs.
    by eexists. }
  assert (H0' : fn' x0 = inr (- s0)%Z) by (unfold fn'; by rewrite H0).
  destruct (argmin_random_tie_int_loop fn' (x0 :: seq) Hfn' x0 (- s0)%Z 0 w H0')
    as (w' & b' & bs' & n' & Hrun & Hb' & _ & Hmin & Hd).
  unfold fn' in Hb'. destruct (fn b') as [|sb] eqn:Hsb; [done|].
  cbn in Hb'. injection Hb' as <-.
  exists w', b', sb. split_and!; [|done| |done].
  - unfold argmax_random_tie, argmin_random_tie. fold fn'.
    change (getitem (x0 :: seq) 0) with (inr (A := Exn) x0).
    rewrite (bind_liftR_inr _ _ _ x0 eq_refl).
    rewrite (bind_liftR_inr _ _ _ _ H0').
    by rewrite (bind_inr _ _ _ _ _ Hrun).
  - intros y Hy. destruct (Hmin y Hy) as (s & Hs & Hle). unfold fn' in Hs.
    destruct (fn y) as [|sy]; [done|]. cbn in Hs. injection Hs as <-.
    exists sy. split; [done|lia].
Qed.

Lemma plurality_value_member (d : DataSet) (gvs : list Value) (l : list Row)
    (w w' : World) (v : Value) :
  values d !! target d = Some gvs →
  plurality_value d l w = (w', inr (DecisionLeaf v)) → v ∈ gvs.
Proof.
  intros Hg. unfold plurality_value.
  rewrite (bind_liftR_inr _ _ _ _ (getitem_Some _ _ _ Hg)).
  unfold bind.
  match goal with |- context [argmax_random_tie int_ord gvs ?f w] =>
    destruct (argmax_random_tie int_ord gvs f w) as [w1 [err|x]] eqn:Hrun
  end; [done|].
  unfold ret. intros [= _ <-].
  by eapply argmax_random_tie_member.
Qed.

(** X12: [plurality_value] returns a leaf with a most popular target
    value.  When the target has a non-empty value set and every given
    example has a target, the leaf holds a value of that value set, and
    no value of the set is the target of more of the given examples;
    the random draws only decide between values that tie.  Without
    examples every value ties.  The data set is left as it was. *)
Theorem plurality_value_most_popular (d : DataSet) (gvs : list Value)
    (l : list Row) (w : World) :
  values d !! target d = Some gvs → gvs ≠ [] → has_column (target d) l →
  ∃ w' v,
    plurality_value d l w = (w', inr (DecisionLeaf v))
    ∧ dataset w' = dataset w
    ∧ v ∈ gvs
    ∧ ∀ v', v' ∈ gvs →
        length (rows_at (target d) v' l) ≤ length (rows_at (target d) v l).
Proof.
  intros Hg Hne Hcol. unfold plurality_value.
  rewrite (bind_liftR_inr _ _ _ _ (getitem_Some _ _ _ Hg)).
  match goal with |- context [argmax_random_tie int_ord gvs ?f] =>
    destruct (argmax_random_tie_int f gvs w Hne)
      as (w' & v & sv & Hrun & Hv & Hmax & Hd);
    [|pose proof (argmax_random_tie_member int_ord f gvs w w' v Hrun) as Hin]
  end.
  { intros v _. rewrite (count_column _ _ _ Hcol). by eexists. }
  exists w', v. split_and!; [|done|done|].
  - by rewrite (bind_inr _ _ _ _ _ Hrun).
  - intros v' Hv'. destruct (Hmax v' Hv') as (s & Hs & Hle).
    rewrite (count_column _ _ _ Hcol) in Hs.
    rewrite (count_column _ _ _ Hcol) in Hv. cbn in Hs, Hv.
    injection Hs as <-. injection Hv as <-. lia.
Qed.

Lemma plurality_value_most_popular_witness :
  values ab_dataset !! target ab_dataset = Some [VStr "yes"; VStr "no"]
  ∧ [VStr "yes"; VStr "no"] ≠ []
  ∧ has_column (target ab_dataset) ab_rows
  ∧ ∃ w' v,
      plurality_value ab_dataset ab_rows (world_of ab_dataset (fun _ => 0))
      = (w', inr (DecisionLeaf v))
      ∧ v ∈ [VStr "yes"; VStr "no"]
      ∧ ∀ v', v' ∈ [VStr "yes"; VStr "no"] →
          length (rows_at (target ab_dataset) v' ab_rows)
          ≤ length (rows_at (target ab_dataset) v ab_rows).
Proof.
  assert (Hg : values ab_dataset !! target ab_dataset
               = Some [VStr "yes"; VStr "no"]) by reflexivity.
  assert (Hne : [VStr "yes"; VStr "no"] ≠ []) by discriminate.
  assert (Hcol : has_column (target ab_dataset) ab_rows).
  { apply valid_rows_target.
    by destruct ab_dataset_tree_ready as (_ & _ & ?). }
  split; [exact Hg|]. split; [exact Hne|]. split; [exact Hcol|].
  destruct (plurality_value_most_popular ab_dataset [VStr "yes"; VStr "no"]
              ab_rows (world_of ab_dataset (fun _ => 0)) Hg Hne Hcol)
    as (w' & v & Hrun & _ & Hv & Hmax).
  exists w', v. split; [exact Hrun|]. split; [exact Hv|exact Hmax].
Defined.

(* ================================================================== *)
(** ** [split_by] splits *)

(** X13: [split_by] returns one pair for each value of the attribute's
    value set, in the order of the value set, and the examples paired
    with a value are the given examples that have this value at the
    attribute, in their order.  An example with a value outside the
    value set is in no part.  When the value set lists no value twice
    and every example has one of its values, the parts hold every
    example exactly once. *)
Theorem split_by_partitions (d : DataSet) (attr : nat) (vs : list Value)
    (examples : list Row) :
  values d !! attr = Some vs → has_column attr examples →
  ∃ parts,
    split_by d attr examples = inr parts
    ∧ parts.*1 = vs
    ∧ (∀ v exs, (v, exs) ∈ parts → exs = rows_at attr v examples)
    ∧ (∀ e, e ∈ concat parts.*2 ↔
            e ∈ examples ∧ ∃ v, v ∈ vs ∧ e !! attr = Some v)
    ∧ (NoDup vs →
       (∀ e, e ∈ examples → ∃ v, e !! attr = Some v ∧ v ∈ vs) →
       concat parts.*2 ≡ₚ examples).
Proof.
  intros Hv Hcol. eexists. split; [by apply split_by_column|].
  assert (Hsnd : (map (fun v => (v, rows_at attr v examples)) vs).*2
                 = map (fun v => rows_at attr v examples) vs).
  { by rewrite <- list_fmap_compose. }
  rewrite Hsnd. split_and!.
  - rewrite <- list_fmap_compose. apply list_fmap_id.
  - intros v exs Hin. by apply list_elem_of_fmap in Hin as (v' & [= -> ->] & _).
  - intros e. rewrite elem_of_concat. split.
    + intros (part & He & Hpart).
      apply list_elem_of_fmap in Hpart as (v & -> & Hin).
      unfold rows_at in He. apply list_elem_of_filter in He as [Hev He].
      split; [done|]. by exists v.
    + intros (He & v & Hin & Hev). exists (rows_at attr v examples). split.
      * unfold rows_at. by apply list_elem_of_filter.
      * apply list_elem_of_fmap. by exists v.
  - intros Hnd Hlegal. by apply rows_at_split.
Qed.

Lemma split_by_partitions_witness :
  values ab_dataset !! 0 = Some [VStr "A"; VStr "B"]
  ∧ has_column 0 ab_rows
  ∧ ∃ parts,
      split_by ab_dataset 0 ab_rows = inr parts
      ∧ parts.*1 = [VStr "A"; VStr "B"]
      ∧ ∀ v exs, (v, exs) ∈ parts → exs = rows_at 0 v ab_rows.
Proof.
  assert (Hv : values ab_dataset !! 0 = Some [VStr "A"; VStr "B"])
    by reflexivity.
  assert (Hcol : has_column 0 ab_rows).
  { apply (valid_rows_input ab_dataset).
    - by destruct ab_dataset_tree_ready as (_ & _ & ?).
    - left. }
  split; [exact Hv|]. split; [exact Hcol|].
  destruct (split_by_partitions ab_dataset 0 [VStr "A"; VStr "B"] ab_rows
              Hv Hcol) as (parts & Hrun & Hkeys & Hparts & _).
  exists parts. split; [exact Hrun|]. split; [exact Hkeys|exact Hparts].
Defined.

(* ================================================================== *)
(** ** The answers of a learned tree *)

Section TreeAnswers.
Variable fl : Floats.
Variable d : DataSet.
Hypothesis Hready : tree_ready d.

Lemma learning_answers_within (gvs : list Value) (depth : nat) :
  values d !! target d = Some gvs →
  ∀ (examples : list Row) (attrs : list nat) (parent : list Row) (w : World),
    length attrs < depth → attrs ⊆ inputs d →
    (∀ e, e ∈ examples → valid_row d e) →
    (∀ e, e ∈ parent → valid_row d e) →
    ∃ w' tree,
      decision_tree_learning fl d depth examples attrs parent w
      = (w', inr tree)
      ∧ ∀ e c, call tree e = inr c → c ∈ gvs.
Proof.
  intros Hg.
  induction depth as [|depth IH]; intros examples attrs parent w Hlen Hsub
    Hrows Hparent; [lia|].
  pose proof Hready as (Hgvs & Hins & _).
  destruct examples as [|e0 l].
  { destruct (plurality_value_returns d parent w Hgvs)
      as (w' & v & Hrun & _); [by apply valid_rows_target|].
    exists w', (DecisionLeaf v). split; [done|].
    intros e c [= <-]. by eapply plurality_value_member. }
  pose proof (valid_rows_target d _ Hrows) as Hcol.
  destruct (Hrows e0) as [(c & gvs' & Hc & Hg'' & Hcin) _]; [left|].
  assert (gvs' = gvs) as -> by congruence.
  pose proof (all_same_class_column d e0 l c Hcol Hc) as Hsame.
  destruct (decide (Forall (fun e : Row => e !! (target d) = Some c) (e0 :: l)))
    as [Hall|Hmixed].
  - rewrite bool_decide_eq_true_2 in Hsame by done.
    exists w, (DecisionLeaf c). split.
    + cbn [decision_tree_learning]. rewrite decide_False by done.
      rewrite (bind_liftR_inr _ _ _ _ Hsame).
      change (getitem (e0 :: l) 0) with (inr (A := Exn) e0).
      rewrite (bind_liftR_inr _ _ _ e0 eq_refl).
      by rewrite (bind_liftR_inr _ _ _ _ (getitem_Some _ _ _ Hc)).
    + intros e c' [= <-]. done.
  - rewrite bool_decide_eq_false_2 in Hsame by done.
    destruct attrs as [|a0 attrs'].
    + destruct (plurality_value_returns d (e0 :: l) w Hgvs Hcol)
        as (w' & v & Hrun & _).
      exists w', (DecisionLeaf v). split.
      * cbn [decision_tree_learning]. rewrite decide_False by done.
        by rewrite (bind_liftR_inr _ _ _ _ Hsame).
      * intros e c' [= <-]. by eapply plurality_value_member.
    + set (attrs := a0 :: attrs') in *.
      destruct (fork_step fl d Hready
                  (fun _ _ sub => ∀ e c, call sub e = inr c → c ∈ gvs)
                  depth (e0 :: l) attrs parent w)
        as (w' & A & name & vals & br & Hrun & Hd & HA & Hname & Hvals
            & Hin & Hout); [done|done|done|done|done| |].
      { intros A vals v w1 HA Hvals Hv.
        destruct (IH (rows_at A v (e0 :: l)) (removeall A attrs) (e0 :: l) w1)
          as (w2 & sub & Hrun & Hpost).
        - pose proof (removeall_shorter A attrs HA). lia.
        - etrans; [apply removeall_subseteq|done].
        - by apply rows_at_valid.
        - done.
        - exists w2, sub. split_and!; [done| |done].
          destruct (learning_returns fl d Hready depth
                      (rows_at A v (e0 :: l)) (removeall A attrs) (e0 :: l) w1)
            as (w3 & sub' & Hrun' & Hd' & _).
          + pose proof (removeall_shorter A attrs HA). lia.
          + etrans; [apply removeall_subseteq|done].
          + by apply rows_at_valid.
          + done.
          + congruence. }
      exists w', (DecisionFork A name br). split; [done|].
      intros e c'. cbn [call].
      destruct (getitem e A) as [|v] eqn:Hv; [done|]. cbn [bindR].
      rewrite lookup_fmap.
      destruct (br !! v) as [sub|] eqn:Hbr; [|done]. cbn.
      destruct (decide (v ∈ vals)) as [Hvin|Hvout].
      * destruct (Hin v Hvin) as (sub' & Hbr' & Hpost).
        assert (sub' = sub) as -> by congruence. apply Hpost.
      * by rewrite (Hout v Hvout) in Hbr.
Qed.
End TreeAnswers.

(** X14: a learned tree only answers with target values.  On a data set
    whose target has a non-empty value set, whose inputs have value sets
    and names and whose examples are valid rows, [DecisionTreeLearner]
    returns a tree and leaves the data set as it was, in every float
    arithmetic and for every sequence of random draws.  Whatever
    example the tree is called on, if it answers, the answer is a value
    of the target's value set; and it does answer on every example that
    has, at each input, a value of that input's value set. *)
Theorem learned_tree_answers (fl : Floats) (w : World) :
  tree_ready (dataset w) →
  ∃ w' tree gvs,
    DecisionTreeLearner fl w = (w', inr tree)
    ∧ dataset w' = dataset w
    ∧ values (dataset w) !! target (dataset w) = Some gvs
    ∧ (∀ e c, call tree e = inr c → c ∈ gvs)
    ∧ ∀ e : Row,
        (∀ a, a ∈ inputs (dataset w) →
           ∃ v vs, e !! a = Some v ∧ values (dataset w) !! a = Some vs
                   ∧ v ∈ vs) →
        ∃ c, call tree e = inr c ∧ c ∈ gvs.
Proof.
  intros Hready. pose proof Hready as ((gvs & Hg & _) & _ & Hrows).
  destruct (learning_returns fl (dataset w) Hready
              (S (length (inputs (dataset w)))) (examples (dataset w))
              (inputs (dataset w)) [] w)
    as (w' & tree & Hrun & Hd & _ & Hans); [lia|done|done| |].
  { intros e He. by apply elem_of_nil in He. }
  destruct (learning_answers_within fl (dataset w) Hready gvs
              (S (length (inputs (dataset w)))) Hg (examples (dataset w))
              (inputs (dataset w)) [] w)
    as (w2 & tree2 & Hrun2 & Hwithin); [lia|done|done| |].
  { intros e He. by apply elem_of_nil in He. }
  assert (tree2 = tree) as -> by congruence.
  exists w', tree, gvs. split_and!; [|done|done|done|].
  - unfold DecisionTreeLearner. unfold bind at 1. unfold get_dataset at 1.
    exact Hrun.
  - intros e He. destruct (Hans e He) as [c Hc]. exists c. split; [done|].
    by apply (Hwithin e).
Qed.

Lemma learned_tree_answers_witness :
  tree_ready (dataset (world_of ab_dataset (fun _ => 0)))
  ∧ ∃ w' tree,
      DecisionTreeLearner reals (world_of ab_dataset (fun _ => 0))
      = (w', inr tree)
      ∧ ∀ e c, call tree e = inr c → c ∈ [VStr "yes"; VStr "no"].
Proof.
  split; [exact ab_dataset_tree_ready|].
  destruct (learned_tree_answers reals (world_of ab_dataset (fun _ => 0))
              ab_dataset_tree_ready)
    as (w' & tree & gvs & Hrun & _ & Hg & Hwithin & _).
  exists w', tree. split; [exact Hrun|].
  injection Hg as <-. exact Hwithin.
Defined.

(* ================================================================== *)
(** ** The range of [information_content] *)

Section Content.
Open Scope R_scope.

Lemma bits_upper (c s k : R) :
  0 < c → c <= s → 0 < k →
  bits c s * ln 2 <= / k - c / s + c / s * ln k.
Proof.
  intros Hc Hs Hk. assert (0 < s) by lra.
  rewrite bits_pos by lra.
  assert (Hp : 0 < c / s) by (by apply Rdiv_lt_0_compat).
  pose proof ln_2_pos as H2.
  replace (- (c / s) * (ln (c / s) / ln 2) * ln 2)
    with (- (c / s) * ln (c / s)) by (field; lra).
  pose proof (ln_upper (/ (c / s * k))) as Hu.
  assert (Hpk : 0 < c / s * k) by (by apply Rmult_lt_0_compat).
  specialize (Hu ltac:(by apply Rinv_0_lt_compat)).
  rewrite ln_Rinv, ln_mult in Hu by done.
  assert (Hinv : / (c / s * k) * (c / s) = / k) by (field; lra).
  assert (Hmul : c / s * (- (ln (c / s) + ln k)) <= c / s * (/ (c / s * k) - 1)).
  { apply Rmult_le_compat_l; lra. }
  replace (c / s * (/ (c / s * k) - 1)) with (/ k - c / s) in Hmul
    by (field; lra).
  lra.
Qed.

Lemma bits_strict (c s : R) : 0 < c → c < s → 0 < bits c s.
Proof.
  intros Hc Hs. assert (0 < s) by lra. rewrite bits_pos by lra.
  assert (Hp : 0 < c / s) by (by apply Rdiv_lt_0_compat).
  assert (Hp1 : c / s < 1).
  { apply (Rmult_lt_reg_r s); [done|]. unfold Rdiv.
    rewrite Rmult_assoc, Rinv_l by lra. lra. }
  pose proof (ln_increasing _ _ Hp Hp1) as Hln. rewrite ln_1 in Hln.
  pose proof ln_2_pos as H2.
  assert (0 < / ln 2) by (by apply Rinv_0_lt_compat).
  assert (0 < - ln (c / s) * / ln 2) by (apply Rmult_lt_0_compat; lra).
  unfold Rdiv at 2.
  replace (- (c / s) * (ln (c / s) * / ln 2))
    with (c / s * (- ln (c / s) * / ln 2)) by ring.
  by apply Rmult_lt_0_compat.
Qed.

Lemma bits_whole (s : R) : bits s s = 0.
Proof.
  unfold bits. destruct (Req_dec_T s 0) as [|Hs]; [done|].
  unfold Rdiv. rewrite Rinv_r by done. rewrite ln_1. lra.
Qed.
End Content.

Lemma positive_counts (counts : list nat) (c : nat) :
  c ∈ removeall 0 counts → 0 < c ∧ c ≤ sum_list counts.
Proof.
  intros Hc. unfold removeall in Hc.
  apply list_elem_of_filter in Hc as [Hc Hin]. split; [lia|].
  apply (sum_list_with_in c Datatypes.id counts Hin).
Qed.

Lemma Rsum_constant {A} (a : R) (l : list A) :
  Rsum (map (fun _ => a) l) = (INR (length l) * a)%R.
Proof.
  induction l as [|x l IH]; [cbn; lra|].
  cbn [map length]. rewrite S_INR. cbn [Rsum foldr].
  fold (Rsum (map (fun _ : A => a) l)). rewrite IH. lra.
Qed.

(** X15: the range of [information_content], with the arithmetic of the
    real numbers in place of the floats.  For any list of counts the
    result is at least 0; it is at most [log2] of the number of counts
    that are not zero; and it is 0 exactly when at most one count is not
    zero.  Counts of zero never matter. *)
Theorem information_content_range (counts : list nat) :
  (0 <= information_content reals counts)%R
  ∧ (removeall 0 counts ≠ [] →
     (information_content reals counts
      <= ln (INR (length (removeall 0%nat counts))) / ln 2)%R)
  ∧ (information_content reals counts = 0%R
     ↔ length (removeall 0 counts) ≤ 1)
  ∧ information_content reals (removeall 0 counts)
    = information_content reals counts.
Proof.
  assert (Hsame : information_content reals (removeall 0 counts)
                  = information_content reals counts).
  { rewrite !information_content_reals. unfold entropy.
    rewrite sum_list_removeall.
    by rewrite (Rsum_removeall
                  (fun c => bits (INR c) (INR (sum_list counts))))
      by apply bits_zero. }
  split_and!; [| | |exact Hsame]; clear Hsame;
    rewrite information_content_reals; unfold entropy;
    rewrite <- (Rsum_removeall (fun c => bits (INR c) (INR (sum_list counts))))
      by apply bits_zero;
    set (vs := removeall 0 counts); set (s := INR (sum_list counts));
    (assert (Hvs : ∀ c, c ∈ vs → (0 < INR c)%R ∧ (INR c <= s)%R)
       by (intros c Hc; apply positive_counts in Hc as [H0 Hle];
           split; [by apply lt_0_INR|by apply le_INR]));
    (assert (Hnonneg : ∀ c, c ∈ vs → (0 <= bits (INR c) s)%R)
       by (intros c Hc; destruct (Hvs c Hc); apply bits_nonneg; lra));
    (assert (Hsum : (Rsum (map INR vs) = s)%R)
       by (unfold s, vs; by rewrite <- Rsum_of_counts, sum_list_removeall));
    pose proof ln_2_pos as H2.
  - by apply Rsum_nonneg.
  - intros Hne. set (k := INR (length vs)).
    assert (Hk : (0 < k)%R).
    { apply lt_0_INR. destruct vs; [done|]. cbn. lia. }
    assert (Hs : (0 < s)%R).
    { destruct vs as [|c vs'] eqn:E; [done|].
      destruct (Hvs c) as [? ?]; [left|]. lra. }
    assert (Hbound : (Rsum (map (fun c => bits (INR c) s * ln 2) vs)
                      <= Rsum (map (fun c => / k - INR c / s
                                             + INR c / s * ln k) vs))%R).
    { apply Rsum_le. intros c Hc. destruct (Hvs c Hc).
      by apply bits_upper. }
    rewrite Rsum_scal_r in Hbound.
    assert (Hright : (Rsum (map (fun c => / k - INR c / s
                                          + INR c / s * ln k) vs)
                      = ln k)%R).
    { rewrite (Rsum_ext _ (fun c => / k + INR c * ((ln k - 1) / s))%R)
        by (intros; field; lra).
      rewrite Rsum_plus, Rsum_scal_r, Hsum.
      assert (Hconst : (Rsum (map (fun _ : nat => / k) vs) = 1)%R).
      { rewrite Rsum_constant. unfold k. field. fold k. lra. }
      rewrite Hconst. field. lra. }
    rewrite Hright in Hbound.
    apply (Rmult_le_reg_r (ln 2)); [done|].
    unfold Rdiv. rewrite Rmult_assoc, Rinv_l by lra. lra.
  - destruct vs as [|c1 [|c2 rest]] eqn:E.
    + split; [cbn; lia|done].
    + split; [cbn; lia|]. intros _. cbn in Hsum. cbn [map Rsum foldr].
      replace s with (INR c1) by lra. rewrite bits_whole. lra.
    + split; [|cbn; lia]. intros Hzero. exfalso.
      destruct (Hvs c1) as [Hc1 _]; [left|].
      destruct (Hvs c2) as [Hc2 _]; [right; left|].
      assert (Hrest : (0 <= Rsum (map INR rest))%R).
      { apply Rsum_nonneg. intros c _. apply pos_INR. }
      cbn [map Rsum foldr] in Hsum. fold (Rsum (map INR rest)) in Hsum.
      assert (Hstrict : (0 < bits (INR c1) s)%R)
        by (apply bits_strict; lra).
      assert (Htail : (0 <= Rsum (map (fun c => bits (INR c) s)
                                      (c2 :: rest)))%R).
      { apply Rsum_nonneg. intros c Hc. apply Hnonneg. by right. }
      cbn [map Rsum foldr] in Hzero, Htail.
      fold (Rsum (map (fun c => bits (INR c) s) rest)) in Hzero, Htail.
      lra.
Qed.

(* ================================================================== *)
(** ** The score of [test] *)

Lemma test_loop_counts (predict : Predictor) (f : Row → Value) (D : DataSet)
    (l : list Row) :
  has_column (target D) l →
  (∀ e w1, e ∈ l → dataset w1 = D →
     predict (sanitize D e) w1 = (w1, inr (f e))) →
  ∀ r0 w, dataset w = D →
    ∃ r,
      foldM (fun right example =>
               letM d := get_dataset in
               letM desired := liftR (getitem example (target d)) in
               letM output := predict (sanitize d example) in
               ret (if bool_decide (output = desired)
                    then (right + 1)%Q else right)) r0 l w = (w, inr r)
      ∧ (r == r0 + nat_to_Q (length (right_answers D f l)))%Q.
Proof.
  induction l as [|e l IH]; intros Hcol Hp r0 w Hw.
  { exists r0. split; [done|]. change (nat_to_Q _) with 0%Q. ring. }
  destruct (Hcol e) as [desired Hd]; [left|].
  cbn [foldM]. unfold bind at 1. unfold bind at 1. unfold get_dataset at 1.
  unfold bind at 1. unfold liftR at 1. rewrite Hw.
  rewrite (getitem_Some _ _ _ Hd). unfold bind at 1.
  rewrite (Hp e w) by (done || left). unfold ret at 1.
  match goal with |- context [foldM _ ?r1 l w] =>
    destruct (IH (fun e' He' => Hcol e' (list_elem_of_further _ _ _ He'))
                 (fun e' w1 He' => Hp e' w1 (list_elem_of_further _ _ _ He'))
                 r1 w Hw) as (r & Hrun & Hr)
  end.
  exists r. split; [done|]. rewrite Hr. unfold right_answers.
  rewrite filter_cons, Hd.
  case_bool_decide as Heq; [subst desired; rewrite decide_True by done
                           |rewrite decide_False by congruence].
  - cbn [length]. rewrite nat_to_Q_S. ring.
  - ring.
Qed.

Lemma all_right_answers (d : DataSet) (f : Row → Value) (l : list Row) :
  length (right_answers d f l) = length l
  ↔ ∀ e, e ∈ l → e !! target d = Some (f e).
Proof.
  unfold right_answers. induction l as [|e l IH].
  { split; [|done]. intros _ e He. by apply elem_of_nil in He. }
  rewrite filter_cons. destruct (decide (e !! target d = Some (f e))) as [He|He].
  - cbn [length]. split.
    + intros Hlen e' [->|He']%elem_of_cons; [done|]. apply IH; [lia|done].
    + intros H. f_equal. apply IH. intros e' He'. apply H. by right.
  - split.
    + intros Hlen. pose proof (length_filter
        (fun e : Row => e !! target d = Some (f e)) l). cbn [length] in Hlen. lia.
    + intros H. destruct He. apply H. left.
Qed.

(** X16: the score of [test] is the share of right answers.  For a
    non-empty list of examples that all have a target, and a predictor
    that answers [f e] on the sanitized copy of each example [e] without
    changing anything, [test] leaves the world as it was and returns the
    number of examples whose target is [f e] divided by the number of
    examples; the score is 1 exactly when every example is answered
    with its target. *)
Theorem test_counts_right_answers (predict : Predictor) (f : Row → Value)
    (exs : list Row) (w : World) :
  exs ≠ [] →
  has_column (target (dataset w)) exs →
  (∀ e w1, e ∈ exs → dataset w1 = dataset w →
     predict (sanitize (dataset w) e) w1 = (w1, inr (f e))) →
  ∃ s,
    test predict (Some exs) w = (w, inr s)
    ∧ (s == nat_to_Q (length (right_answers (dataset w) f exs))
            / nat_to_Q (length exs))%Q
    ∧ ((s == 1)%Q ↔ ∀ e, e ∈ exs → e !! target (dataset w) = Some (f e)).
Proof.
  intros Hne Hcol Hp.
  destruct (test_loop_counts predict f (dataset w) exs Hcol Hp 0%Q w eq_refl)
    as (r & Hrun & Hr).
  assert (Hlen : length exs ≠ 0) by (by destruct exs).
  pose proof (nat_to_Q_pos _ Hlen) as Hpos.
  exists (r / nat_to_Q (length exs))%Q. split_and!.
  - unfold test. unfold bind at 1. unfold get_dataset at 1.
    change (default (examples (dataset w)) (Some exs)) with exs.
    rewrite decide_False by done. unfold bind at 1. by rewrite Hrun.
  - rewrite Hr. field. lra.
  - rewrite <- all_right_answers, Hr. split.
    + intros H1.
      assert (Hq : (nat_to_Q (length (right_answers (dataset w) f exs))
                    == nat_to_Q (length exs))%Q).
      { transitivity ((0 + nat_to_Q (length (right_answers (dataset w) f exs)))
                      / nat_to_Q (length exs) * nat_to_Q (length exs))%Q.
        - field. lra.
        - rewrite H1. ring. }
      unfold nat_to_Q in Hq. rewrite inject_Z_injective in Hq. lia.
    + intros ->. field. lra.
Qed.

Lemma test_counts_right_answers_witness :
  ab_rows ≠ []
  ∧ has_column (target ab_dataset) ab_rows
  ∧ (∀ e w1, e ∈ ab_rows → dataset w1 = ab_dataset →
       (fun _ : Row => ret (VStr "yes")) (sanitize ab_dataset e) w1
       = (w1, inr (VStr "yes")))
  ∧ ∃ s,
      test (fun _ : Row => ret (VStr "yes")) (Some ab_rows)
           (world_of ab_dataset (fun _ => 0))
      = (world_of ab_dataset (fun _ => 0), inr s)
      ∧ (s == 7 # 10)%Q.
Proof.
  assert (Hne : ab_rows ≠ []) by discriminate.
  assert (Hcol : has_column (target ab_dataset) ab_rows).
  { apply valid_rows_target.
    by destruct ab_dataset_tree_ready as (_ & _ & ?). }
  assert (Hp : ∀ e w1, e ∈ ab_rows → dataset w1 = ab_dataset →
             (fun _ : Row => ret (VStr "yes")) (sanitize ab_dataset e) w1
             = (w1, inr (VStr "yes"))) by reflexivity.
  split; [exact Hne|]. split; [exact Hcol|]. split; [exact Hp|].
  destruct (test_counts_right_answers
              (fun _ : Row => ret (VStr "yes")) (fun _ => VStr "yes")
              ab_rows (world_of ab_dataset (fun _ => 0)) Hne Hcol Hp)
    as (s & Hrun & Hs & _).
  exists s. split; [exact Hrun|].
  eapply Qeq_trans; [exact Hs|]. by vm_compute.
Defined.

(* ================================================================== *)
(** ** The split of [train_and_test] *)

Lemma take_mid_drop {A} (l : list A) (lo hi : nat) :
  lo ≤ hi → take lo l ++ take (hi - lo) (drop lo l) ++ drop hi l = l.
Proof.
  intros Hle. transitivity (take lo l ++ drop lo l); [|apply take_drop].
  f_equal.
  transitivity (take (hi - lo) (drop lo l) ++ drop (hi - lo) (drop lo l));
    [|apply take_drop].
  f_equal. rewrite drop_drop. f_equal. lia.
Qed.

(** X17: how [train_and_test] splits the examples with its three
    slices.  When the clipped start is not after the clipped end, the
    examples before [start], the test examples [start:end] and the
    examples from [end] on are the examples in order, so that training
    and test examples together hold every example exactly once.  When
    the clipped start is after the clipped end, nothing is tested and
    the examples between the two bounds are trained on twice.  The first
    case covers every [0 <= start <= end]. *)
Theorem train_test_split {A} (l : list A) (start end_ : Z) :
  (clip (length l) start ≤ clip (length l) end_ →
     slice_to l start ++ slice l start end_ ++ slice_from l end_ = l
     ∧ (slice_to l start ++ slice_from l end_) ++ slice l start end_ ≡ₚ l)
  ∧ (clip (length l) end_ < clip (length l) start →
     slice l start end_ = []
     ∧ length (slice_to l start ++ slice_from l end_)
       = length l + (clip (length l) start - clip (length l) end_))
  ∧ ((0 ≤ start ≤ end_)%Z → clip (length l) start ≤ clip (length l) end_).
Proof.
  assert (Hclip : ∀ i, clip (length l) i ≤ length l).
  { intros i. unfold clip. destruct (i <? 0)%Z eqn:Hi; lia. }
  pose proof (Hclip start) as Hs. pose proof (Hclip end_) as He.
  unfold slice_to, slice_from, slice. split_and!.
  - intros Hle.
    pose proof (take_mid_drop l _ _ Hle) as Heq.
    split; [done|].
    transitivity (take (clip (length l) start) l
                  ++ take (clip (length l) end_ - clip (length l) start)
                       (drop (clip (length l) start) l)
                  ++ drop (clip (length l) end_) l); [|by rewrite Heq].
    rewrite <- (assoc_L (++)).
    apply Permutation_app_head, Permutation_app_comm.
  - intros Hlt. split.
    + replace (clip (length l) end_ - clip (length l) start) with 0 by lia.
      done.
    + rewrite length_app, length_take, length_drop. lia.
  - intros [H0 Hle]. unfold clip.
    rewrite (proj2 (Z.ltb_ge start 0)) by done.
    rewrite (proj2 (Z.ltb_ge end_ 0)) by lia. lia.
Qed.

(* ================================================================== *)
(** ** Folds of [cross_validation] *)

Lemma held_out_nothing (learner : Learner) (start end_ : Z)
    (w w' : World) (s : Q) :
  slice (examples (dataset w)) start end_ = [] →
  train_and_test learner start end_ w = (w', inr s) → s = 0%Q.
Proof.
  intros Hslice. unfold train_and_test. unfold bind at 1.
  unfold get_dataset at 1. unfold try_finally. unfold bind at 1.
  unfold put_examples at 1. unfold bind at 1.
  match goal with |- context [learner ?w0] =>
    destruct (learner w0) as [w1 [err|predict]] end.
  { by intros [= _ ?]. }
  rewrite Hslice. unfold test, bind, get_dataset, ret. cbn.
  by intros [= _ <-].
Qed.

Lemma mean_zeros (ys : list Q) (m : Q) :
  Forall (fun y => y = 0%Q) ys → mean ys = inr m → (m == 0)%Q.
Proof.
  intros HF. unfold mean. destruct ys as [|y ys]; [done|]. intros [= <-].
  assert (Hsum : ∀ acc, (foldl Qplus acc (y :: ys) == acc)%Q).
  { clear -HF. induction HF as [|z zs -> _ IH]; intros acc; cbn [foldl].
    - reflexivity.
    - rewrite IH. ring. }
  change (foldl Qplus (0 + y)%Q ys) with (foldl Qplus 0%Q (y :: ys)).
  rewrite Hsum. unfold Qdiv. ring.
Qed.

(** X18: with more folds than examples, [cross_validation] tests
    nothing.  When [k] exceeds the number of examples, [n/k] is 0, every
    fold holds out the empty slice [0:0], and, for a learner that copes
    with the data set, the returned score is 0 whatever the learner has
    learned. *)
Theorem cross_validation_more_folds_than_examples (learner : Learner)
    (k : Z) (w : World) :
  reliable learner (dataset w) →
  (∀ e, e ∈ examples (dataset w) → valid_row (dataset w) e) →
  (Z.of_nat (length (examples (dataset w))) < k)%Z →
  ∃ w' s, cross_validation learner (Some k) 1 w = (w', inr s) ∧ (s == 0)%Q.
Proof.
  intros Hrel Hrows Hk.
  destruct (cross_validation_once_returns learner (dataset w) k w Hrel eq_refl
              Hrows) as (w' & s & Hrun); [lia|].
  exists w', s. split; [done|]. revert Hrun.
  assert (Hdiv : (Z.of_nat (length (examples (dataset w))) / k = 0)%Z)
    by (apply Z.div_small; lia).
  unfold cross_validation_once. unfold bind at 1. unfold get_dataset at 1.
  unfold bind at 1.
  destruct (shuffle (examples (dataset w)) w) as [w1 [err|y]]; [done|].
  unfold bind at 1. unfold put_examples at 1. unfold bind at 1.
  rewrite Hdiv.
  match goal with |- context [mapM ?f ?l ?w0] =>
    destruct (mapM f l w0) as [w2 [err|scores]] eqn:Hm end; [done|].
  unfold liftR. intros [= _ Hmean].
  apply mapM_results with (Post := fun y => y = 0%Q) in Hm as [HF _].
  - by eapply mean_zeros.
  - intros i v v' sc. rewrite !Z.mul_0_r. apply held_out_nothing.
    unfold slice, clip. cbn. by rewrite Nat.min_0_l.
Qed.

Lemma cross_validation_more_folds_than_examples_witness :
  reliable (DecisionTreePredictorLearner reals) ab_dataset
  ∧ (∀ e, e ∈ examples ab_dataset → valid_row ab_dataset e)
  ∧ (Z.of_nat (length (examples ab_dataset)) < 11)%Z
  ∧ ∃ w' s,
      cross_validation (DecisionTreePredictorLearner reals) (Some 11%Z) 1
                       (world_of ab_dataset (fun _ => 0)) = (w', inr s)
      ∧ (s == 0)%Q.
Proof.
  pose proof (decision_tree_reliable reals ab_dataset ab_dataset_tree_ready)
    as Hrel.
  pose proof ab_dataset_tree_ready as (_ & _ & Hrows).
  assert (Hk : (Z.of_nat (length (examples ab_dataset)) < 11)%Z)
    by reflexivity.
  split; [exact Hrel|]. split; [exact Hrows|]. split; [exact Hk|].
  exact (cross_validation_more_folds_than_examples
           (DecisionTreePredictorLearner reals) 11
           (world_of ab_dataset (fun _ => 0)) Hrel Hrows Hk).
Defined.

(** X19: [cross_validation] without folds divides by zero.  For [k] of
    0 or less and at most one trial, the examples are shuffled, no fold
    is run, and the mean of no scores raises [ZeroDivisionError]; the
    data set keeps the shuffled examples.  So [leave1out] on a data set
    without examples raises [ZeroDivisionError]. *)
Theorem cross_validation_without_folds (learner : Learner) (w : World) :
  (∀ k trials, (k ≤ 0)%Z → (trials ≤ 1)%Z →
     ∃ w1 shuffled,
       shuffle (examples (dataset w)) w = (w1, inr shuffled)
       ∧ shuffled ≡ₚ examples (dataset w)
       ∧ cross_validation learner (Some k) trials w
         = (set_examples shuffled w1, inl ZeroDivisionError))
  ∧ (examples (dataset w) = [] →
     leave1out learner w = (w, inl ZeroDivisionError)).
Proof.
  split.
  - intros k trials Hk Htrials.
    destruct (shuffle_Permutation (examples (dataset w)) w)
      as (w1 & y & Hsh & Hperm & _).
    exists w1, y. split_and!; [done..|].
    unfold cross_validation. unfold bind at 1. unfold get_dataset at 1.
    change (default (Z.of_nat (length (examples (dataset w)))) (Some k))
      with k. rewrite (proj2 (Z.ltb_ge 1 trials)) by lia.
    unfold cross_validation_once. unfold bind at 1. unfold get_dataset at 1.
    unfold bind at 1. rewrite Hsh. unfold bind at 1.
    unfold put_examples at 1. unfold bind at 1.
    unfold range. replace (Z.to_nat k) with 0 by lia. reflexivity.
  - intros Hnil. unfold leave1out, bind, get_dataset. rewrite Hnil.
    destruct w as [[exs ats names tgt ins vals] dr cur]. cbn in Hnil.
    subst exs. reflexivity.
Qed.

(** X20: for any learner, any number of folds and any number of trials,
    a score that [cross_validation] returns is between 0 and 1, and
    whether it returns or raises, the data set afterwards holds the
    same examples as before, each as often, in an order that the
    shuffles have chosen. *)
Theorem cross_validation_score_and_order (learner : Learner)
    (k : option Z) (trials : Z) (w : World) :
  (∀ w' s, cross_validation learner k trials w = (w', inr s) → proportion s)
  ∧ examples (dataset (fst (cross_validation learner k trials w)))
    ≡ₚ examples (dataset w).
Proof.
  assert (Hone : ∀ k' w0,
            examples (dataset (fst (cross_validation_once learner k' w0)))
            ≡ₚ examples (dataset w0)).
  { intros k' w0.
    destruct (cross_validation_once_examples learner k' w0)
      as (w1 & y & _ & Hperm & ->). done. }
  unfold cross_validation. unfold bind at 1 3. unfold get_dataset at 1 2.
  destruct (1 <? trials)%Z.
  - set (k' := default (Z.of_nat (length (examples (dataset w)))) k).
    pose proof (mapM_invariant
                  (fun w' => examples (dataset w') ≡ₚ examples (dataset w))
                  (fun _ : Z => cross_validation_once learner k')
                  (range trials)) as Hinv.
    specialize (Hinv (fun _ w0 Hw0 => transitivity (Hone k' w0) Hw0)
                  w (reflexivity _)).
    unfold bind.
    destruct (mapM (fun _ : Z => cross_validation_once learner k')
                   (range trials) w) as [w2 [err|scores]] eqn:Hm.
    + split; [done|]. exact Hinv.
    + split; [|exact Hinv]. unfold liftR. intros w' s [= _ Hmean].
      apply mapM_results with (Post := proportion) in Hm as [HF _].
      * by eapply mean_proportion.
      * intros i v v' sc Hrun. by eapply cross_validation_once_proportion.
  - split; [|apply Hone]. intros w' s. apply cross_validation_once_proportion.
Qed.

(* ================================================================== *)
(** ** Learning curves *)

Lemma score_examples (learner : Learner) (size : Z) (w : World) :
  examples (dataset (fst (score learner size w))) ≡ₚ examples (dataset w).
Proof.
  destruct (shuffle_Permutation (examples (dataset w)) w)
    as (w1 & y & Hsh & Hperm & Hd).
  unfold score. unfold bind at 1. unfold get_dataset at 1.
  unfold bind at 1. rewrite Hsh. unfold bind at 1. unfold put_examples at 1.
  by rewrite (fold_examples_kept learner y 0 size).
Qed.

Lemma score_proportion (learner : Learner) (size : Z) (w w' : World) (s : Q) :
  score learner size w = (w', inr s) → proportion s.
Proof.
  unfold score. unfold bind at 1. unfold get_dataset at 1. unfold bind at 1.
  destruct (shuffle (examples (dataset w)) w) as [w1 [err|y]]; [done|].
  unfold bind at 1. unfold put_examples at 1.
  apply train_and_test_proportion.
Qed.

Lemma mapM_fst {A B} (f : A → M B) (g : A → B → Prop) (l : list A) :
  (∀ x w w' y, f x w = (w', inr y) → g x y) →
  ∀ w w' ys, mapM f l w = (w', inr ys) → Forall2 g l ys.
Proof.
  intros Hf. induction l as [|x l IH]; intros w w' ys.
  - intros [= <- <-]. constructor.
  - cbn [mapM]. unfold bind.
    destruct (f x w) as [w1 [e|y]] eqn:Hx; [done|].
    destruct (mapM f l w1) as [w2 [e|ys']] eqn:Hl; [done|].
    intros [= <- <-]. constructor; [by eapply Hf|by eapply IH].
Qed.

(** X21: [learningcurve].  With the default sizes and at most 12
    examples there is no size to try: the curve is empty and nothing is
    shuffled.  A curve that is returned has one point per requested
    size, in the order of the sizes, and every score is between 0 and 1.
    Whether it returns or raises, the data set afterwards holds the same
    examples as before, each as often.  With no trial ([trials <= 0])
    and a size to try it raises [ZeroDivisionError] before anything is
    shuffled. *)
Theorem learningcurve_sizes_and_scores (learner : Learner) (trials : Z)
    (sizes : option (list Z)) (w : World) :
  (sizes = None → length (examples (dataset w)) ≤ 12 →
     learningcurve learner trials sizes w = (w, inr []))
  ∧ (∀ w' curve, learningcurve learner trials sizes w = (w', inr curve) →
       curve.*1 = default (default_sizes (length (examples (dataset w)))) sizes
       ∧ Forall (fun p => proportion p.2) curve)
  ∧ examples (dataset (fst (learningcurve learner trials sizes w)))
    ≡ₚ examples (dataset w)
  ∧ (∀ size rest, sizes = Some (size :: rest) → (trials ≤ 0)%Z →
       learningcurve learner trials sizes w = (w, inl ZeroDivisionError)).
Proof.
  set (point := fun size =>
         letM scores := mapM (fun _ : Z => score learner size) (range trials) in
         letM m := liftR (mean scores) in ret (size, m)).
  assert (Hpoint : ∀ size w0 w' p, point size w0 = (w', inr p) →
            p.1 = size ∧ proportion p.2).
  { intros size w0 w' p. unfold point. unfold bind at 1.
    destruct (mapM _ _ w0) as [w1 [err|scores]] eqn:Hm; [done|].
    unfold bind, liftR.
    destruct (mean scores) as [err|m] eqn:Hmean; [done|].
    intros [= _ <-]. split; [done|]. cbn [snd].
    apply mapM_results with (Post := proportion) in Hm as [HF _].
    - by eapply mean_proportion.
    - intros i v v' sc. apply score_proportion. }
  split_and!.
  - intros -> Hlen. unfold learningcurve, bind, get_dataset. cbn [default].
    unfold default_sizes.
    replace (Z.to_nat ((Z.of_nat (length (examples (dataset w))) - 11) / 2))
      with 0; [done|].
    assert ((Z.of_nat (length (examples (dataset w))) - 11) / 2 < 1)%Z; [|lia].
    apply Z.div_lt_upper_bound; lia.
  - intros w' curve. unfold learningcurve. unfold bind at 1.
    unfold get_dataset at 1. fold point.
    set (ss := default _ sizes). intros Hrun. split.
    + apply (mapM_fst point (fun size p => p.1 = size)) in Hrun.
      * clear -Hrun. induction Hrun as [|x y l ys Hxy _ IH]; [done|].
        cbn. by rewrite Hxy, IH.
      * intros size w0 w1 p Hp. by apply (Hpoint size w0 w1).
    + apply mapM_results with (Post := fun p => proportion p.2) in Hrun
        as [HF _]; [done|].
      intros size w0 w1 p Hp. by apply (Hpoint size w0 w1).
  - unfold learningcurve. unfold bind at 1. unfold get_dataset at 1.
    fold point.
    apply (mapM_invariant
             (fun w' => examples (dataset w') ≡ₚ examples (dataset w)));
      [|done].
    intros size w0 Hw0. unfold point. unfold bind at 1.
    pose proof (mapM_invariant
                  (fun w' => examples (dataset w') ≡ₚ examples (dataset w))
                  (fun _ : Z => score learner size) (range trials)) as Hinv.
    specialize (Hinv (fun _ w1 Hw1 =>
                        transitivity (score_examples learner size w1) Hw1)
                  w0 Hw0).
    destruct (mapM _ _ w0) as [w1 [err|scores]]; [done|].
    unfold bind, liftR. by destruct (mean scores).
  - intros size rest -> Htrials. unfold learningcurve, bind, get_dataset.
    cbn [default mapM]. unfold bind, range.
    replace (Z.to_nat trials) with 0 by lia. reflexivity.
Qed.

(* ================================================================== *)
(** ** Generated data sets *)

Lemma choice_bit (w : World) :
  ∃ b, choice [0; 1]%Z w
       = ({| dataset := dataset w; draws := draws w; cursor := S (cursor w) |},
          inr b)
       ∧ (b = 0 ∨ b = 1)%Z.
Proof.
  unfold choice, bind, randrange, liftR, getitem. cbn [length].
  pose proof (Nat.mod_upper_bound (draws w (cursor w)) 2) as Hlt.
  destruct (draws w (cursor w) `mod` 2) as [|[|i]]; [| |lia].
  - exists 0%Z. split; [done|by left].
  - exists 1%Z. split; [done|by right].
Qed.

Lemma mapM_spec {A B} (Inv : World → Prop) (Post : B → Prop) (f : A → M B)
    (l : list A) :
  (∀ x w, Inv w → ∃ w' y, f x w = (w', inr y) ∧ Inv w' ∧ Post y) →
  ∀ w, Inv w →
    ∃ w' ys, mapM f l w = (w', inr ys) ∧ Inv w'
             ∧ length ys = length l ∧ Forall Post ys.
Proof.
  intros Hf. induction l as [|x l IH]; intros w Hw.
  { exists w, []. by split_and!. }
  destruct (Hf x w Hw) as (w1 & y & Hx & Hw1 & Hy).
  destruct (IH w1 Hw1) as (w2 & ys & Hl & Hw2 & Hlen & HF).
  exists w2, (y :: ys). cbn [mapM]. unfold bind. rewrite Hx, Hl.
  split_and!; [done|done|by cbn; f_equal|by constructor].
Qed.

Lemma labelled_rows_spec (label : list Z → Z) (k n : Z) (w : World) :
  ∃ w' exs,
    labelled_rows label k n w = (w', inr exs)
    ∧ dataset w' = dataset w
    ∧ length exs = Z.to_nat n
    ∧ Forall (labelled label k) exs.
Proof.
  unfold labelled_rows.
  destruct (mapM_spec (fun w' => dataset w' = dataset w) (labelled label k)
              (fun _ : Z => letM bits := random_bits k in
                            ret (VInt <$> (bits ++ [label bits])))
              (range n)) with (w := w)
    as (w' & exs & Hrun & Hd & Hlen & HF); [|done|].
  - intros _ w0 Hw0. unfold random_bits.
    destruct (mapM_spec (fun w' => dataset w' = dataset w)
                (fun b => b = 0 ∨ b = 1)%Z
                (fun _ : Z => choice [0; 1]%Z) (range k)) with (w := w0)
      as (w1 & bits & Hbits & Hd1 & Hlen1 & HF1); [|done|].
    + intros _ w2 Hw2. destruct (choice_bit w2) as (b & Hb & Hbit).
      eexists _, b. by split_and!.
    + exists w1, (VInt <$> (bits ++ [label bits])).
      unfold bind. rewrite Hbits. split_and!; [done..|].
      exists bits. split_and!; [|done..].
      rewrite Hlen1. unfold range. by rewrite length_fmap, length_seq.
  - exists w', exs. split_and!; [done..| |done].
    rewrite Hlen. unfold range. by rewrite length_fmap, length_seq.
Qed.

Lemma labelled_length (label : list Z → Z) (k : Z) (e : Row) :
  labelled label k e → length e = S (Z.to_nat k).
Proof.
  intros (bits & Hlen & _ & ->). rewrite length_fmap, length_app. cbn. lia.
Qed.

Lemma labelled_consistent (label : list Z → Z) (k : Z) (exs : list Row) :
  Forall (labelled label k) exs → consistent (table exs (Z.to_nat k)).
Proof.
  rewrite Forall_forall. intros HF e1 e2 H1 H2 Hagree.
  cbn [examples inputs target table] in *.
  destruct (HF e1 H1) as (b1 & Hl1 & _ & ->).
  destruct (HF e2 H2) as (b2 & Hl2 & _ & ->).
  assert (b1 = b2) as ->; [|done].
  apply list_eq. intros i. destruct (decide (i < Z.to_nat k)) as [Hi|Hi].
  - specialize (Hagree i). rewrite elem_of_seq in Hagree.
    specialize (Hagree ltac:(lia)).
    rewrite !list_lookup_fmap, !lookup_app_l in Hagree by lia.
    destruct (b1 !! i), (b2 !! i); by simplify_eq/=.
  - rewrite !lookup_ge_None_2 by lia. done.
Qed.

Lemma generated (label : list Z → Z) (k n : Z) (w : World) :
  (0 < n)%Z →
  ∃ w' exs,
    (letM exs := labelled_rows label k n in liftR (DataSet_of exs)) w
    = (w', inr (table exs (Z.to_nat k)))
    ∧ dataset w' = dataset w
    ∧ length exs = Z.to_nat n
    ∧ Forall (labelled label k) exs.
Proof.
  intros Hn.
  destruct (labelled_rows_spec label k n w) as (w' & exs & Hrun & Hd & Hlen & HF).
  exists w', exs. split_and!; [|done..].
  unfold bind. rewrite Hrun. unfold liftR. f_equal.
  apply DataSet_of_table.
  - destruct exs; [cbn in Hlen; lia|done].
  - intros r Hr. rewrite Forall_forall in HF.
    by apply (labelled_length label), HF.
Qed.

Lemma generated_nothing (label : list Z → Z) (k n : Z) (w : World) :
  (n ≤ 0)%Z →
  (letM exs := labelled_rows label k n in liftR (DataSet_of exs)) w
  = (w, inl TypeError).
Proof.
  intros Hn. unfold labelled_rows, range, bind.
  replace (Z.to_nat n) with 0 by lia. reflexivity.
Qed.

Lemma sum_bits_shift (bits : list Z) (acc : Z) :
  foldl Z.add acc bits = (acc + sum_bits bits)%Z.
Proof.
  unfold sum_bits. revert acc.
  induction bits as [|b bits IH]; intros acc; cbn [foldl]; [lia|].
  rewrite (IH (acc + b)%Z), (IH (0 + b)%Z). lia.
Qed.

Lemma sum_bits_bounds (bits : list Z) :
  Forall (fun b => b = 0 ∨ b = 1)%Z bits →
  (0 ≤ sum_bits bits ≤ Z.of_nat (length bits))%Z
  ∧ sum_bits bits
    = Z.of_nat (length (filter (fun b => b = 1%Z) bits)).
Proof.
  induction 1 as [|b bits Hb _ [IH1 IH2]]; [done|].
  unfold sum_bits. cbn [foldl length]. rewrite sum_bits_shift, filter_cons.
  destruct Hb as [-> | ->].
  - rewrite decide_False by done. split; lia.
  - rewrite decide_True by done. cbn [length]. split; lia.
Qed.

Lemma odd_count (c : nat) : (Z.of_nat c `mod` 2 = 1)%Z ↔ Nat.Odd c.
Proof.
  destruct (Nat.Even_or_Odd c) as [He|Ho].
  - split; [|intros Ho; destruct (Nat.Even_Odd_False c He Ho)].
    destruct He as [j ->]. rewrite Nat2Z.inj_mul, Z.mul_comm, Z_mod_mult.
    done.
  - split; [done|]. intros _. destruct Ho as [j ->].
    replace (Z.of_nat (2 * j + 1)) with (1 + Z.of_nat j * 2)%Z by lia.
    by rewrite Z_mod_plus_full.
Qed.

(** X22: [Parity(k, n)].  For [n] of 0 or less there are no examples and
    the constructor of [DataSet] raises a [TypeError].  For [n] above 0
    and [k] up to 256 it returns a data set of [n] examples that passes
    [check_me]: each example is [k] bits (none for a negative [k])
    followed by their sum modulo 2, which is 1 exactly when an odd
    number of the bits are 1; the label is the target and the bits are
    the inputs, and no two examples with the same bits have different
    labels.  [Xor(n)] is [Parity(2, n)].
    (The bound on [k] is that of the identity test
    [a is not self.target] in [setproblem], which agrees with equality
    on the integers up to 256.) *)
Theorem Parity_rows (k n : Z) (w : World) :
  ((n ≤ 0)%Z → Parity k n w = (w, inl TypeError))
  ∧ ((0 < n)%Z → (k ≤ 256)%Z →
     ∃ w' d,
       Parity k n w = (w', inr d)
       ∧ dataset w' = dataset w
       ∧ length (examples d) = Z.to_nat n
       ∧ target d = Z.to_nat k ∧ inputs d = seq 0 (Z.to_nat k)
       ∧ check_me d = inr tt ∧ consistent d
       ∧ ∀ e, e ∈ examples d →
           ∃ bits, length bits = Z.to_nat k
                   ∧ Forall (fun b => b = 0 ∨ b = 1)%Z bits
                   ∧ e = VInt <$> (bits ++ [sum_bits bits `mod` 2])%Z
                   ∧ (sum_bits bits `mod` 2 = 1
                      ↔ Nat.Odd (length (filter (fun b => b = 1%Z) bits)))%Z)
  ∧ Xor n = Parity 2 n.
Proof.
  split_and!; [apply generated_nothing| |done].
  intros Hn _.
  destruct (generated (fun bits => sum_bits bits `mod` 2)%Z k n w Hn)
    as (w' & exs & Hrun & Hd & Hlen & HF).
  exists w', (table exs (Z.to_nat k)). split_and!; [done..| | |].
  - apply table_checked. intros r Hr. rewrite Forall_forall in HF.
    eapply labelled_length, HF, Hr.
  - by eapply labelled_consistent.
  - intros e He. rewrite Forall_forall in HF.
    destruct (HF e He) as (bits & Hbl & Hbits & ->).
    exists bits. split_and!; [done..|].
    destruct (sum_bits_bounds bits Hbits) as [_ ->]. apply odd_count.
Qed.

Lemma Parity_rows_witness :
  (0 < 3)%Z ∧ (2 ≤ 256)%Z
  ∧ ∃ w' d,
      Parity 2 3 (world_of ab_dataset (fun _ => 0)) = (w', inr d)
      ∧ length (examples d) = 3 ∧ target d = 2 ∧ inputs d = [0; 1]
      ∧ check_me d = inr tt ∧ consistent d.
Proof.
  assert (Hn : (0 < 3)%Z) by lia. assert (Hk : (2 ≤ 256)%Z) by lia.
  split; [exact Hn|]. split; [exact Hk|].
  destruct (proj1 (proj2 (Parity_rows 2 3 (world_of ab_dataset (fun _ => 0))))
              Hn Hk)
    as (w' & d & Hrun & _ & Hlen & Ht & Hi & Hc & Hcons & _).
  exists w', d. split; [exact Hrun|]. split; [exact Hlen|].
  split; [exact Ht|]. split; [exact Hi|]. split; [exact Hc|exact Hcons].
Defined.

(** X23: [Majority(k, n)].  For [n] of 0 or less the constructor of
    [DataSet] raises a [TypeError].  For [n] above 0 and [k] up to 256
    it returns a data set of [n] examples that passes [check_me]: each
    example is [k] bits followed by a label of 0 or 1, the label is the
    target and the bits are the inputs, and no two examples with the
    same bits have different labels.  For [k] of 0 or more the label is
    1 exactly when more than half of the [k] bits are 1; a tie, for an
    even [k], gives 0.
    (The bound on [k] is that of the identity test
    [a is not self.target] in [setproblem], which agrees with equality
    on the integers up to 256.) *)
Theorem Majority_rows (k n : Z) (w : World) :
  ((n ≤ 0)%Z → Majority k n w = (w, inl TypeError))
  ∧ ((0 < n)%Z → (k ≤ 256)%Z →
     ∃ w' d,
       Majority k n w = (w', inr d)
       ∧ dataset w' = dataset w
       ∧ length (examples d) = Z.to_nat n
       ∧ target d = Z.to_nat k ∧ inputs d = seq 0 (Z.to_nat k)
       ∧ check_me d = inr tt ∧ consistent d
       ∧ ∀ e, e ∈ examples d →
           ∃ bits label,
             length bits = Z.to_nat k
             ∧ Forall (fun b => b = 0 ∨ b = 1)%Z bits
             ∧ e = VInt <$> (bits ++ [label])
             ∧ (label = 0 ∨ label = 1)%Z
             ∧ ((0 ≤ k)%Z →
                label = 1%Z
                ↔ Z.to_nat k
                  < 2 * length (filter (fun b => b = 1%Z) bits))).
Proof.
  split; [apply generated_nothing|].
  intros Hn _.
  destruct (generated (fun bits => if (k / 2 <? sum_bits bits)%Z
                                   then 1 else 0)%Z k n w Hn)
    as (w' & exs & Hrun & Hd & Hlen & HF).
  exists w', (table exs (Z.to_nat k)). split_and!; [done..| | |].
  - apply table_checked. intros r Hr. rewrite Forall_forall in HF.
    eapply labelled_length, HF, Hr.
  - by eapply labelled_consistent.
  - intros e He. rewrite Forall_forall in HF.
    destruct (HF e He) as (bits & Hbl & Hbits & ->).
    eexists bits, _. split_and!; [done|done|reflexivity| |].
    + destruct (_ <? _)%Z; [by right|by left].
    + intros Hk. destruct (sum_bits_bounds bits Hbits) as [[Hlo Hhi] Hsum].
      rewrite Hsum. set (c := length (filter (fun b => b = 1%Z) bits)) in *.
      assert (Hc : c ≤ length bits) by apply length_filter.
      destruct (k / 2 <? Z.of_nat c)%Z eqn:Hlt.
      * apply Z.ltb_lt in Hlt. split; [|done]. intros _.
        pose proof (Z.mul_succ_div_gt k 2 ltac:(lia)). lia.
      * apply Z.ltb_ge in Hlt. split; [done|]. intros Hmore.
        pose proof (Z.mul_div_le k 2 ltac:(lia)). lia.
Qed.

Lemma Majority_rows_witness :
  (0 < 4)%Z ∧ (3 ≤ 256)%Z
  ∧ ∃ w' d,
      Majority 3 4 (world_of ab_dataset (fun n => n)) = (w', inr d)
      ∧ length (examples d) = 4 ∧ target d = 3 ∧ inputs d = [0; 1; 2]
      ∧ check_me d = inr tt ∧ consistent d.
Proof.
  assert (Hn : (0 < 4)%Z) by lia. assert (Hk : (3 ≤ 256)%Z) by lia.
  split; [exact Hn|]. split; [exact Hk|].
  destruct (proj2 (Majority_rows 3 4 (world_of ab_dataset (fun n => n)))
              Hn Hk)
    as (w' & d & Hrun & _ & Hlen & Ht & Hi & Hc & Hcons & _).
  exists w', d. split; [exact Hrun|]. split; [exact Hlen|].
  split; [exact Ht|]. split; [exact Hi|]. split; [exact Hc|exact Hcons].
Defined.
